(** * dsd.py: the monthly sales dashboard, its normalisation and its KPIs

    A shallow embedding of [src/dsd.py].  The script reads a CSV into a pandas
    DataFrame, renames and coerces its columns ([normalize_columns]), checks
    the four required columns ([require_columns]), sorts the rows by month and
    derives the KPIs and the four figures.

    Python values are modelled as the script has them: a [str] is a list of
    Unicode code points, a [float] is a binary64 number (Rocq's primitive
    floats), a DataFrame is an ordered list of named, typed columns.  What
    pandas and the Python runtime contribute ([str.strip], [float()], [repr],
    [Series.sum], [sort_values], ...) is modelled by the functions of the
    sections "Python runtime" and "pandas" below. *)

From Stdlib Require Import ZArith NArith List Bool Lia Ascii String.
From Stdlib Require Import Permutation Sorted DecimalPos DecimalN.
From Stdlib Require Import Floats.
Import ListNotations.

Local Open Scope Z_scope.

(** ** Python runtime: strings *)

(** A Python [str]: a sequence of Unicode code points. *)
Definition pystr := list N.

(** Decoder for the UTF-8 literals of this file (the script's Korean
    column names): bytes to code points. *)
Fixpoint utf8_decode (bs : list N) : pystr :=
  match bs with
  | [] => []
  | b0 :: r0 =>
    if (b0 <? 128)%N then b0 :: utf8_decode r0
    else match r0 with
    | b1 :: r1 =>
      if (b0 <? 224)%N then ((b0 - 192) * 64 + (b1 - 128))%N :: utf8_decode r1
      else match r1 with
      | b2 :: r2 =>
        if (b0 <? 240)%N
        then ((b0 - 224) * 4096 + (b1 - 128) * 64 + (b2 - 128))%N :: utf8_decode r2
        else match r2 with
        | b3 :: r3 =>
          ((b0 - 240) * 262144 + (b1 - 128) * 4096 + (b2 - 128) * 64 + (b3 - 128))%N
            :: utf8_decode r3
        | [] => [b0; b1; b2]
        end
      | [] => [b0; b1]
      end
    | [] => [b0]
    end
  end.

Definition u (s : string) : pystr :=
  utf8_decode (map N_of_ascii (list_ascii_of_string s)).

Definition chr (c : ascii) : N := N_of_ascii c.

Definition pystr_eqb (a b : pystr) : bool :=
  if list_eq_dec N.eq_dec a b then true else false.

(** [str.isspace] on one code point: the characters [str.strip()] removes. *)
Definition is_space (c : N) : bool :=
  ((9 <=? c) && (c <=? 13) || (28 <=? c) && (c <=? 32)
   || (c =? 133) || (c =? 160) || (c =? 5760)
   || (8192 <=? c) && (c <=? 8202)
   || (c =? 8232) || (c =? 8233) || (c =? 8239) || (c =? 8287) || (c =? 12288))%N.

Fixpoint lstrip (s : pystr) : pystr :=
  match s with
  | c :: r => if is_space c then lstrip r else s
  | [] => []
  end.

Definition rstrip (s : pystr) : pystr := rev (lstrip (rev s)).

(** [s.strip()] *)
Definition strip (s : pystr) : pystr := rstrip (lstrip s).

(** [s.replace(c, '')] for a one-character pattern. *)
Definition remove_char (c : N) (s : pystr) : pystr :=
  filter (fun x => negb (x =? c)%N) s.

(** [sep.join(parts)] *)
Fixpoint join (sep : pystr) (parts : list pystr) : pystr :=
  match parts with
  | [] => []
  | [p] => p
  | p :: rest => p ++ sep ++ join sep rest
  end.

(** [a <= b] on [str]: lexicographic on code points. *)
Fixpoint str_leb (a b : pystr) : bool :=
  match a, b with
  | [], _ => true
  | _ :: _, [] => false
  | x :: a', y :: b' =>
    if (x <? y)%N then true else if (y <? x)%N then false else str_leb a' b'
  end.

Definition str_in (s : pystr) (l : list pystr) : bool := existsb (pystr_eqb s) l.

(** ** Python runtime: numbers *)

(** The code points of the digit zero of every decimal script (Unicode
    14.0); the nine other digits follow each. *)
Definition DECIMAL_ZEROS : list N :=
  [48; 1632; 1776; 1984; 2406; 2534; 2662; 2790; 2918; 3046; 3174; 3302; 3430;
   3558; 3664; 3792; 3872; 4160; 4240; 6112; 6160; 6470; 6608; 6784; 6800; 6992;
   7088; 7232; 7248; 42528; 43216; 43264; 43472; 43504; 43600; 44016; 65296;
   66720; 68912; 69734; 69872; 69942; 70096; 70384; 70736; 70864; 71248; 71360;
   71472; 71904; 72016; 72784; 73040; 73120; 92768; 92864; 93008; 120782; 120792;
   120802; 120812; 120822; 123200; 123632; 125264; 130032]%N.

(** The value of a decimal digit, as [float()] and [int()] read it. *)
Definition digit_val (c : N) : option Z :=
  match find (fun z => (z <=? c) && (c <? z + 10))%N DECIMAL_ZEROS with
  | Some z => Some (Z.of_N (c - z))
  | None => None
  end.

Definition digits_value (ds : list Z) : Z := fold_left (fun a d => 10 * a + d) ds 0.

Fixpoint uint_digits (d : Decimal.uint) : pystr :=
  match d with
  | Decimal.Nil => []
  | Decimal.D0 r => 48%N :: uint_digits r
  | Decimal.D1 r => 49%N :: uint_digits r
  | Decimal.D2 r => 50%N :: uint_digits r
  | Decimal.D3 r => 51%N :: uint_digits r
  | Decimal.D4 r => 52%N :: uint_digits r
  | Decimal.D5 r => 53%N :: uint_digits r
  | Decimal.D6 r => 54%N :: uint_digits r
  | Decimal.D7 r => 55%N :: uint_digits r
  | Decimal.D8 r => 56%N :: uint_digits r
  | Decimal.D9 r => 57%N :: uint_digits r
  end.

(** Decimal digits of a natural number, ["0"] for zero. *)
Definition nat_digits (z : Z) : pystr := uint_digits (N.to_uint (Z.to_N z)).

(** [str(i)] for an [int]. *)
Definition str_of_int (z : Z) : pystr :=
  if z <? 0 then chr "-" :: nat_digits (- z) else nat_digits z.

(** The binary64 number nearest to [m * 10^e] ([m >= 0]), ties to even, with
    the sign [neg]: what [float()] returns for a decimal literal.  For a
    negative exponent the quotient is taken with 64 extra bits and a sticky
    bit, which rounds as the exact quotient does. *)
Definition round_decimal (neg : bool) (m e : Z) : float :=
  if m =? 0 then (if neg then neg_zero else zero)
  else if 0 <=? e then
    SF2Prim (binary_normalize prec emax (cond_Zopp neg (m * 10 ^ e)) 0 false)
  else
    let d := 10 ^ (- e) in
    let k := Z.max 0 (Z.log2 d - Z.log2 m + 64) in
    let q := (m * 2 ^ k) / d in
    let r := (m * 2 ^ k) mod d in
    let m' := 2 * q + (if r =? 0 then 0 else 1) in
    SF2Prim (binary_normalize prec emax (cond_Zopp neg m') (- k - 1) false).

(** [int -> float] conversion (nearest, ties to even). *)
Definition float_of_Z (z : Z) : float :=
  SF2Prim (binary_normalize prec emax z 0 false).

(** *** [float(s)] *)

(** The digits of a [digitpart] after its first digit: digits, each
    optionally preceded by one underscore. *)
Fixpoint digitpart_rest (s : pystr) (acc : list Z) : list Z * pystr :=
  match s with
  | c :: r =>
    match digit_val c with
    | Some d => digitpart_rest r (acc ++ [d])
    | None =>
      if (c =? 95)%N then
        match r with
        | c2 :: r2 =>
          match digit_val c2 with
          | Some d => digitpart_rest r2 (acc ++ [d])
          | None => (acc, s)
          end
        | [] => (acc, s)
        end
      else (acc, s)
    end
  | [] => (acc, [])
  end.

(** A possibly empty [digitpart] at the head of [s]. *)
Definition digitpart (s : pystr) : list Z * pystr :=
  match s with
  | c :: r =>
    match digit_val c with
    | Some d => digitpart_rest r [d]
    | None => ([], s)
    end
  | [] => ([], [])
  end.

Definition read_sign (s : pystr) : bool * pystr :=
  match s with
  | c :: r => if (c =? 45)%N then (true, r) else if (c =? 43)%N then (false, r) else (false, s)
  | [] => (false, [])
  end.

Definition lower (c : N) : N := if ((65 <=? c) && (c <=? 90))%N then (c + 32)%N else c.

(** The exponent part, [e] or [E], an optional sign and a [digitpart];
    [None] when the text is something else. *)
Definition read_exponent (s : pystr) : option Z :=
  match s with
  | [] => Some 0
  | c :: r =>
    if (lower c =? 101)%N then
      let '(neg, r1) := read_sign r in
      match digitpart r1 with
      | ((_ :: _) as ds, []) => Some (cond_Zopp neg (digits_value ds))
      | _ => None
      end
    else None
  end.

(** [sign] applied to an unsigned literal: [inf], [infinity], [nan] in any
    case, or a decimal number with at least one digit. *)
Definition float_of_unsigned (neg : bool) (s : pystr) : option float :=
  let low := map lower s in
  if pystr_eqb low (u "inf") || pystr_eqb low (u "infinity")
  then Some (if neg then neg_infinity else infinity)
  else if pystr_eqb low (u "nan") then Some nan
  else
    let '(ip, r1) := digitpart s in
    let '(fp, r2) :=
      match r1 with
      | c :: r => if (c =? 46)%N then digitpart r else ([], r1)
      | [] => ([], [])
      end in
    match ip ++ fp with
    | [] => None
    | ds =>
      match read_exponent r2 with
      | Some e => Some (round_decimal neg (digits_value ds) (e - Z.of_nat (List.length fp)))
      | None => None
      end
    end.

(** The white space [float()] skips at both ends: ASCII blanks, and any
    other Unicode space. *)
Definition is_float_space (c : N) : bool :=
  ((9 <=? c) && (c <=? 13) || (c =? 32) || (127 <=? c) && is_space c)%N.

Fixpoint lskip (s : pystr) : pystr :=
  match s with
  | c :: r => if is_float_space c then lskip r else s
  | [] => []
  end.

(** [float(s)] for a [str]: [None] stands for the [ValueError] "could not
    convert string to float". *)
Definition float_of_str (s : pystr) : option float :=
  let body := rev (lskip (rev (lskip s))) in
  let '(neg, r) := read_sign body in
  float_of_unsigned neg r.

(** *** [repr(x)] of a [float] *)

(** [v >= 10^k] for the positive rational [v = num / den]. *)
Definition ge_pow10 (num den k : Z) : bool :=
  if 0 <=? k then den * 10 ^ k <=? num else den <=? num * 10 ^ (- k).

Fixpoint decpt_from (fuel : nat) (num den k : Z) : Z :=
  match fuel with
  | O => k
  | S fuel' => if ge_pow10 num den k then decpt_from fuel' num den (k + 1) else k
  end.

(** The decimal point of [v]: the [n] with [10^(n-1) <= v < 10^n], searched
    upwards from an estimate by the binary logarithm. *)
Definition decimal_point (num den : Z) : Z :=
  decpt_from 8 num den ((Z.log2 num - Z.log2 den) * 30103 / 100000 - 2).

(** The two integers around [v * 10^t], the nearer one first (ties: the
    even one). *)
Definition scaled_candidates (num den t : Z) : Z * Z :=
  let sn := if 0 <=? t then num * 10 ^ t else num in
  let sd := if 0 <=? t then den else den * 10 ^ (- t) in
  let q := sn / sd in
  let r := sn mod sd in
  match 2 * r ?= sd with
  | Lt => (q, q + 1)
  | Gt => (q + 1, q)
  | Eq => if Z.even q then (q, q + 1) else (q + 1, q)
  end.

Fixpoint strip_zeros_rev (ds : pystr) : pystr :=
  match ds with
  | c :: r => if (c =? 48)%N then strip_zeros_rev r else ds
  | [] => []
  end.

Definition zeros (n : Z) : pystr := repeat 48%N (Z.to_nat n).

(** The decimal [d * 10^(-t)] as [repr] writes it: fixed notation with a
    fractional part, or exponent notation when the decimal point is at
    most -4 or above 16. *)
Definition format_decimal (d t : Z) : pystr :=
  let all := nat_digits d in
  let decpt := Z.of_nat (List.length all) - t in
  let ds := rev (strip_zeros_rev (rev all)) in
  let nd := Z.of_nat (List.length ds) in
  if (decpt <=? -4) || (16 <? decpt) then
    let ex := decpt - 1 in
    let exd := nat_digits (Z.abs ex) in
    firstn 1 ds ++ (if 1 <? nd then chr "." :: skipn 1 ds else [])
      ++ [chr "e"; if ex <? 0 then chr "-" else chr "+"]
      ++ (if Z.abs ex <? 10 then chr "0" :: exd else exd)
  else if decpt <=? 0 then u "0." ++ zeros (- decpt) ++ ds
  else if decpt <? nd then
    firstn (Z.to_nat decpt) ds ++ chr "." :: skipn (Z.to_nat decpt) ds
  else ds ++ zeros (decpt - nd) ++ u ".0".

(** [float(text)] is [x]. *)
Definition reads_as (x : float) (text : pystr) : bool :=
  match float_of_str text with
  | Some y => PrimFloat.Leibniz.eqb y x
  | None => false
  end.

(** The shortest decimal text that [float()] reads back as [x], which is
    what [repr] returns: precisions 1 to 17 in turn, at each the nearer
    candidate first.  [sign] is the text before the digits, [num / den]
    the magnitude of [x]. *)
Fixpoint shortest_repr (ps : list Z) (x : float) (sign : pystr) (num den n : Z)
  : option pystr :=
  match ps with
  | [] => None
  | p :: ps' =>
    let t := p - n in
    let '(d1, d2) := scaled_candidates num den t in
    if reads_as x (sign ++ format_decimal d1 t) then Some (sign ++ format_decimal d1 t)
    else if reads_as x (sign ++ format_decimal d2 t) then Some (sign ++ format_decimal d2 t)
    else shortest_repr ps' x sign num den n
  end.

(** [m * 2^e] written out in full, as an integer and a power of ten. *)
Definition exact_decimal (m : positive) (e : Z) : pystr :=
  let t := Z.max 0 (- e) in
  let d := if 0 <=? e then Z.pos m * 2 ^ e else Z.pos m * 5 ^ t in
  nat_digits d ++ chr "e" :: chr "-" :: nat_digits t.

(** The text of the finite float [x] of sign [s] and magnitude [m * 2^e].
    Seventeen digits are enough for every binary64 number, so the search
    ends with a text; the expansion in full, which no rounding touches,
    stands after it to make the function total. *)
Definition repr_finite (x : float) (s : bool) (m : positive) (e : Z) : pystr :=
  let sign := if s then [chr "-"] else [] in
  let num := if 0 <=? e then Z.pos m * 2 ^ e else Z.pos m in
  let den := if 0 <=? e then 1 else 2 ^ (- e) in
  let n := decimal_point num den in
  match shortest_repr [1;2;3;4;5;6;7;8;9;10;11;12;13;14;15;16;17] x sign num den n with
  | Some text => text
  | None => sign ++ exact_decimal m e
  end.

(** [str(x)] (the same as [repr(x)]) for a [float]. *)
Definition str_of_float (x : float) : pystr :=
  match Prim2SF x with
  | S754_nan => u "nan"
  | S754_infinity s => if s then u "-inf" else u "inf"
  | S754_zero s => if s then u "-0.0" else u "0.0"
  | S754_finite s m e => repr_finite x s m e
  end.

(** ** Exceptions and results *)

Inductive exn :=
| ValueError_float (s : pystr)   (* could not convert string to float: s *)
| ValueError_empty               (* arg-extremum of an empty or all-NA sequence *)
| ValueError_label (k : pystr)   (* the column label k is not unique *)
| AttributeError_str             (* no [.str] accessor on this object *)
| KeyError (k : pystr)
| TypeError.

Inductive result (A : Type) :=
| Ok (a : A)
| Raise (e : exn).
Arguments Ok {A} a.
Arguments Raise {A} e.

Definition bind {A B} (r : result A) (k : A -> result B) : result B :=
  match r with
  | Ok a => k a
  | Raise e => Raise e
  end.

Notation "x <- r ;; k" := (bind r (fun x => k))
  (at level 61, r at next level, right associativity).

Fixpoint mapM {A B} (f : A -> result B) (l : list A) : result (list B) :=
  match l with
  | [] => Ok []
  | x :: r => y <- f x ;; ys <- mapM f r ;; Ok (y :: ys)
  end.

Fixpoint foldM {A B} (f : B -> A -> result B) (l : list A) (b : B) : result B :=
  match l with
  | [] => Ok b
  | x :: r => b' <- f b x ;; foldM f r b'
  end.

(** ** pandas: Series and DataFrame *)

(** An element of an [object] column: text, or a float (NaN is how pandas
    stores a missing cell). *)
Inductive pyobj :=
| OStr (s : pystr)
| OFloat (x : float).

(** A column with its dtype. *)
Inductive series :=
| Object (xs : list pyobj)
| Float64 (xs : list float)
| Int64 (xs : list Z)
| Bool (xs : list bool).

(** A DataFrame: its columns in order, each with its label.  Labels may
    repeat.  Rows are positions: the default integer index. *)
Definition DataFrame := list (pystr * series).

Definition columns (df : DataFrame) : list pystr := map fst df.

Definition size (s : series) : nat :=
  match s with
  | Object xs => List.length xs
  | Float64 xs => List.length xs
  | Int64 xs => List.length xs
  | Bool xs => List.length xs
  end.

(** [df[c]]: nothing, one Series, or (for a repeated label) a DataFrame. *)
Inductive selection :=
| Missing
| One (s : series)
| Many.

Definition select (df : DataFrame) (c : pystr) : selection :=
  match filter (fun hs => pystr_eqb (fst hs) c) df with
  | [] => Missing
  | [(_, s)] => One s
  | _ => Many
  end.

(** [df[c] = s]: replaces the column labelled [c], or appends it. *)
Fixpoint set_column (df : DataFrame) (c : pystr) (s : series) : DataFrame :=
  match df with
  | [] => [(c, s)]
  | (h, s0) :: r => if pystr_eqb h c then (h, s) :: r else (h, s0) :: set_column r c s
  end.

(** [df[c]] where the script goes on with a Series method. *)
Definition get_series (df : DataFrame) (c : pystr) : result series :=
  match select df c with
  | Missing => Raise (KeyError c)
  | One s => Ok s
  | Many => Raise TypeError
  end.

Definition str_of_obj (o : pyobj) : pystr :=
  match o with
  | OStr s => s
  | OFloat x => str_of_float x
  end.

(** [s.astype(str)]: the text of every cell.  A missing cell becomes the
    text [nan], as pandas 2 has it (pandas 3 leaves such a cell missing);
    on a column without a missing cell the two agree. *)
Definition astype_str (s : series) : series :=
  Object (match s with
          | Object xs => map (fun o => OStr (str_of_obj o)) xs
          | Float64 xs => map (fun x => OStr (str_of_float x)) xs
          | Int64 xs => map (fun z => OStr (str_of_int z)) xs
          | Bool xs => map (fun b : bool => OStr (if b then u "True" else u "False")) xs
          end).

(** A method of the [.str] accessor: applied to the text elements of an
    object column, NaN for the others; no accessor on other dtypes. *)
Definition str_method (f : pystr -> pystr) (s : series) : result series :=
  match s with
  | Object xs =>
    Ok (Object (map (fun o => match o with OStr t => OStr (f t) | OFloat _ => OFloat nan end) xs))
  | _ => Raise AttributeError_str
  end.

(** [s.replace('', np.nan)] *)
Definition replace_empty (s : series) : series :=
  match s with
  | Object xs =>
    Object (map (fun o => match o with OStr [] => OFloat nan | _ => o end) xs)
  | _ => s
  end.

Definition float_of_obj (o : pyobj) : result float :=
  match o with
  | OStr t => match float_of_str t with Some x => Ok x | None => Raise (ValueError_float t) end
  | OFloat x => Ok x
  end.

Definition float_of_bool (b : bool) : float := if b then one else zero.

(** [s.astype(float)] *)
Definition astype_float (s : series) : result series :=
  match s with
  | Object xs => ys <- mapM float_of_obj xs ;; Ok (Float64 ys)
  | Float64 xs => Ok (Float64 xs)
  | Int64 xs => Ok (Float64 (map float_of_Z xs))
  | Bool xs => Ok (Float64 (map float_of_bool xs))
  end.

(** The values of a numeric column as floats, for the reductions. *)
Definition float_values (s : series) : result (list float) :=
  match s with
  | Float64 xs => Ok xs
  | Int64 xs => Ok (map float_of_Z xs)
  | Bool xs => Ok (map float_of_bool xs)
  | Object _ => Raise TypeError
  end.

(** The elements of a column of text. *)
Definition str_values (s : series) : result (list pystr) :=
  match s with
  | Object xs => mapM (fun o => match o with OStr t => Ok t | OFloat _ => Raise TypeError end) xs
  | _ => Raise TypeError
  end.

(** *** Sorting *)

Section Argsort.
Context {A : Type}.
Variable leb : A -> A -> bool.
Variable isna : A -> bool.

(** Insertion of a keyed position before the first key that is not
    smaller. *)
Fixpoint insert_key (x : A * nat) (l : list (A * nat)) : list (A * nat) :=
  match l with
  | [] => [x]
  | y :: r => if leb (fst x) (fst y) then x :: l else y :: insert_key x r
  end.

Fixpoint sort_keys (l : list (A * nat)) : list (A * nat) :=
  match l with
  | [] => []
  | x :: r => insert_key x (sort_keys r)
  end.

Definition enumerate (xs : list A) : list (A * nat) :=
  combine xs (seq 0 (List.length xs)).

(** The positions of [xs] in ascending order of the values, the missing
    ones last ([na_position='last']).  Equal keys keep their order; the
    order pandas' default sort gives to equal keys is not specified. *)
Definition argsort (xs : list A) : list nat :=
  let ks := enumerate xs in
  map snd (sort_keys (filter (fun k => negb (isna (fst k))) ks))
    ++ map snd (filter (fun k => isna (fst k)) ks).
End Argsort.

(** [xs.take(idx)]: the elements at the positions [idx]. *)
Definition take {A} (idx : list nat) (xs : list A) : list A :=
  flat_map (fun i => match nth_error xs i with Some x => [x] | None => [] end) idx.

Definition take_series (idx : list nat) (s : series) : series :=
  match s with
  | Object xs => Object (take idx xs)
  | Float64 xs => Float64 (take idx xs)
  | Int64 xs => Int64 (take idx xs)
  | Bool xs => Bool (take idx xs)
  end.

Definition obj_isna (o : pyobj) : bool :=
  match o with
  | OStr _ => false
  | OFloat x => is_nan x
  end.

(** [a <= b] between the elements of an object column that is sorted:
    text by code points.  (Python raises on a comparison of text with a
    number; a column of labels holds text only.) *)
Definition obj_leb (a b : pyobj) : bool :=
  match a, b with
  | OStr s, OStr t => str_leb s t
  | OFloat x, OFloat y => (x <=? y)%float
  | OStr _, OFloat _ => true
  | OFloat _, OStr _ => false
  end.

Definition argsort_series (s : series) : list nat :=
  match s with
  | Object xs => argsort obj_leb obj_isna xs
  | Float64 xs => argsort PrimFloat.leb is_nan xs
  | Int64 xs => argsort Z.leb (fun _ => false) xs
  | Bool xs => argsort (fun a b : bool => implb a b) (fun _ => false) xs
  end.

(** [df.sort_values(c)], and [.reset_index(drop=True)] after it: rows are
    positions here, so the second is the identity. *)
Definition sort_values (c : pystr) (df : DataFrame) : result DataFrame :=
  match select df c with
  | Missing => Raise (KeyError c)
  | Many => Raise (ValueError_label c)
  | One key =>
    let idx := argsort_series key in
    Ok (map (fun hs => (fst hs, take_series idx (snd hs))) df)
  end.

(** *** Reductions of a float column *)

(** A missing cell replaced by [v]. *)
Definition fillna (v x : float) : float := if is_nan x then v else x.

(** The cells added one after the other onto [acc]. *)
Definition sum_from (acc : float) (a : list float) : float :=
  fold_left (fun r x => (r + x)%float) a acc.

(** The eight accumulators of numpy's block sum: accumulator [j] takes
    every eighth cell from cell [j] on, as long as eight cells are left;
    the cells that are left come with the accumulators. *)
Fixpoint add_lanes (r : list float) (a : list float) : list float * list float :=
  match a with
  | a0 :: a1 :: a2 :: a3 :: a4 :: a5 :: a6 :: a7 :: rest =>
    add_lanes (map (fun p => (fst p + snd p)%float)
                   (combine r [a0; a1; a2; a3; a4; a5; a6; a7])) rest
  | _ => (r, a)
  end.

Definition add_tree (r : list float) : float :=
  match r with
  | [r0; r1; r2; r3; r4; r5; r6; r7] =>
    (((r0 + r1) + (r2 + r3)) + ((r4 + r5) + (r6 + r7)))%float
  | _ => zero
  end.

(** A block of 8 to 128 cells: the accumulators are added up pairwise and
    the cells past the last multiple of 8 are added one by one. *)
Definition block_sum (a : list float) : float :=
  let '(r, rest) := add_lanes (firstn 8 a) (skipn 8 a) in
  sum_from (add_tree r) rest.

(** numpy's pairwise sum of a float64 array: fewer than 8 cells are added
    one after the other, up to 128 cells as a block, and more than 128
    cells as the sum of two parts, the first of half the cells rounded
    down to a multiple of 8.  ([fuel] bounds the depth of the halving; the
    number of cells is more than enough.) *)
Fixpoint pairwise_sum (fuel : nat) (a : list float) : float :=
  let n := List.length a in
  if (n <? 8)%nat then sum_from zero a
  else if (n <=? 128)%nat then block_sum a
  else
    match fuel with
    | O => block_sum a
    | S fuel' =>
      let n2 := (n / 2 - (n / 2) mod 8)%nat in
      (pairwise_sum fuel' (firstn n2 a) + pairwise_sum fuel' (skipn n2 a))%float
    end.

(** [a.sum()] of numpy: the pairwise sum added onto the identity 0. *)
Definition np_sum (a : list float) : float :=
  (zero + pairwise_sum (List.length a) a)%float.

(** [Series.sum()], [skipna=True]: the missing cells are filled with 0 and
    the column is summed by numpy; the sum of no cells is 0. *)
Definition nansum (xs : list float) : float := np_sum (map (fillna zero) xs).

Definition count_valid (xs : list float) : nat :=
  List.length (filter (fun x => negb (is_nan x)) xs).

(** [Series.mean()], [skipna=True]: the sum over the number of cells that
    are not NaN, or NaN when there is none. *)
Definition nanmean (xs : list float) : float :=
  match count_valid xs with
  | O => nan
  | n => (nansum xs / float_of_Z (Z.of_nat n))%float
  end.

(** The first position that holds the best value under [better]: the scan
    of [argmax] and [argmin], run below on columns whose missing cells
    have been filled (a NaN cell would be passed over). *)
Fixpoint arg_best (better : float -> float -> bool) (xs : list float) (i : nat)
    (best : option (nat * float)) : option (nat * float) :=
  match xs with
  | [] => best
  | x :: r =>
    let best' :=
      if is_nan x then best
      else match best with
           | None => Some (i, x)
           | Some (_, y) => if better x y then Some (i, x) else best
           end in
    arg_best better r (S i) best'
  end.

(** [Series.idxmax()] on the default index, [skipna=True]: a [ValueError]
    when no cell has a value; otherwise the missing cells are filled with
    -inf and the first position of the maximum of the filled column is
    taken. *)
Definition idxmax (xs : list float) : result nat :=
  if forallb is_nan xs then Raise ValueError_empty
  else
    match arg_best (fun x y => (y <? x)%float) (map (fillna neg_infinity) xs) 0%nat None with
    | Some (i, _) => Ok i
    | None => Raise ValueError_empty
    end.

(** [Series.idxmin()]: the same with +inf and the minimum. *)
Definition idxmin (xs : list float) : result nat :=
  if forallb is_nan xs then Raise ValueError_empty
  else
    match arg_best (fun x y => (x <? y)%float) (map (fillna infinity) xs) 0%nat None with
    | Some (i, _) => Ok i
    | None => Raise ValueError_empty
    end.

(** ** The script *)

Definition col_month : pystr := Eval vm_compute in u "월".
Definition col_sales : pystr := Eval vm_compute in u "매출액".
Definition col_prev : pystr := Eval vm_compute in u "전년동월".
Definition col_growth : pystr := Eval vm_compute in u "증감률".
Definition col_diff : pystr := Eval vm_compute in u "전년대비_증감액".

Definition COLUMN_MAP : list (pystr * pystr) := Eval vm_compute in
  [ (u "월", col_month); (u "month", col_month); (u "Month", col_month);
    (u "매출액", col_sales); (u "매출", col_sales); (u "sales", col_sales);
    (u "Sales", col_sales);
    (u "전년동월", col_prev); (u "전년", col_prev); (u "prev", col_prev);
    (u "전년_동월", col_prev);
    (u "증감률", col_growth); (u "증감(%)", col_growth); (u "성장률", col_growth);
    (u "growth", col_growth) ].

(** [d.get(key, default)] *)
Fixpoint dict_get (d : list (pystr * pystr)) (key default : pystr) : pystr :=
  match d with
  | [] => default
  | (k, v) :: r => if pystr_eqb k key then v else dict_get r key default
  end.

(** The new label of the column labelled [c]: lines 35-36. *)
Definition new_label (c : pystr) : pystr :=
  let key := strip c in dict_get COLUMN_MAP key key.

(** [df.rename(columns=cols).copy()] with the [cols] of lines 33-36. *)
Definition rename_columns (df : DataFrame) : DataFrame :=
  map (fun hs => (new_label (fst hs), snd hs)) df.

Definition NUMERIC_COLUMNS : list pystr := [col_sales; col_prev; col_growth].

(** The right-hand side of lines 41-46: the method chain on one column. *)
Definition coerce_series (s : series) : result series :=
  s1 <- str_method (remove_char (chr ",")) (astype_str s) ;;
  s2 <- str_method (remove_char (chr " ")) s1 ;;
  astype_float (replace_empty s2).

(** The body of the loop of lines 39-46 for one column.  On a repeated
    label [out[col]] is a DataFrame, which has no [.str]. *)
Definition coerce_column (out : DataFrame) (col : pystr) : result DataFrame :=
  match select out col with
  | Missing => Ok out
  | Many => Raise AttributeError_str
  | One s => s3 <- coerce_series s ;; Ok (set_column out col s3)
  end.

(** Lines 48-49: the month column as stripped text. *)
Definition strip_month (out : DataFrame) : result DataFrame :=
  match select out col_month with
  | Missing => Ok out
  | Many => Raise AttributeError_str
  | One s =>
    s1 <- str_method strip (astype_str s) ;;
    Ok (set_column out col_month s1)
  end.

Definition normalize_columns (df : DataFrame) : result DataFrame :=
  let out := rename_columns df in
  out <- foldM coerce_column NUMERIC_COLUMNS out ;;
  strip_month out.

Definition MUST : list pystr := [col_month; col_sales; col_prev; col_growth].

Definition missing_columns (df : DataFrame) : list pystr :=
  filter (fun c => negb (str_in c (columns df))) MUST.

Definition MISSING_PREFIX : pystr := Eval vm_compute in u "필수 컬럼이 없습니다: ".
Definition COMMA_SPACE : pystr := Eval vm_compute in u ", ".

Definition missing_message (missing : list pystr) : pystr :=
  MISSING_PREFIX ++ join COMMA_SPACE missing.

(** [require_columns]: [Some msg] is [st.error(msg)] followed by
    [st.stop()], [None] is the return. *)
Definition require_columns (df : DataFrame) : option pystr :=
  match missing_columns df with
  | [] => None
  | missing => Some (missing_message missing)
  end.

(** [bool(x)] for a float: any value but the two zeros. *)
Definition truthy (x : float) : bool := negb (x =? zero)%float.

(** The figures, by the data they are built from. *)
Record Indicator := {
  ind_value : float;
  ind_reference : float;
  ind_growth : float            (* the percentage of the title *)
}.

Definition make_indicator (total last_year_total : float) : Indicator :=
  let growth :=
    if truthy last_year_total
    then ((total - last_year_total) / last_year_total * 100)%float
    else zero in
  {| ind_value := total; ind_reference := last_year_total; ind_growth := growth |}.

Record Lines := {
  ln_x : list pystr;
  ln_sales : list float;
  ln_prev : list float
}.

Definition line_sales (df : DataFrame) : result Lines :=
  m <- get_series df col_month ;; x <- str_values m ;;
  s <- get_series df col_sales ;; y1 <- float_values s ;;
  p <- get_series df col_prev ;; y2 <- float_values p ;;
  Ok {| ln_x := x; ln_sales := y1; ln_prev := y2 |}.

Inductive color := Blue | Red | Highlight | Plain.

Record Bars := {
  bar_x : list pystr;
  bar_y : list float;
  bar_colors : list color
}.

Definition bar_growth (df : DataFrame) : result Bars :=
  g <- get_series df col_growth ;; y <- float_values g ;;
  let colors := map (fun v => if (zero <=? v)%float then Blue else Red) y in
  m <- get_series df col_month ;; x <- str_values m ;;
  Ok {| bar_x := x; bar_y := y; bar_colors := colors |}.

(** [tmp.head(3)] and [tmp.tail(3)] *)
Definition head3 {A} (l : list A) : list A := firstn 3 l.
Definition tail3 {A} (l : list A) : list A := skipn (List.length l - 3) l.

Record HBars := {
  hb_diff : list float;         (* x: the differences, ascending *)
  hb_month : list pystr;        (* y: the months in that order *)
  hb_top3 : list pystr;         (* the set [top3] *)
  hb_bottom3 : list pystr;      (* the set [bottom3] *)
  hb_colors : list color
}.

(** [a - b] on two float columns, row by row. *)
Definition sub_series (a b : list float) : list float :=
  map (fun xy => (fst xy - snd xy)%float) (combine a b).

(** [df.assign(c=s)]: [df[c] = s] on a copy.  Every column labelled [c]
    is replaced; without one the column is appended. *)
Definition assign (df : DataFrame) (c : pystr) (s : series) : DataFrame :=
  if str_in c (columns df)
  then map (fun hs => if pystr_eqb (fst hs) c then (fst hs, s) else hs) df
  else df ++ [(c, s)].

Definition hbar_diff (df : DataFrame) : result HBars :=
  s <- get_series df col_sales ;; sales <- float_values s ;;
  p <- get_series df col_prev ;; prev <- float_values p ;;
  let diff := sub_series sales prev in
  tmp <- sort_values col_diff (assign df col_diff (Float64 diff)) ;;
  m <- get_series tmp col_month ;; tmp_month <- str_values m ;;
  x <- get_series tmp col_diff ;; tmp_diff <- float_values x ;;
  let top3 := tail3 tmp_month in
  let bottom3 := head3 tmp_month in
  let colors :=
    map (fun mo => if str_in mo top3 || str_in mo bottom3 then Highlight else Plain)
        tmp_month in
  Ok {| hb_diff := tmp_diff; hb_month := tmp_month; hb_top3 := top3;
        hb_bottom3 := bottom3; hb_colors := colors |}.

Record Dashboard := {
  table : DataFrame;            (* the normalised, sorted table *)
  total_sales : float;
  last_year_sales : float;
  avg_sales : float;
  max_idx : nat;
  min_idx : nat;
  growth_pct : float;
  fig_indicator : Indicator;
  fig_sales : Lines;
  fig_growth : Bars;
  fig_diff : HBars
}.

(** How a run of the script ends. *)
Inductive outcome :=
| Rendered (d : Dashboard)      (* metrics and the four charts are drawn *)
| Stopped (msg : pystr)         (* [st.error(msg)] and [st.stop()] *)
| Uncaught (e : exn).           (* an exception leaves the script *)

(** Lines 133-176 on the validated table. *)
Definition render (df0 : DataFrame) : result Dashboard :=
  df <- sort_values col_month df0 ;;
  s <- get_series df col_sales ;; sales <- float_values s ;;
  p <- get_series df col_prev ;; prev <- float_values p ;;
  let total_sales := nansum sales in
  let last_year_sales := nansum prev in
  let avg_sales := nanmean sales in
  max_idx <- idxmax sales ;;
  min_idx <- idxmin sales ;;
  let growth_pct :=
    if truthy last_year_sales
    then ((total_sales - last_year_sales) / last_year_sales * 100)%float
    else zero in
  let fig_indicator := make_indicator total_sales last_year_sales in
  fig_sales <- line_sales df ;;
  fig_growth <- bar_growth df ;;
  fig_diff <- hbar_diff df ;;
  Ok {| table := df; total_sales := total_sales; last_year_sales := last_year_sales;
        avg_sales := avg_sales; max_idx := max_idx; min_idx := min_idx;
        growth_pct := growth_pct; fig_indicator := fig_indicator;
        fig_sales := fig_sales; fig_growth := fig_growth; fig_diff := fig_diff |}.

(** Lines 129-176: the script from the table [pd.read_csv] returned. *)
Definition dashboard (df : DataFrame) : outcome :=
  match normalize_columns df with
  | Raise e => Uncaught e
  | Ok df1 =>
    match require_columns df1 with
    | Some msg => Stopped msg
    | None =>
      match render df1 with
      | Ok d => Rendered d
      | Raise e => Uncaught e
      end
    end
  end.

(** * Specifications *)

(** The vocabulary in which the properties below are stated. *)

(** An integer that orders the floats as [<] does: zeros at 0, a finite
    number by its exponent and then its mantissa, the infinities beyond. *)
Definition SFkey (x : spec_float) : Z :=
  match x with
  | S754_nan => 0
  | S754_zero _ => 0
  | S754_infinity s => cond_Zopp s (4096 * 9007199254740992)
  | S754_finite s m e => cond_Zopp s ((e + 1075) * 9007199254740992 + Z.pos m)
  end.

Definition fkey (x : float) : Z := SFkey (Prim2SF x).

(** Equal as numbers: the same float, or equal under [==] (the two zeros). *)
Definition feq (x y : float) : Prop := x = y \/ (x =? y)%float = true.

Definition SFzero (x : spec_float) : Prop := exists s, x = S754_zero s.






(** [best] is the first position of [pre] with the largest key. *)
Definition best_of (key : float -> Z) (pre : list float)
    (best : option (nat * float)) : Prop :=
  match best with
  | None => Forall (fun x => is_nan x = true) pre
  | Some (j, y) =>
    nth_error pre j = Some y /\ is_nan y = false /\
    (forall k x, nth_error pre k = Some x -> is_nan x = false -> key x <= key y) /\
    (forall k x, (k < j)%nat -> nth_error pre k = Some x -> is_nan x = false ->
                 key x < key y)
  end.

(** Row [i] holds the largest sales value, and no earlier row does. *)
Definition first_max (xs : list float) (i : nat) : Prop :=
  exists v, nth_error xs i = Some v /\ is_nan v = false /\
    (forall k x, nth_error xs k = Some x -> is_nan x = false -> (x <=? v)%float = true) /\
    (forall k x, (k < i)%nat -> nth_error xs k = Some x -> is_nan x = false ->
                 (x <? v)%float = true).

Definition first_min (xs : list float) (i : nat) : Prop :=
  exists v, nth_error xs i = Some v /\ is_nan v = false /\
    (forall k x, nth_error xs k = Some x -> is_nan x = false -> (v <=? x)%float = true) /\
    (forall k x, (k < i)%nat -> nth_error xs k = Some x -> is_nan x = false ->
                 (v <? x)%float = true).

(** The largest value is told apart from a missing cell: no cell is
    missing, or some value is above -inf. *)
Definition max_told_apart (xs : list float) : Prop :=
  Forall (fun x => is_nan x = false) xs \/
  exists x, In x xs /\ is_nan x = false /\ (neg_infinity <? x)%float = true.

(** The smallest value likewise: no cell is missing, or some value is
    below +inf. *)
Definition min_told_apart (xs : list float) : Prop :=
  Forall (fun x => is_nan x = false) xs \/
  exists x, In x xs /\ is_nan x = false /\ (x <? infinity)%float = true.

(** No white space at the head. *)
Definition no_lead (s : pystr) : Prop :=
  match s with
  | c :: _ => is_space c = false
  | [] => True
  end.

(** The keyed positions ascend. *)
Definition key_le {A} (leb : A -> A -> bool) (a b : A * nat) : Prop :=
  leb (fst a) (fst b) = true.

Definition KEYS : list pystr := map fst COLUMN_MAP.

Definition matching (df : DataFrame) (c : pystr) : DataFrame :=
  filter (fun hs => pystr_eqb (fst hs) c) df.

(** The string form of each cell: [astype(str)] element by element. *)
Definition cell_texts (s : series) : list pystr :=
  match s with
  | Object xs => map str_of_obj xs
  | Float64 xs => map str_of_float xs
  | Int64 xs => map str_of_int xs
  | Bool xs => map (fun b : bool => if b then u "True" else u "False") xs
  end.

(** The text that is parsed: the cell without commas and spaces. *)
Definition clean (text : pystr) : pystr :=
  remove_char (chr " ") (remove_char (chr ",") text).

(** Coercion of one cell, as the specification words it: strip commas and
    spaces, an empty rest is missing, otherwise parse a float. *)
Definition coerce_cell (text : pystr) : result float :=
  match clean text with
  | [] => Ok nan
  | t =>
    match float_of_str t with
    | Some x => Ok x
    | None => Raise (ValueError_float t)
    end
  end.

(** [repr] of [y] is read back as [y] by the coercion. *)
Definition reads_back (y : float) : bool :=
  match coerce_cell (str_of_float y) with
  | Ok z => PrimFloat.Leibniz.eqb z y
  | Raise _ => false
  end.

(** What [normalize_columns] establishes: labels are fixed points of the
    renaming, numeric columns are float columns, months are stripped text. *)
Definition normal (out : DataFrame) : Prop :=
  Forall (fun c => new_label c = c) (columns out) /\
  (forall c, In c NUMERIC_COLUMNS ->
     select out c = Missing \/ exists ys, select out c = One (Float64 ys)) /\
  (select out col_month = Missing \/
   exists ts, select out col_month = One (Object (map OStr ts)) /\
              Forall (fun t => strip t = t) ts).

(** [s] is [l] without some of its elements, in the order of [l]. *)
Inductive subseq {A : Type} : list A -> list A -> Prop :=
| subseq_nil : subseq [] []
| subseq_keep x s l : subseq s l -> subseq (x :: s) (x :: l)
| subseq_skip x s l : subseq s l -> subseq s (x :: l).

(** The names one after the other, each but the first after a comma and
    a space. *)
Definition listed (names : list pystr) : pystr :=
  match names with
  | [] => []
  | n :: rest => n ++ flat_map (fun m => chr "," :: chr " " :: m) rest
  end.

(** A numeric column of [out] has a cell that does not coerce, with the
    exception [e] this cell raises. *)
Definition bad_cell (cols : list pystr) (out : DataFrame) (e : exn) : Prop :=
  exists c s text,
    In c cols /\ select out c = One s /\ In text (cell_texts s) /\
    coerce_cell text = Raise e.

Definition permute_rows (idx : list nat) (df : DataFrame) : DataFrame :=
  map (fun hs => (fst hs, take_series idx (snd hs))) df.

(** The dashboard a run rendered. *)
Definition rendered (o : outcome) : option Dashboard :=
  match o with
  | Rendered d => Some d
  | _ => None
  end.

(** How many rows have a larger (smaller) difference than [v]. *)
Definition count_above (xs : list float) (v : float) : nat :=
  List.length (filter (fun x => (v <? x)%float) xs).

Definition count_below (xs : list float) (v : float) : nat :=
  List.length (filter (fun x => (x <? v)%float) xs).

(** The values are pairwise different under [==]. *)
Fixpoint all_distinct (xs : list float) : bool :=
  match xs with
  | [] => true
  | x :: r => forallb (fun y => negb (x =? y)%float) r && all_distinct r
  end.

Definition all_valid (xs : list float) : bool :=
  forallb (fun x => negb (is_nan x)) xs.

(** ** Example tables *)

Definition sample_table : DataFrame := Eval vm_compute in
  [ (u " Month ", Object [OStr (u "2023-01"); OStr (u "2023-03 "); OStr (u "2023-02")]);
    (u "sales", Object [OStr (u "1,234 "); OStr (u "2,000"); OStr (u " ")]);
    (u "prev", Int64 [1000; 1500; 1200]);
    (u "growth", Float64 [23.5; 33.25; nan]%float);
    (u " note ", Object [OStr (u "a"); OFloat nan; OStr (u "c")]) ].

Definition sample_normal : DataFrame := Eval vm_compute in
  [ (col_month, Object [OStr (u "2023-01"); OStr (u "2023-03"); OStr (u "2023-02")]);
    (col_sales, Float64 [1234; 2000; nan]%float);
    (col_prev, Float64 [1000; 1500; 1200]%float);
    (col_growth, Float64 [23.5; 33.25; nan]%float);
    (u "note", Object [OStr (u "a"); OFloat nan; OStr (u "c")]) ].

Definition bad_table : DataFrame := Eval vm_compute in
  [ (u "month", Object [OStr (u "2023-01"); OStr (u "2023-02")]);
    (u "sales", Object [OStr (u "1,200"); OStr (u "a,b c")]);
    (u "prev", Int64 [1000; 1100]);
    (u "growth", Float64 [20; 10]%float) ].

Definition no_growth_table : DataFrame := Eval vm_compute in
  [ (u "month", Object [OStr (u "2023-01"); OStr (u "2023-02")]);
    (u "sales", Int64 [1200; 1300]);
    (u "prev", Int64 [1000; 1100]) ].

(** Neither the prior-year column nor the growth column. *)
Definition two_missing_table : DataFrame := Eval vm_compute in
  [ (u " Month ", Object [OStr (u "2023-01"); OStr (u "2023-02")]);
    (u "매출", Object [OStr (u "1,200"); OStr (u "1,300")]);
    (u "note", Object [OStr (u "a"); OStr (u "b")]) ].

Definition zero_prior_table : DataFrame := Eval vm_compute in
  [ (u "month", Object [OStr (u "2023-02"); OStr (u "2023-01")]);
    (u "sales", Int64 [1200; 1300]);
    (u "prev", Object [OFloat nan; OStr (u " ")]);
    (u "growth", Float64 [0; 0]%float) ].

Definition tie_table : DataFrame := Eval vm_compute in
  [ (u "month", Object [OStr (u "2023-03"); OStr (u "2023-01"); OStr (u "2023-02");
                        OStr (u "2023-04")]);
    (u "sales", Int64 [300; 100; 300; 100]);
    (u "prev", Int64 [250; 90; 310; 100]);
    (u "growth", Float64 [20; 11.5; -3.25; 0]%float) ].



Definition six_table : DataFrame := Eval vm_compute in
  [ (col_month, Object (map OStr [u "2023-01"; u "2023-02"; u "2023-03"; u "2023-04";
                                  u "2023-05"; u "2023-06"]));
    (col_sales, Float64 [110; 95; 130; 100; 90; 160]%float);
    (col_prev, Float64 [100; 100; 100; 100; 100; 100]%float);
    (col_growth, Float64 [10; -5; 30; 0; -10; 60]%float) ].

(** Six rows, the first and the last with the same month label. *)
Definition repeated_month_table : DataFrame := Eval vm_compute in
  [ (u "month", Object (map OStr [u "2023-01"; u "2023-02"; u "2023-03"; u "2023-04";
                                  u "2023-05"; u "2023-01"]));
    (u "sales", Int64 [101; 102; 103; 104; 105; 106]);
    (u "prev", Int64 [100; 100; 100; 100; 100; 100]);
    (u "growth", Float64 [1; 2; 3; 4; 5; 6]%float) ].

(** Six rows with different months, the first without a sales figure. *)
Definition missing_sale_table : DataFrame := Eval vm_compute in
  [ (u "month", Object (map OStr [u "2023-01"; u "2023-02"; u "2023-03"; u "2023-04";
                                  u "2023-05"; u "2023-06"]));
    (u "sales", Float64 [nan; 101; 102; 103; 104; 105]%float);
    (u "prev", Int64 [100; 100; 100; 100; 100; 100]);
    (u "growth", Float64 [0; 1; 2; 3; 4; 5]%float) ].

(** The first sales cell is missing, the others hold -inf. *)
Definition missing_first_table : DataFrame := Eval vm_compute in
  [ (u "month", Object (map OStr [u "2023-01"; u "2023-02"; u "2023-03"]));
    (u "sales", Float64 [nan; neg_infinity; neg_infinity]);
    (u "prev", Int64 [1000; 1100; 1200]);
    (u "growth", Float64 [nan; -100; -100]%float) ].

(** The float a decimal literal denotes. *)
Definition decimal (s : string) : float :=
  match float_of_str (u s) with
  | Some x => x
  | None => nan
  end.


(** ** Vocabulary of the further properties *)

(** The number of rows of each column. *)
Definition sizes (df : DataFrame) : list nat := map (fun hs => size (snd hs)) df.

(** Every column has [n] rows, as in any DataFrame pandas builds. *)
Definition rectangular (n : nat) (df : DataFrame) : Prop :=
  Forall (fun k => k = n) (sizes df).

(** No cell of the column is missing. *)
Definition complete (s : series) : Prop :=
  match s with
  | Object xs => Forall (fun o => exists t, o = OStr t) xs
  | Float64 xs => Forall (fun x => is_nan x = false) xs
  | Int64 _ => True
  | Bool _ => True
  end.

(** One cell of a column, whatever its dtype. *)
Inductive cell :=
| CObj (o : pyobj)
| CFloat (x : float)
| CInt (z : Z)
| CBool (b : bool).

Definition cell_at (s : series) (i : nat) : option cell :=
  match s with
  | Object xs => option_map CObj (nth_error xs i)
  | Float64 xs => option_map CFloat (nth_error xs i)
  | Int64 xs => option_map CInt (nth_error xs i)
  | Bool xs => option_map CBool (nth_error xs i)
  end.

(** Row [i] of a table: its cell in every column. *)
Definition row_at (df : DataFrame) (i : nat) : list (option cell) :=
  map (fun hs => cell_at (snd hs) i) df.

Definition is_highlight (c : color) : bool :=
  match c with
  | Highlight => true
  | _ => false
  end.



Definition int_month_table : DataFrame := Eval vm_compute in
  [ (u "month", Int64 [202302; 202301]);
    (u "sales", Int64 [1200; 1300]);
    (u "prev", Int64 [1000; 1100]);
    (u "growth", Float64 [20; 18.25]%float) ].

(** Two headers that are synonyms of the same canonical column. *)
Definition two_sales_table : DataFrame := Eval vm_compute in
  [ (u "month", Object [OStr (u "2023-01")]);
    (u "sales", Int64 [1200]);
    (u "Sales", Int64 [1300]);
    (u "prev", Int64 [1000]);
    (u "growth", Float64 [20]%float) ].

(** All four columns, no row. *)
Definition empty_table : DataFrame := Eval vm_compute in
  [ (u "month", Object []); (u "sales", Object []); (u "prev", Object []);
    (u "growth", Object []) ].

Definition eight_table : DataFrame := Eval vm_compute in
  [ (col_month, Object (map OStr [u "2023-01"; u "2023-02"; u "2023-03"; u "2023-04";
                                  u "2023-05"; u "2023-06"; u "2023-07"; u "2023-08"]));
    (col_sales, Float64 [110; 95; 130; 100; 90; 160; nan; 100]%float);
    (col_prev, Float64 [100; 100; 100; 100; 100; 100; 100; 100]%float);
    (col_growth, Float64 [10; -5; 30; 0; -10; 60; nan; 0]%float) ].

(** The two totals are the same. *)
Definition flat_table : DataFrame := Eval vm_compute in
  [ (u "month", Object [OStr (u "2023-01"); OStr (u "2023-02")]);
    (u "sales", Int64 [100; 120]);
    (u "prev", Int64 [120; 100]);
    (u "growth", Float64 [-16.5; 20]%float) ].

(** * Properties *)

(** ** The order of binary64 *)

Lemma digits2_pos_size m : digits2_pos m = Pos.size m.
Proof. induction m; simpl; congruence. Qed.

Lemma valid_finite_bounds s m e :
  valid_binary (S754_finite s m e) = true ->
  0 < Z.pos m < 9007199254740992 /\ -1074 <= e <= 971.
Proof.
  unfold SpecFloat.valid_binary, bounded, canonical_mantissa, fexp, SpecFloat.emin.
  rewrite Bool.andb_true_iff, Z.eqb_eq, Z.leb_le, digits2_pos_size.
  change prec with 53. change emax with 1024.
  intros [Hc He].
  assert (Hd : Z.pos (Pos.size m) <= 53) by lia.
  assert (Hm : Z.pos m < 2 ^ Z.pos (Pos.size m)).
  { rewrite <- Pos2Z.inj_pow. apply Pos2Z.pos_lt_pos, Pos.size_gt. }
  assert (Hp : 2 ^ Z.pos (Pos.size m) <= 2 ^ 53) by (apply Z.pow_le_mono_r; lia).
  change (2 ^ 53) with 9007199254740992 in Hp.
  lia.
Qed.

Lemma SFcompare_key x y :
  valid_binary x = true -> valid_binary y = true ->
  x <> S754_nan -> y <> S754_nan ->
  SFcompare x y = Some (SFkey x ?= SFkey y).
Proof.
  intros Vx Vy Nx Ny.
  destruct x as [sx| sx| |sx mx ex], y as [sy| sy| |sy my ey]; try congruence;
    try (apply valid_finite_bounds in Vx); try (apply valid_finite_bounds in Vy);
    unfold SFcompare, SFkey, cond_Zopp;
    repeat match goal with b : bool |- _ => destruct b end;
    try reflexivity;
    f_equal; symmetry;
    try (apply Z.compare_lt_iff; lia); try (apply Z.compare_gt_iff; lia).
  - destruct (Z.compare_spec ex ey) as [E|E|E].
    + subst. rewrite Pos.compare_cont_spec.
      rewrite Z.compare_opp, Z.add_compare_mono_l.
      change (Z.pos my ?= Z.pos mx) with (my ?= mx)%positive.
      rewrite (Pos.compare_antisym mx my).
      destruct (mx ?= my)%positive; reflexivity.
    + apply Z.compare_gt_iff; lia.
    + apply Z.compare_lt_iff; lia.
  - destruct (Z.compare_spec ex ey) as [E|E|E].
    + subst. rewrite Pos.compare_cont_spec, Z.add_compare_mono_l.
      change (Z.pos mx ?= Z.pos my) with (mx ?= my)%positive.
      destruct (mx ?= my)%positive; reflexivity.
    + apply Z.compare_lt_iff; lia.
    + apply Z.compare_gt_iff; lia.
Qed.

Lemma is_nan_spec x : is_nan x = true <-> Prim2SF x = S754_nan.
Proof.
  unfold is_nan. rewrite eqb_spec. unfold SFeqb.
  destruct (Prim2SF x) as [s|s| |s m e] eqn:E; simpl.
  - split; [discriminate | discriminate].
  - destruct s; split; discriminate.
  - split; reflexivity.
  - rewrite Z.compare_refl, Pos.compare_cont_refl.
    destruct s; simpl; split; discriminate.
Qed.

Lemma not_nan_spec x : is_nan x = false <-> Prim2SF x <> S754_nan.
Proof.
  rewrite <- is_nan_spec. destruct (is_nan x); split; congruence.
Qed.

Lemma compare_key x y :
  is_nan x = false -> is_nan y = false ->
  SFcompare (Prim2SF x) (Prim2SF y) = Some (fkey x ?= fkey y).
Proof.
  intros Hx Hy. apply SFcompare_key; try apply Prim2SF_valid; now apply not_nan_spec.
Qed.

Lemma ltb_key x y :
  is_nan x = false -> is_nan y = false -> (x <? y)%float = (fkey x <? fkey y).
Proof.
  intros Hx Hy. rewrite ltb_spec. unfold SFltb. rewrite (compare_key x y Hx Hy).
  unfold Z.ltb. destruct (fkey x ?= fkey y); reflexivity.
Qed.

Lemma leb_key x y :
  is_nan x = false -> is_nan y = false -> (x <=? y)%float = (fkey x <=? fkey y).
Proof.
  intros Hx Hy. rewrite leb_spec. unfold SFleb. rewrite (compare_key x y Hx Hy).
  unfold Z.leb. destruct (fkey x ?= fkey y); reflexivity.
Qed.

Lemma eqb_key x y :
  is_nan x = false -> is_nan y = false -> (x =? y)%float = (fkey x =? fkey y).
Proof.
  intros Hx Hy. rewrite eqb_spec. unfold SFeqb. rewrite (compare_key x y Hx Hy).
  destruct (Z.compare_spec (fkey x) (fkey y)) as [E|E|E]; symmetry.
  - now apply Z.eqb_eq.
  - apply Z.eqb_neq; lia.
  - apply Z.eqb_neq; lia.
Qed.

Lemma ltb_nan_l x y : is_nan x = true -> (x <? y)%float = false.
Proof.
  intros H. apply is_nan_spec in H. rewrite ltb_spec, H. reflexivity.
Qed.

Lemma ltb_nan_r x y : is_nan y = true -> (x <? y)%float = false.
Proof.
  intros H. apply is_nan_spec in H. rewrite ltb_spec, H.
  unfold SFltb, SFcompare. destruct (Prim2SF x); reflexivity.
Qed.

Lemma eqb_nan_l x y : is_nan x = true -> (x =? y)%float = false.
Proof.
  intros H. apply is_nan_spec in H. rewrite eqb_spec, H. reflexivity.
Qed.

Lemma eqb_nan_r x y : is_nan y = true -> (x =? y)%float = false.
Proof.
  intros H. apply is_nan_spec in H. rewrite eqb_spec, H.
  unfold SFeqb, SFcompare. destruct (Prim2SF x); reflexivity.
Qed.

(** ** Sums that differ by a zero *)

Lemma eqb_zeros x y :
  SFzero (Prim2SF x) -> SFzero (Prim2SF y) -> (x =? y)%float = true.
Proof.
  intros [s Hx] [t Hy]. rewrite eqb_spec, Hx, Hy. reflexivity.
Qed.

Lemma eqb_true_cases x y :
  (x =? y)%float = true -> x = y \/ (SFzero (Prim2SF x) /\ SFzero (Prim2SF y)).
Proof.
  rewrite eqb_spec. unfold SFeqb, SFcompare.
  destruct (Prim2SF x) as [s|s| |s m e] eqn:Ex, (Prim2SF y) as [t|t| |t n f] eqn:Ey;
    repeat match goal with b : bool |- _ => destruct b end;
    try discriminate; intros H;
    try (left; apply Prim2SF_inj; congruence);
    try (right; split; eexists; reflexivity);
    left; apply Prim2SF_inj; rewrite Ex, Ey;
    destruct (Z.compare_spec e f) as [E|E|E]; try discriminate; subst;
    rewrite Pos.compare_cont_spec in H; simpl in H;
    destruct (Pos.compare_spec m n) as [E|E|E]; try discriminate; subst; reflexivity.
Qed.

Lemma feq_cases x y :
  feq x y <-> x = y \/ (SFzero (Prim2SF x) /\ SFzero (Prim2SF y)).
Proof.
  split.
  - intros [H|H]; [now left | now apply eqb_true_cases].
  - intros [H|[H1 H2]]; [now left | right; now apply eqb_zeros].
Qed.

Lemma feq_refl x : feq x x.
Proof. now left. Qed.






(** ** Numbers that are rounded to themselves *)

Lemma iter_pos_nat {A} (f : A -> A) p : forall x,
  iter_pos f p x = Nat.iter (Pos.to_nat p) f x.
Proof.
  induction p as [p IH|p IH|]; intros x; cbn [iter_pos].
  - rewrite !IH, Pos2Nat.inj_xI. cbn [Nat.mul].
    rewrite Nat.add_0_r, Nat.iter_succ_r, Nat.iter_add. reflexivity.
  - rewrite !IH, Pos2Nat.inj_xO. cbn [Nat.mul].
    rewrite Nat.add_0_r, Nat.iter_add. reflexivity.
  - reflexivity.
Qed.

Lemma pos_iter_nat {A} (f : A -> A) p x : Pos.iter f x p = Nat.iter (Pos.to_nat p) f x.
Proof. rewrite Pos2Nat.inj_iter. reflexivity. Qed.

Lemma shl_nat_value n m : Z.pos (Nat.iter n xO m) = Z.pos m * 2 ^ Z.of_nat n.
Proof.
  induction n as [|n IH].
  - cbn. lia.
  - rewrite Nat.iter_succ, Pos2Z.inj_xO, IH, Nat2Z.inj_succ, Z.pow_succ_r by lia. lia.
Qed.

Lemma shl_nat_digits n m :
  Z.pos (digits2_pos (Nat.iter n xO m)) = Z.pos (digits2_pos m) + Z.of_nat n.
Proof.
  induction n as [|n IH].
  - cbn. lia.
  - rewrite Nat.iter_succ. cbn [digits2_pos]. rewrite Pos2Z.inj_succ, IH. lia.
Qed.

Lemma shr_nat_exact n : forall m,
  Nat.iter n shr_1 {| shr_m := Z.pos (Nat.iter n xO m); shr_r := false; shr_s := false |} =
  {| shr_m := Z.pos m; shr_r := false; shr_s := false |}.
Proof.
  induction n as [|n IH]; intros m; [reflexivity|].
  rewrite Nat.iter_succ_r. rewrite (Nat.iter_succ n). cbn [shr_1 orb]. apply IH.
Qed.

(** A canonical mantissa and exponent are returned as they are. *)
Lemma binary_round_aux_canonical s m e :
  bounded prec emax m e = true ->
  binary_round_aux prec emax s (Z.pos m) e loc_Exact = S754_finite s m e.
Proof.
  unfold bounded, canonical_mantissa. intros B. apply andb_true_iff in B.
  destruct B as [C L]. apply Z.eqb_eq in C.
  unfold binary_round_aux, shr_fexp. cbn [Zdigits2 shr_record_of_loc].
  rewrite C, Z.sub_diag. cbn [shr shr_m loc_of_shr_record round_nearest_even Zdigits2].
  rewrite C, Z.sub_diag. cbn [shr shr_m]. now rewrite L.
Qed.

Lemma binary_round_shifted s m e n :
  bounded prec emax m e = true ->
  binary_round prec emax s (Nat.iter n xO m) (e - Z.of_nat n) = S754_finite s m e.
Proof.
  intros B. pose proof B as B'. unfold bounded, canonical_mantissa in B'.
  apply andb_true_iff in B'. destruct B' as [C L]. apply Z.eqb_eq in C.
  destruct n as [|n].
  { cbn [Nat.iter nat_rect Z.of_nat]. rewrite Z.sub_0_r.
    unfold binary_round, shl_align. rewrite C, Z.sub_diag.
    now apply binary_round_aux_canonical. }
  unfold binary_round, shl_align.
  rewrite shl_nat_digits.
  replace (Z.pos (digits2_pos m) + Z.of_nat (S n) + (e - Z.of_nat (S n)))
    with (Z.pos (digits2_pos m) + e) by lia.
  rewrite C.
  replace (e - (e - Z.of_nat (S n))) with (Z.of_nat (S n)) by lia.
  cbn [Z.of_nat].
  unfold binary_round_aux, shr_fexp. cbn [Zdigits2 shr_record_of_loc].
  rewrite shl_nat_digits.
  replace (Z.pos (digits2_pos m) + Z.of_nat (S n) + (e - Z.pos (Pos.of_succ_nat n)))
    with (Z.pos (digits2_pos m) + e) by lia.
  rewrite C.
  replace (e - (e - Z.pos (Pos.of_succ_nat n))) with (Z.pos (Pos.of_succ_nat n)) by lia.
  cbn [shr]. rewrite iter_pos_nat, SuccNat2Pos.id_succ, shr_nat_exact.
  cbn [shr_m loc_of_shr_record round_nearest_even Zdigits2].
  replace (e - Z.pos (Pos.of_succ_nat n) + Z.pos (Pos.of_succ_nat n)) with e by lia.
  rewrite C, Z.sub_diag. cbn [shr shr_m]. now rewrite L.
Qed.

Lemma binary_round_unshifted s M e n :
  bounded prec emax (Nat.iter n xO M) e = true ->
  binary_round prec emax s M (e + Z.of_nat n) = S754_finite s (Nat.iter n xO M) e.
Proof.
  intros B. pose proof B as B'. unfold bounded, canonical_mantissa in B'.
  apply andb_true_iff in B'. destruct B' as [C L]. apply Z.eqb_eq in C.
  rewrite shl_nat_digits in C.
  destruct n as [|n].
  { cbn [Nat.iter nat_rect Z.of_nat] in *. rewrite Z.add_0_r in *.
    unfold binary_round, shl_align. rewrite C, Z.sub_diag.
    now apply binary_round_aux_canonical. }
  unfold binary_round, shl_align.
  replace (Z.pos (digits2_pos M) + (e + Z.of_nat (S n)))
    with (Z.pos (digits2_pos M) + Z.of_nat (S n) + e) by lia.
  rewrite C.
  replace (e - (e + Z.of_nat (S n))) with (Z.neg (Pos.of_succ_nat n)) by lia.
  rewrite pos_iter_nat, SuccNat2Pos.id_succ.
  now apply binary_round_aux_canonical.
Qed.

(** The value [z * 2^E] is the float [(s, m, e)]: rounding returns it. *)
Lemma binary_normalize_exact z E s m e :
  bounded prec emax m e = true ->
  (E <= e /\ z = cond_Zopp s (Z.pos m) * 2 ^ (e - E)) \/
  (e <= E /\ z * 2 ^ (E - e) = cond_Zopp s (Z.pos m)) ->
  binary_normalize prec emax z E false = S754_finite s m e.
Proof.
  intros B [[L H]|[L H]].
  - assert (Hz : z = cond_Zopp s (Z.pos (Nat.iter (Z.to_nat (e - E)) xO m))).
    { rewrite shl_nat_value, Z2Nat.id by lia. destruct s; cbn [cond_Zopp] in *; lia. }
    replace E with (e - Z.of_nat (Z.to_nat (e - E))) by lia.
    rewrite Hz. destruct s; cbn [cond_Zopp Z.opp binary_normalize];
      now apply binary_round_shifted.
  - destruct z as [|M|M].
    + exfalso. destruct s; cbn in H; lia.
    + assert (s = false) by (destruct s; auto; cbn [cond_Zopp] in H; lia). subst s.
      cbn [cond_Zopp] in H.
      assert (Hm : m = Nat.iter (Z.to_nat (E - e)) xO M).
      { apply Pos2Z.inj. rewrite shl_nat_value, Z2Nat.id by lia. lia. }
      rewrite Hm in *. cbn [binary_normalize].
      replace E with (e + Z.of_nat (Z.to_nat (E - e))) at 1 by lia.
      now apply binary_round_unshifted.
    + assert (s = true) by (destruct s; auto; cbn [cond_Zopp] in H; lia). subst s.
      cbn [cond_Zopp] in H.
      assert (Hm : m = Nat.iter (Z.to_nat (E - e)) xO M).
      { apply Pos2Z.inj. rewrite shl_nat_value, Z2Nat.id by lia. lia. }
      rewrite Hm in *. cbn [binary_normalize].
      replace E with (e + Z.of_nat (Z.to_nat (E - e))) at 1 by lia.
      now apply binary_round_unshifted.
Qed.

(** ** Reductions *)





Lemma sum_from_zeros a :
  Forall (fun x => x = zero) a -> sum_from zero a = zero.
Proof.
  unfold sum_from. induction 1 as [|x a -> _ IH]; simpl; auto.
Qed.

Lemma add_lanes_zeros_le n : forall a r,
  (List.length a <= n)%nat ->
  Forall (fun x => x = zero) r -> Forall (fun x => x = zero) a ->
  Forall (fun x => x = zero) (fst (add_lanes r a)) /\
  Forall (fun x => x = zero) (snd (add_lanes r a)).
Proof.
  induction n as [|n IH]; intros a r L Hr Ha;
    destruct a as [|a0 [|a1 [|a2 [|a3 [|a4 [|a5 [|a6 [|a7 rest]]]]]]]];
    try (cbn [add_lanes fst snd]; split; assumption);
    try (simpl in L; lia).
  cbn [add_lanes]. apply IH.
  - simpl in L. lia.
  - apply Forall_forall. intros y Hy. apply in_map_iff in Hy.
    destruct Hy as [[u v] [<- Hp]]. cbn [fst snd].
    pose proof (in_combine_l _ _ _ _ Hp) as Hu. pose proof (in_combine_r _ _ _ _ Hp) as Hv.
    rewrite Forall_forall in Hr. rewrite (Hr u Hu).
    assert (Hv' : v = zero).
    { rewrite Forall_forall in Ha. apply Ha. cbn [In] in Hv |- *. tauto. }
    rewrite Hv'. reflexivity.
  - repeat match goal with H : Forall _ (_ :: _) |- _ => inversion H; subst; clear H end.
    assumption.
Qed.

Lemma add_tree_zeros r : Forall (fun x => x = zero) r -> add_tree r = zero.
Proof.
  intros H. unfold add_tree.
  destruct r as [|r0 [|r1 [|r2 [|r3 [|r4 [|r5 [|r6 [|r7 [|r8 r]]]]]]]]]; try reflexivity.
  repeat match goal with H : Forall _ (_ :: _) |- _ => inversion H; subst; clear H end.
  reflexivity.
Qed.

Lemma Forall_firstn_skipn {A} (P : A -> Prop) n a :
  Forall P a -> Forall P (firstn n a) /\ Forall P (skipn n a).
Proof.
  intros H. rewrite <- (firstn_skipn n a) in H. now apply Forall_app in H.
Qed.

Lemma block_sum_zeros a : Forall (fun x => x = zero) a -> block_sum a = zero.
Proof.
  intros H. unfold block_sum.
  destruct (Forall_firstn_skipn _ 8 a H) as [H1 H2].
  destruct (add_lanes_zeros_le _ (skipn 8 a) (firstn 8 a) (le_n _) H1 H2) as [Z1 Z2].
  destruct (add_lanes (firstn 8 a) (skipn 8 a)) as [r rest]. cbn [fst snd] in *.
  rewrite (add_tree_zeros r Z1). now apply sum_from_zeros.
Qed.

Lemma pairwise_sum_zeros fuel : forall a,
  Forall (fun x => x = zero) a -> pairwise_sum fuel a = zero.
Proof.
  induction fuel as [|fuel IH]; intros a H; cbn [pairwise_sum].
  - destruct (List.length a <? 8)%nat; [now apply sum_from_zeros|].
    destruct (List.length a <=? 128)%nat; now apply block_sum_zeros.
  - destruct (List.length a <? 8)%nat; [now apply sum_from_zeros|].
    destruct (List.length a <=? 128)%nat; [now apply block_sum_zeros|].
    destruct (Forall_firstn_skipn _ (List.length a / 2 - (List.length a / 2) mod 8) a H)
      as [H1 H2].
    rewrite !IH by assumption. reflexivity.
Qed.

Lemma fillna_valid v x : is_nan v = false -> is_nan (fillna v x) = false.
Proof. intros H. unfold fillna. destruct (is_nan x) eqn:E; auto. Qed.

Lemma fillna_present v x : is_nan x = false -> fillna v x = x.
Proof. intros H. unfold fillna. now rewrite H. Qed.

(** *** Sums of integers *)

























Lemma nansum_all_missing xs :
  Forall (fun x => is_nan x = true) xs -> nansum xs = zero.
Proof.
  intros H. unfold nansum, np_sum. rewrite pairwise_sum_zeros; [reflexivity|].
  apply Forall_map. eapply Forall_impl; [|exact H].
  intros x Hx. unfold fillna. now rewrite Hx.
Qed.


Lemma nth_error_snoc {A} (pre : list A) x k z :
  nth_error (pre ++ [x]) k = Some z ->
  ((k < List.length pre)%nat /\ nth_error pre k = Some z) \/
  (k = List.length pre /\ z = x).
Proof.
  intros H. destruct (Nat.lt_ge_cases k (List.length pre)) as [L|L].
  - left. rewrite nth_error_app1 in H by auto. auto.
  - right. rewrite nth_error_app2 in H by auto.
    destruct (k - List.length pre)%nat as [|n] eqn:E; simpl in H.
    + inversion H. split; [lia | reflexivity].
    + destruct n; discriminate.
Qed.

Section ArgBest.
Variable better : float -> float -> bool.
Variable key : float -> Z.
Hypothesis better_key :
  forall x y, is_nan x = false -> is_nan y = false -> better x y = (key y <? key x).

(** One step of the scan keeps [best_of]. *)
Lemma best_of_step pre best x :
  best_of key pre best ->
  best_of key (pre ++ [x])
    (if is_nan x then best
     else match best with
          | None => Some (List.length pre, x)
          | Some (_, y) => if better x y then Some (List.length pre, x) else best
          end).
Proof.
  intros H. destruct (is_nan x) eqn:Nx.
  - destruct best as [[j y]|]; simpl in *.
    + destruct H as (Hj & Ny & Hmax & Hfirst).
      assert (Hlt : (j < List.length pre)%nat) by (apply nth_error_Some; congruence).
      split; [rewrite nth_error_app1; auto|]. split; [exact Ny|]. split.
      * intros k z Hk Nz.
        destruct (nth_error_snoc _ _ _ _ Hk) as [[_ Hk']|[_ ->]]; [eauto|congruence].
      * intros k z Hkj Hk Nz.
        destruct (nth_error_snoc _ _ _ _ Hk) as [[_ Hk']|[-> _]]; [eauto|lia].
    + apply Forall_app. split; auto.
  - destruct best as [[j y]|]; simpl in *.
    + destruct H as (Hj & Ny & Hmax & Hfirst).
      assert (Hlt : (j < List.length pre)%nat) by (apply nth_error_Some; congruence).
      rewrite (better_key x y Nx Ny).
      destruct (Z.ltb_spec (key y) (key x)) as [L|L]; simpl.
      * split; [rewrite nth_error_app2, Nat.sub_diag by lia; reflexivity|].
        split; [exact Nx|]. split.
        -- intros k z Hk Nz.
           destruct (nth_error_snoc _ _ _ _ Hk) as [[_ Hk']|[_ ->]]; [|lia].
           specialize (Hmax k z Hk' Nz). lia.
        -- intros k z Hkj Hk Nz.
           destruct (nth_error_snoc _ _ _ _ Hk) as [[_ Hk']|[-> _]]; [|lia].
           specialize (Hmax k z Hk' Nz). lia.
      * split; [rewrite nth_error_app1; auto|]. split; [exact Ny|]. split.
        -- intros k z Hk Nz.
           destruct (nth_error_snoc _ _ _ _ Hk) as [[_ Hk']|[_ ->]]; [eauto|lia].
        -- intros k z Hkj Hk Nz.
           destruct (nth_error_snoc _ _ _ _ Hk) as [[_ Hk']|[-> _]]; [eauto|lia].
    + assert (Hnan : forall k z, nth_error pre k = Some z -> is_nan z = false -> False).
      { intros k z Hk Nz. apply nth_error_In in Hk. rewrite Forall_forall in H.
        apply H in Hk. congruence. }
      split; [rewrite nth_error_app2, Nat.sub_diag by lia; reflexivity|].
      split; [exact Nx|]. split.
      * intros k z Hk Nz.
        destruct (nth_error_snoc _ _ _ _ Hk) as [[_ Hk']|[_ ->]]; [|lia].
        exfalso; eauto.
      * intros k z Hkj Hk Nz.
        destruct (nth_error_snoc _ _ _ _ Hk) as [[_ Hk']|[-> _]]; [|lia].
        exfalso; eauto.
Qed.

Lemma arg_best_inv xs : forall pre best,
  best_of key pre best ->
  best_of key (pre ++ xs) (arg_best better xs (List.length pre) best).
Proof.
  induction xs as [|x xs IH]; intros pre best H; simpl.
  - now rewrite app_nil_r.
  - replace (pre ++ x :: xs) with ((pre ++ [x]) ++ xs) by (now rewrite <- app_assoc).
    replace (S (List.length pre)) with (List.length (pre ++ [x]))
      by (rewrite length_app; simpl; lia).
    apply IH. now apply best_of_step.
Qed.

Lemma arg_best_spec xs :
  best_of key xs (arg_best better xs 0%nat None).
Proof.
  apply (arg_best_inv xs [] None). constructor.
Qed.
End ArgBest.

Lemma forallb_nan xs :
  forallb is_nan xs = false <-> exists x, In x xs /\ is_nan x = false.
Proof.
  induction xs as [|x xs IH]; simpl.
  - split; [discriminate|]. intros [x [[] _]].
  - rewrite andb_false_iff, IH. split.
    + intros [H|[y [Hy Ny]]]; eauto.
    + intros [y [[->|Hy] Ny]]; eauto.
Qed.

(** What the scan of the filled column returns: the first position of its
    largest key. *)
Lemma scan_filled better key v xs i y :
  (forall x y, is_nan x = false -> is_nan y = false -> better x y = (key y <? key x)) ->
  is_nan v = false ->
  arg_best better (map (fillna v) xs) 0%nat None = Some (i, y) ->
  nth_error (map (fillna v) xs) i = Some y /\
  (forall k z, nth_error (map (fillna v) xs) k = Some z -> key z <= key y) /\
  (forall k z, (k < i)%nat -> nth_error (map (fillna v) xs) k = Some z -> key z < key y).
Proof.
  intros K V H.
  pose proof (arg_best_spec better key K (map (fillna v) xs)) as B.
  rewrite H in B. destruct B as (Hj & _ & Hmax & Hfirst).
  assert (N : forall k z, nth_error (map (fillna v) xs) k = Some z -> is_nan z = false).
  { intros k z Hk. apply nth_error_In, in_map_iff in Hk.
    destruct Hk as [x [<- _]]. now apply fillna_valid. }
  repeat split; eauto.
Qed.

Lemma idxmax_first xs i : idxmax xs = Ok i -> max_told_apart xs -> first_max xs i.
Proof.
  unfold idxmax. intros H T.
  destruct (forallb is_nan xs) eqn:A; [discriminate|].
  destruct (arg_best _ (map (fillna neg_infinity) xs) 0%nat None) as [[j y]|] eqn:B;
    [|discriminate].
  inversion H; subst j; clear H.
  destruct (scan_filled _ fkey neg_infinity xs i y
              (fun x y Hx Hy => ltb_key y x Hy Hx) eq_refl B) as (Hi & Hmax & Hfirst).
  rewrite nth_error_map in Hi.
  destruct (nth_error xs i) as [v|] eqn:Ev; [|discriminate].
  cbn [option_map] in Hi. inversion Hi as [Hy]; clear Hi.
  assert (P : forall k x, nth_error xs k = Some x -> is_nan x = false ->
              nth_error (map (fillna neg_infinity) xs) k = Some x).
  { intros k x Hk Nx. rewrite nth_error_map, Hk. cbn [option_map].
    now rewrite fillna_present. }
  assert (Nv : is_nan v = false).
  { destruct (is_nan v) eqn:Nv; auto. exfalso.
    unfold fillna in Hy. rewrite Nv in Hy. subst y.
    destruct T as [F|(x & Hx & Nx & Lx)].
    - rewrite Forall_forall in F. apply nth_error_In in Ev. apply F in Ev. congruence.
    - apply In_nth_error in Hx. destruct Hx as [k Hk].
      pose proof (Hmax k x (P k x Hk Nx)) as L.
      rewrite ltb_key in Lx by auto. apply Z.ltb_lt in Lx. lia. }
  rewrite fillna_present in Hy by exact Nv. subst y.
  exists v. repeat split; auto.
  - intros k x Hk Nx. rewrite leb_key by auto. apply Z.leb_le. eauto.
  - intros k x Hki Hk Nx. rewrite ltb_key by auto. apply Z.ltb_lt. eauto.
Qed.

Lemma idxmin_first xs i : idxmin xs = Ok i -> min_told_apart xs -> first_min xs i.
Proof.
  unfold idxmin. intros H T.
  destruct (forallb is_nan xs) eqn:A; [discriminate|].
  destruct (arg_best _ (map (fillna infinity) xs) 0%nat None) as [[j y]|] eqn:B;
    [|discriminate].
  inversion H; subst j; clear H.
  assert (K : forall x y, is_nan x = false -> is_nan y = false ->
              (x <? y)%float = (- fkey y <? - fkey x)).
  { intros x y0 Hx Hy. rewrite ltb_key by auto.
    destruct (Z.ltb_spec (fkey x) (fkey y0)), (Z.ltb_spec (- fkey y0) (- fkey x));
      auto; lia. }
  destruct (scan_filled _ (fun x => - fkey x) infinity xs i y K eq_refl B)
    as (Hi & Hmax & Hfirst).
  rewrite nth_error_map in Hi.
  destruct (nth_error xs i) as [v|] eqn:Ev; [|discriminate].
  cbn [option_map] in Hi. inversion Hi as [Hy]; clear Hi.
  assert (P : forall k x, nth_error xs k = Some x -> is_nan x = false ->
              nth_error (map (fillna infinity) xs) k = Some x).
  { intros k x Hk Nx. rewrite nth_error_map, Hk. cbn [option_map].
    now rewrite fillna_present. }
  assert (Nv : is_nan v = false).
  { destruct (is_nan v) eqn:Nv; auto. exfalso.
    unfold fillna in Hy. rewrite Nv in Hy. subst y.
    destruct T as [F|(x & Hx & Nx & Lx)].
    - rewrite Forall_forall in F. apply nth_error_In in Ev. apply F in Ev. congruence.
    - apply In_nth_error in Hx. destruct Hx as [k Hk].
      pose proof (Hmax k x (P k x Hk Nx)) as L. cbv beta in L.
      rewrite ltb_key in Lx by auto. apply Z.ltb_lt in Lx. lia. }
  rewrite fillna_present in Hy by exact Nv. subst y.
  exists v. repeat split; auto.
  - intros k x Hk Nx. rewrite leb_key by auto. apply Z.leb_le.
    specialize (Hmax k x (P k x Hk Nx)). cbv beta in Hmax. lia.
  - intros k x Hki Hk Nx. rewrite ltb_key by auto. apply Z.ltb_lt.
    specialize (Hfirst k x Hki (P k x Hk Nx)). cbv beta in Hfirst. lia.
Qed.

(** The selected row is a row of the column. *)
Lemma idx_bound xs i :
  idxmax xs = Ok i \/ idxmin xs = Ok i -> (i < List.length xs)%nat.
Proof.
  assert (K : forall x y, is_nan x = false -> is_nan y = false ->
              (x <? y)%float = (- fkey y <? - fkey x)).
  { intros x y0 Hx Hy. rewrite ltb_key by auto.
    destruct (Z.ltb_spec (fkey x) (fkey y0)), (Z.ltb_spec (- fkey y0) (- fkey x));
      auto; lia. }
  unfold idxmax, idxmin. destruct (forallb is_nan xs); [intros [H|H]; discriminate|].
  intros [H|H].
  - destruct (arg_best _ (map (fillna neg_infinity) xs) 0%nat None) as [[j y]|] eqn:B;
      [|discriminate].
    inversion H; subst j.
    destruct (scan_filled _ fkey neg_infinity xs i y
                (fun x y Hx Hy => ltb_key y x Hy Hx) eq_refl B) as (Hi & _).
    rewrite <- (length_map (fillna neg_infinity)). apply nth_error_Some. congruence.
  - destruct (arg_best _ (map (fillna infinity) xs) 0%nat None) as [[j y]|] eqn:B;
      [|discriminate].
    inversion H; subst j.
    destruct (scan_filled _ (fun x => - fkey x) infinity xs i y K eq_refl B) as (Hi & _).
    rewrite <- (length_map (fillna infinity)). apply nth_error_Some. congruence.
Qed.

(** The selection is made whenever some cell holds a value. *)
Lemma arg_best_some better xs : forall i best,
  (best <> None \/ exists x, In x xs /\ is_nan x = false) ->
  arg_best better xs i best <> None.
Proof.
  induction xs as [|x xs IH]; intros i best H; simpl.
  - destruct H as [H|[x [[] _]]]. exact H.
  - apply IH. destruct H as [H|[y [[->|Hy] Ny]]].
    + left. destruct (is_nan x); auto. destruct best as [[j z]|]; [|discriminate].
      destruct (better x z); discriminate.
    + left. rewrite Ny. destruct best as [[j z]|]; [|discriminate].
      destruct (better y z); discriminate.
    + right. eauto.
Qed.

Lemma idx_ok xs :
  (exists x, In x xs /\ is_nan x = false) ->
  (exists i, idxmax xs = Ok i) /\ (exists j, idxmin xs = Ok j).
Proof.
  intros Hx. pose proof (proj2 (forallb_nan xs) Hx) as A.
  assert (F : forall v, is_nan v = false ->
              exists y, In y (map (fillna v) xs) /\ is_nan y = false).
  { intros v V. destruct Hx as (x & I & _). exists (fillna v x).
    split; [now apply in_map|now apply fillna_valid]. }
  unfold idxmax, idxmin. rewrite A. split.
  - pose proof (arg_best_some (fun x y => (y <? x)%float) _ 0%nat None
                  (or_intror (F neg_infinity eq_refl))) as S.
    destruct (arg_best _ _ 0%nat None) as [[i y]|]; [eauto|congruence].
  - pose proof (arg_best_some (fun x y => (x <? y)%float) _ 0%nat None
                  (or_intror (F infinity eq_refl))) as S.
    destruct (arg_best _ _ 0%nat None) as [[i y]|]; [eauto|congruence].
Qed.

Lemma idx_ok_present xs i :
  idxmax xs = Ok i \/ idxmin xs = Ok i -> exists x, In x xs /\ is_nan x = false.
Proof.
  unfold idxmax, idxmin. intros H. apply forallb_nan.
  destruct (forallb is_nan xs); [destruct H; discriminate|reflexivity].
Qed.

(** ** Strings *)

Lemma pystr_eqb_eq a b : pystr_eqb a b = true <-> a = b.
Proof.
  unfold pystr_eqb. destruct (list_eq_dec N.eq_dec a b); split; congruence.
Qed.

Lemma pystr_eqb_refl a : pystr_eqb a a = true.
Proof. now apply pystr_eqb_eq. Qed.

Lemma pystr_eqb_neq a b : pystr_eqb a b = false <-> a <> b.
Proof.
  unfold pystr_eqb. destruct (list_eq_dec N.eq_dec a b); split; congruence.
Qed.

Lemma str_in_In s l : str_in s l = true <-> In s l.
Proof.
  unfold str_in. rewrite existsb_exists. split.
  - intros [x [Hx E]]. apply pystr_eqb_eq in E. now subst.
  - intros H. exists s. split; [exact H | apply pystr_eqb_refl].
Qed.

Lemma lstrip_no_lead s : no_lead (lstrip s).
Proof.
  induction s as [|c s IH]; simpl; auto.
  destruct (is_space c) eqn:E; simpl; auto.
Qed.

Lemma lstrip_fixed s : no_lead s -> lstrip s = s.
Proof.
  destruct s as [|c s]; simpl; auto. intros ->. reflexivity.
Qed.

Lemma lstrip_suffix s : exists sp, s = sp ++ lstrip s.
Proof.
  induction s as [|c s [sp IH]]; simpl.
  - exists []. reflexivity.
  - destruct (is_space c).
    + exists (c :: sp). simpl. congruence.
    + exists []. reflexivity.
Qed.

Lemma no_lead_rev_lstrip_rev a : no_lead a -> no_lead (rev (lstrip (rev a))).
Proof.
  intros Ha. destruct (lstrip_suffix (rev a)) as [sp E].
  assert (Ea : a = rev (lstrip (rev a)) ++ rev sp).
  { rewrite <- rev_app_distr, <- E, rev_involutive. reflexivity. }
  destruct (rev (lstrip (rev a))) as [|c r]; simpl; auto.
  rewrite Ea in Ha. exact Ha.
Qed.

(** [strip] is idempotent. *)
Lemma strip_strip s : strip (strip s) = strip s.
Proof.
  unfold strip, rstrip.
  rewrite (lstrip_fixed (rev (lstrip (rev (lstrip s)))))
    by apply no_lead_rev_lstrip_rev, lstrip_no_lead.
  rewrite rev_involutive.
  rewrite (lstrip_fixed (lstrip (rev (lstrip s)))) by apply lstrip_no_lead.
  reflexivity.
Qed.

Lemma str_leb_total a : forall b, str_leb a b = false -> str_leb b a = true.
Proof.
  induction a as [|x a IH]; intros [|y b]; simpl; try congruence.
  destruct (N.ltb_spec x y), (N.ltb_spec y x); try congruence; try lia.
  apply IH.
Qed.

Lemma str_leb_refl a : str_leb a a = true.
Proof.
  induction a as [|x a IH]; simpl; auto. rewrite N.ltb_irrefl. exact IH.
Qed.

Lemma str_leb_trans a : forall b c,
  str_leb a b = true -> str_leb b c = true -> str_leb a c = true.
Proof.
  induction a as [|x a IH]; intros [|y b] [|z c]; simpl; try congruence.
  destruct (N.ltb_spec x y), (N.ltb_spec y x), (N.ltb_spec y z), (N.ltb_spec z y),
           (N.ltb_spec x z), (N.ltb_spec z x); try congruence; try lia.
  apply IH.
Qed.

Lemma str_leb_antisym a : forall b,
  str_leb a b = true -> str_leb b a = true -> a = b.
Proof.
  induction a as [|x a IH]; intros [|y b]; simpl; try congruence.
  destruct (N.ltb_spec x y), (N.ltb_spec y x); try congruence; try lia.
  intros H1 H2. f_equal; [lia | now apply IH].
Qed.

(** ** Sorting *)

Lemma Permutation_flat_map {A B} (f : A -> list B) l l' :
  Permutation l l' -> Permutation (flat_map f l) (flat_map f l').
Proof.
  induction 1; simpl.
  - constructor.
  - now apply Permutation_app_head.
  - rewrite !app_assoc. apply Permutation_app_tail, Permutation_app_comm.
  - eapply Permutation_trans; eauto.
Qed.

Lemma Permutation_filter {A} (f : A -> bool) l l' :
  Permutation l l' -> Permutation (filter f l) (filter f l').
Proof.
  induction 1; simpl.
  - constructor.
  - destruct (f x); auto.
  - destruct (f x), (f y); auto. constructor.
  - eapply Permutation_trans; eauto.
Qed.

Lemma filter_partition_perm {A} (f : A -> bool) l :
  Permutation (filter f l ++ filter (fun x => negb (f x)) l) l.
Proof.
  induction l as [|x l IH]; simpl; auto.
  destruct (f x); simpl.
  - now constructor.
  - eapply Permutation_trans; [apply Permutation_sym, Permutation_middle|].
    now constructor.
Qed.

Lemma take_seq {A} (xs : list A) : take (seq 0 (List.length xs)) xs = xs.
Proof.
  unfold take.
  assert (G : forall pre, flat_map
            (fun i => match nth_error (pre ++ xs) i with Some x => [x] | None => [] end)
            (seq (List.length pre) (List.length xs)) = xs).
  { induction xs as [|x xs IH]; intros pre; simpl; auto.
    rewrite nth_error_app2, Nat.sub_diag by lia. simpl. f_equal.
    specialize (IH (pre ++ [x])). rewrite <- app_assoc, length_app in IH. simpl in IH.
    rewrite Nat.add_1_r in IH. exact IH. }
  exact (G []).
Qed.

Lemma take_perm {A} idx (xs : list A) :
  Permutation idx (seq 0 (List.length xs)) -> Permutation (take idx xs) xs.
Proof.
  intros H. rewrite <- (take_seq xs) at 2. now apply Permutation_flat_map.
Qed.

Lemma take_pairs {A} (xs : list A) (ps : list (A * nat)) :
  (forall p, In p ps -> nth_error xs (snd p) = Some (fst p)) ->
  take (map snd ps) xs = map fst ps.
Proof.
  induction ps as [|p ps IH]; intros H; simpl; auto.
  rewrite (H p) by now left. simpl. f_equal. apply IH. intros q Hq. apply H. now right.
Qed.

Lemma take_length {A} idx (xs : list A) :
  Forall (fun i => (i < List.length xs)%nat) idx ->
  List.length (take idx xs) = List.length idx.
Proof.
  induction 1 as [|i idx Hi _ IH]; simpl; auto.
  apply nth_error_Some in Hi. destruct (nth_error xs i); [|congruence].
  simpl. now rewrite IH.
Qed.

Lemma take_nth {A} idx (xs : list A) :
  Forall (fun i => (i < List.length xs)%nat) idx ->
  forall k i, nth_error idx k = Some i -> nth_error (take idx xs) k = nth_error xs i.
Proof.
  induction 1 as [|j idx Hj _ IH]; intros k i Hk.
  - destruct k; discriminate.
  - apply nth_error_Some in Hj. simpl.
    destruct (nth_error xs j) as [x|] eqn:E; [|congruence]. simpl.
    destruct k as [|k]; simpl in *.
    + inversion Hk; subst. now rewrite E.
    + now apply IH.
Qed.

Section ArgsortFacts.
Context {A : Type}.
Variable leb : A -> A -> bool.
Variable isna : A -> bool.

Lemma insert_key_perm x l : Permutation (insert_key leb x l) (x :: l).
Proof.
  induction l as [|y l IH]; simpl; auto.
  destruct (leb (fst x) (fst y)); auto.
  eapply Permutation_trans; [apply perm_skip, IH | apply perm_swap].
Qed.

Lemma sort_keys_perm l : Permutation (sort_keys leb l) l.
Proof.
  induction l as [|x l IH]; simpl; auto.
  eapply Permutation_trans; [apply insert_key_perm | now constructor].
Qed.

Variable P : A -> Prop.
Hypothesis leb_total : forall a b, P a -> P b -> leb a b = false -> leb b a = true.

Lemma insert_key_sorted x l :
  P (fst x) -> Forall (fun y => P (fst y)) l ->
  Sorted (key_le leb) l -> Sorted (key_le leb) (insert_key leb x l).
Proof.
  intros Px Pl Hs. induction Hs as [|y l Hs IH Hd]; simpl.
  - repeat constructor.
  - inversion Pl as [|? ? Py Pl']; subst.
    destruct (leb (fst x) (fst y)) eqn:E.
    + repeat constructor; auto.
    + constructor; [now apply IH|].
      destruct l as [|z l]; simpl.
      * constructor. now apply leb_total.
      * destruct (leb (fst x) (fst z)).
        -- constructor. now apply leb_total.
        -- inversion Hd; subst. now constructor.
Qed.

Lemma sort_keys_sorted l :
  Forall (fun y => P (fst y)) l -> Sorted (key_le leb) (sort_keys leb l).
Proof.
  induction 1 as [|x l Px Pl IH]; simpl.
  - constructor.
  - apply insert_key_sorted; auto.
    eapply Permutation_Forall; [apply Permutation_sym, sort_keys_perm | exact Pl].
Qed.

Lemma combine_seq_nth (xs : list A) : forall k p,
  In p (combine xs (seq k (List.length xs))) ->
  (k <= snd p)%nat /\ nth_error xs (snd p - k) = Some (fst p).
Proof.
  induction xs as [|x xs IH]; intros k p H; simpl in H; [contradiction|].
  destruct H as [<-|H]; simpl.
  - rewrite Nat.sub_diag. auto.
  - apply IH in H. destruct H as [L E]. split; [lia|].
    replace (snd p - k)%nat with (S (snd p - S k)) by lia. exact E.
Qed.

Lemma enumerate_nth (xs : list A) (p : A * nat) :
  In p (enumerate xs) -> nth_error xs (snd p) = Some (fst p).
Proof.
  intros H. apply combine_seq_nth in H. rewrite Nat.sub_0_r in H. tauto.
Qed.

Lemma enumerate_fst (xs : list A) : map fst (enumerate xs) = xs.
Proof.
  unfold enumerate. generalize 0%nat. induction xs as [|x xs IH]; intros k; simpl; auto.
  now rewrite IH.
Qed.

Lemma enumerate_snd (xs : list A) : map snd (enumerate xs) = seq 0 (List.length xs).
Proof.
  unfold enumerate. generalize 0%nat. induction xs as [|x xs IH]; intros k; simpl; auto.
  now rewrite IH.
Qed.

Lemma argsort_perm xs : Permutation (argsort leb isna xs) (seq 0 (List.length xs)).
Proof.
  unfold argsort. rewrite <- enumerate_snd, <- map_app.
  apply Permutation_map.
  eapply Permutation_trans;
    [apply Permutation_app_tail, sort_keys_perm|].
  eapply Permutation_trans; [|apply (filter_partition_perm (fun k : A * nat => negb (isna (fst k))))].
  apply Permutation_app_head.
  erewrite filter_ext; [reflexivity|]. intros a. simpl. now rewrite negb_involutive.
Qed.

Lemma filter_all {B} (f : B -> bool) l :
  Forall (fun x => f x = true) l -> filter f l = l.
Proof.
  induction 1 as [|x l Hx _ IH]; simpl; auto. now rewrite Hx, IH.
Qed.

Lemma filter_none {B} (f : B -> bool) l :
  Forall (fun x => f x = false) l -> filter f l = [].
Proof.
  induction 1 as [|x l Hx _ IH]; simpl; auto. now rewrite Hx.
Qed.

Lemma enumerate_Forall (Q : A -> Prop) (xs : list A) :
  Forall Q xs -> Forall (fun k => Q (fst k)) (enumerate xs).
Proof.
  intros H. apply Forall_forall. intros p Hp.
  apply enumerate_nth, nth_error_In in Hp. rewrite Forall_forall in H. auto.
Qed.

(** Without missing keys the positions are those of the sorted keys. *)
Lemma argsort_valid xs :
  Forall (fun x => isna x = false) xs ->
  argsort leb isna xs = map snd (sort_keys leb (enumerate xs)).
Proof.
  intros H. unfold argsort.
  rewrite filter_all, filter_none, app_nil_r; auto.
  - apply (enumerate_Forall (fun x => isna x = false)); auto.
  - apply (enumerate_Forall (fun x => negb (isna x) = true)).
    eapply Forall_impl; [|exact H]. simpl. intros a ->. reflexivity.
Qed.

Lemma take_argsort_valid xs :
  Forall (fun x => isna x = false) xs ->
  take (argsort leb isna xs) xs = map fst (sort_keys leb (enumerate xs)).
Proof.
  intros H. rewrite argsort_valid by auto. apply take_pairs.
  intros p Hp. apply enumerate_nth.
  eapply Permutation_in; [apply sort_keys_perm | exact Hp].
Qed.

Lemma sorted_map_fst l :
  Sorted (key_le leb) l -> Sorted (fun a b => leb a b = true) (map fst l).
Proof.
  induction 1 as [|x l Hs IH Hd]; simpl; constructor; auto.
  destruct Hd; simpl; constructor; auto.
Qed.

(** The keys taken in the order of [argsort] ascend. *)
Lemma take_argsort_sorted xs :
  Forall (fun x => isna x = false) xs -> Forall P xs ->
  Sorted (fun a b => leb a b = true) (take (argsort leb isna xs) xs).
Proof.
  intros H HP. rewrite take_argsort_valid by auto.
  apply sorted_map_fst, sort_keys_sorted. now apply enumerate_Forall.
Qed.
End ArgsortFacts.

(** ** Labels *)

Lemma dict_get_default d key dflt :
  ~ In key (map fst d) -> dict_get d key dflt = dflt.
Proof.
  induction d as [|[k v] d IH]; simpl; intros H; auto.
  destruct (pystr_eqb k key) eqn:E.
  - apply pystr_eqb_eq in E. tauto.
  - apply IH. tauto.
Qed.

Lemma dict_get_found d key dflt :
  In key (map fst d) -> In (dict_get d key dflt) (map snd d).
Proof.
  induction d as [|[k v] d IH]; simpl; intros H; [contradiction|].
  destruct (pystr_eqb k key) eqn:E; auto.
  apply pystr_eqb_neq in E. right. apply IH. tauto.
Qed.

Lemma forallb_str (f : pystr -> bool) l c :
  forallb f l = true -> In c l -> f c = true.
Proof. intros H. rewrite forallb_forall in H. apply H. Qed.

Lemma column_map_values v : In v (map snd COLUMN_MAP) -> In v MUST.
Proof.
  intros H. apply str_in_In.
  apply (forallb_str (fun v => str_in v MUST) (map snd COLUMN_MAP)); auto.
Qed.

Lemma must_keys c : In c MUST -> In c KEYS.
Proof.
  intros H. apply str_in_In.
  apply (forallb_str (fun v => str_in v KEYS) MUST); auto.
Qed.

Lemma must_fixed c : In c MUST -> new_label c = c.
Proof.
  intros H. apply pystr_eqb_eq.
  apply (forallb_str (fun v => pystr_eqb (new_label v) v) MUST); auto.
Qed.

Lemma numeric_must c : In c NUMERIC_COLUMNS -> In c MUST.
Proof. unfold NUMERIC_COLUMNS, MUST. simpl. tauto. Qed.

Lemma new_label_cases c :
  (In (strip c) KEYS /\ In (new_label c) MUST) \/
  (~ In (strip c) KEYS /\ new_label c = strip c).
Proof.
  unfold new_label.
  destruct (in_dec (list_eq_dec N.eq_dec) (strip c) KEYS) as [H|H].
  - left. split; auto. now apply column_map_values, dict_get_found.
  - right. split; auto. now apply dict_get_default.
Qed.

Lemma new_label_unknown c : ~ In (strip c) KEYS -> new_label c = strip c /\ ~ In (strip c) MUST.
Proof.
  intros H. split.
  - now apply dict_get_default.
  - intros M. now apply must_keys in M.
Qed.

Lemma new_label_idem c : new_label (new_label c) = new_label c.
Proof.
  destruct (new_label_cases c) as [[_ H]|[_ H]].
  - now apply must_fixed.
  - rewrite H. unfold new_label at 1. rewrite strip_strip. exact H.
Qed.

(** ** Columns of a DataFrame *)

Lemma matching_set_other df c s c' :
  c <> c' -> matching (set_column df c s) c' = matching df c'.
Proof.
  intros N. induction df as [|[h s0] df IH]; simpl.
  - apply pystr_eqb_neq in N. now rewrite N.
  - destruct (pystr_eqb h c) eqn:E; simpl.
    + apply pystr_eqb_eq in E. subst h. apply pystr_eqb_neq in N. now rewrite N.
    + now rewrite IH.
Qed.

Lemma matching_set_same df c s :
  matching (set_column df c s) c =
  match matching df c with
  | [] => [(c, s)]
  | (h, _) :: r => (h, s) :: r
  end.
Proof.
  induction df as [|[h s0] df IH]; simpl.
  - now rewrite pystr_eqb_refl.
  - destruct (pystr_eqb h c) eqn:E; simpl; rewrite E; auto.
Qed.

Lemma select_set_other df c s c' :
  c <> c' -> select (set_column df c s) c' = select df c'.
Proof.
  intros N. unfold select. fold (matching (set_column df c s) c') (matching df c').
  now rewrite matching_set_other.
Qed.

Lemma select_set_same df c s s0 :
  select df c = One s0 -> select (set_column df c s) c = One s.
Proof.
  unfold select. fold (matching (set_column df c s) c) (matching df c).
  rewrite matching_set_same.
  destruct (matching df c) as [|[h s1] [|x r]]; try discriminate. reflexivity.
Qed.

Lemma select_set_many df c s :
  select df c = Many -> select (set_column df c s) c = Many.
Proof.
  unfold select. fold (matching (set_column df c s) c) (matching df c).
  rewrite matching_set_same.
  destruct (matching df c) as [|[h s1] [|x r]]; try discriminate. reflexivity.
Qed.

Lemma set_column_same df c s : select df c = One s -> set_column df c s = df.
Proof.
  unfold select. fold (matching df c).
  induction df as [|[h s0] df IH]; simpl; [discriminate|].
  destruct (pystr_eqb h c) eqn:E; simpl.
  - destruct (matching df c) as [|x r]; [|destruct x; discriminate].
    intros H. inversion H. reflexivity.
  - intros H. now rewrite IH.
Qed.

Lemma columns_set df c s :
  select df c <> Missing -> columns (set_column df c s) = columns df.
Proof.
  unfold select, columns. fold (matching df c).
  induction df as [|[h s0] df IH]; simpl; [congruence|].
  destruct (pystr_eqb h c) eqn:E; simpl; auto.
  intros H. now rewrite IH.
Qed.

Lemma nth_set_other df c s i h s0 :
  nth_error df i = Some (h, s0) -> h <> c ->
  nth_error (set_column df c s) i = Some (h, s0).
Proof.
  revert i. induction df as [|[h1 s1] df IH]; intros i H N; [destruct i; discriminate|].
  simpl. destruct i as [|i]; simpl in *.
  - inversion H; subst. apply pystr_eqb_neq in N. now rewrite N.
  - destruct (pystr_eqb h1 c); simpl; auto.
Qed.

Lemma select_In df c s : select df c = One s -> In (c, s) df.
Proof.
  unfold select. intros H.
  destruct (filter _ df) as [|[h s1] [|x r]] eqn:E; try discriminate.
  inversion H; subst.
  assert (I : In (h, s) (filter (fun hs => pystr_eqb (fst hs) c) df))
    by (rewrite E; now left).
  apply filter_In in I. destruct I as [I Eq]. simpl in Eq.
  apply pystr_eqb_eq in Eq. now subst.
Qed.

Lemma select_missing df c : select df c = Missing <-> ~ In c (columns df).
Proof.
  unfold select, columns. induction df as [|[h s] df IH]; simpl.
  - tauto.
  - destruct (pystr_eqb h c) eqn:E.
    + apply pystr_eqb_eq in E. subst.
      split; [|tauto]. destruct (filter _ df) as [|x r]; discriminate.
    + apply pystr_eqb_neq in E. rewrite IH. tauto.
Qed.

Lemma select_map (g : series -> series) df c :
  select (map (fun hs => (fst hs, g (snd hs))) df) c =
  match select df c with
  | One s => One (g s)
  | r => r
  end.
Proof.
  unfold select.
  assert (E : filter (fun hs => pystr_eqb (fst hs) c)
                (map (fun hs => (fst hs, g (snd hs))) df) =
              map (fun hs => (fst hs, g (snd hs)))
                (filter (fun hs => pystr_eqb (fst hs) c) df)).
  { induction df as [|[h s] df IH]; simpl; auto.
    destruct (pystr_eqb h c); simpl; now rewrite IH. }
  rewrite E. destruct (filter _ df) as [|[h s] [|x r]]; reflexivity.
Qed.

(** ** Decimal texts *)

Lemma ascii_digit_cases c :
  In c [48; 49; 50; 51; 52; 53; 54; 55; 56; 57]%N ->
  digit_val c = Some (Z.of_N (c - 48)) /\ lower c = c /\
  is_float_space c = false /\
  negb (c =? chr ",")%N = true /\ negb (c =? chr " ")%N = true /\
  c <> 105%N /\ c <> 110%N.
Proof.
  intros H.
  repeat (destruct H as [<-|H]; [vm_compute; repeat split; discriminate|]).
  destruct H.
Qed.

Lemma uint_digits_ascii d :
  Forall (fun c => In c [48; 49; 50; 51; 52; 53; 54; 55; 56; 57]%N) (uint_digits d).
Proof.
  induction d; cbn [uint_digits]; constructor; auto; cbn [In]; tauto.
Qed.

Lemma uint_digits_nonnil d : d <> Decimal.Nil -> uint_digits d <> [].
Proof. destruct d; cbn [uint_digits]; congruence. Qed.

Lemma digitpart_rest_digits s : forall acc,
  Forall (fun c => In c [48; 49; 50; 51; 52; 53; 54; 55; 56; 57]%N) s ->
  digitpart_rest s acc = (acc ++ map (fun c => Z.of_N (c - 48)) s, []).
Proof.
  induction s as [|c r IH]; intros acc F.
  - cbn [digitpart_rest map]. now rewrite app_nil_r.
  - inversion F as [|? ? Hc Hr]; subst.
    destruct (ascii_digit_cases c Hc) as (Dv & _).
    cbn [digitpart_rest map]. rewrite Dv, (IH _ Hr), <- app_assoc. reflexivity.
Qed.

Lemma digitpart_digits s :
  Forall (fun c => In c [48; 49; 50; 51; 52; 53; 54; 55; 56; 57]%N) s ->
  digitpart s = (map (fun c => Z.of_N (c - 48)) s, []).
Proof.
  intros F. destruct s as [|c r]; [reflexivity|].
  inversion F as [|? ? Hc Hr]; subst.
  destruct (ascii_digit_cases c Hc) as (Dv & _).
  cbn [digitpart map]. rewrite Dv. now rewrite digitpart_rest_digits.
Qed.

Lemma digits_value_acc d : forall acc,
  fold_left (fun a x => 10 * a + x) (map (fun c => Z.of_N (c - 48)) (uint_digits d))
    (Z.pos acc) = Z.pos (Pos.of_uint_acc d acc).
Proof.
  induction d; intros acc; cbn [uint_digits map fold_left Pos.of_uint_acc];
    try reflexivity;
    match goal with
    | |- fold_left _ _ ?a = Z.pos (Pos.of_uint_acc _ ?b) =>
      replace a with (Z.pos b) by lia
    end; apply IHd.
Qed.

Lemma digits_value_uint d :
  digits_value (map (fun c => Z.of_N (c - 48)) (uint_digits d)) = Z.of_N (Pos.of_uint d).
Proof.
  unfold digits_value.
  induction d; cbn [uint_digits map fold_left Pos.of_uint]; try reflexivity;
    try (exact IHd);
    match goal with
    | |- fold_left _ _ ?a = Z.of_N (N.pos (Pos.of_uint_acc _ ?b)) =>
      replace a with (Z.pos b) by lia
    end; apply digits_value_acc.
Qed.

Lemma nat_digits_value n :
  digits_value (map (fun c => Z.of_N (c - 48)) (uint_digits (N.to_uint n))) = Z.of_N n.
Proof.
  rewrite digits_value_uint. change (Pos.of_uint (N.to_uint n)) with (N.of_uint (N.to_uint n)).
  now rewrite DecimalN.Unsigned.of_to.
Qed.

Lemma to_uint_nonnil n : N.to_uint n <> Decimal.Nil.
Proof.
  destruct n as [|q]; cbn; [discriminate|apply DecimalPos.Unsigned.to_uint_nonnil].
Qed.

Lemma lskip_head c r : is_float_space c = false -> lskip (c :: r) = c :: r.
Proof. intros H. cbn [lskip]. now rewrite H. Qed.

Lemma lskip_plain s : Forall (fun c => is_float_space c = false) s -> lskip s = s.
Proof. intros F. destruct s; auto. inversion F; subst. now apply lskip_head. Qed.

(** [float()] of the decimal digits of [n], with or without a minus sign. *)
Lemma float_of_unsigned_digits neg n :
  float_of_unsigned neg (uint_digits (N.to_uint n)) = Some (round_decimal neg (Z.of_N n) 0).
Proof.
  pose proof (uint_digits_ascii (N.to_uint n)) as F.
  pose proof (uint_digits_nonnil _ (to_uint_nonnil n)) as NN.
  pose proof (nat_digits_value n) as V.
  pose proof (digitpart_digits _ F) as DP.
  set (s := uint_digits (N.to_uint n)) in *.
  destruct s as [|c r] eqn:Es; [congruence|].
  inversion F as [|? ? Hc Hr]; subst.
  destruct (ascii_digit_cases c Hc) as (_ & Lo & _ & _ & _ & Ni & Nn).
  unfold float_of_unsigned. cbn [map]. rewrite Lo.
  assert (E1 : pystr_eqb (c :: map lower r) (u "inf") = false).
  { apply pystr_eqb_neq. intros E. apply Ni. now inversion E. }
  assert (E2 : pystr_eqb (c :: map lower r) (u "infinity") = false).
  { apply pystr_eqb_neq. intros E. apply Ni. now inversion E. }
  assert (E3 : pystr_eqb (c :: map lower r) (u "nan") = false).
  { apply pystr_eqb_neq. intros E. apply Nn. now inversion E. }
  rewrite E1, E2, E3. cbn [orb]. rewrite DP. rewrite app_nil_r.
  cbn [map] in *. cbn [read_exponent List.length Z.of_nat]. rewrite V.
  reflexivity.
Qed.

Lemma float_of_str_plain (neg : bool) s :
  Forall (fun c => is_float_space c = false) s ->
  (forall c r, s = c :: r -> c <> 45%N /\ c <> 43%N) ->
  float_of_str ((if neg then [chr "-"] else []) ++ s) = float_of_unsigned neg s.
Proof.
  intros F S. unfold float_of_str.
  assert (F' : Forall (fun c => is_float_space c = false)
                 ((if neg then [chr "-"] else []) ++ s)).
  { apply Forall_app. split; [destruct neg; repeat constructor|exact F]. }
  rewrite (lskip_plain _ F'), (lskip_plain _ (Forall_rev F')), rev_involutive.
  destruct neg; cbn [app].
  - reflexivity.
  - destruct s as [|c r]; [reflexivity|].
    destruct (S c r eq_refl) as [A B]. cbn [read_sign].
    apply N.eqb_neq in A, B. now rewrite A, B.
Qed.

Lemma round_decimal_int neg m :
  0 <= m -> (neg = true -> m <> 0) ->
  round_decimal neg m 0 = float_of_Z (cond_Zopp neg m).
Proof.
  intros M Z0. unfold round_decimal, float_of_Z.
  destruct (Z.eqb_spec m 0) as [->|NZ].
  - destruct neg; [now destruct Z0|reflexivity].
  - cbn [Z.leb Z.compare Z.pow]. now rewrite Z.mul_1_r.
Qed.

Lemma coerce_cell_clean t :
  clean t = t -> t <> [] ->
  coerce_cell t = match float_of_str t with
                  | Some x => Ok x
                  | None => Raise (ValueError_float t)
                  end.
Proof.
  intros C NN. unfold coerce_cell. rewrite C. destruct t; [congruence|reflexivity].
Qed.

(** ** [repr] is read back *)

Lemma text_char_cases c :
  In c [48; 49; 50; 51; 52; 53; 54; 55; 56; 57; 46; 101; 43; 45]%N ->
  is_float_space c = false /\
  negb (c =? chr ",")%N = true /\ negb (c =? chr " ")%N = true.
Proof.
  intros H.
  repeat (destruct H as [<-|H]; [vm_compute; repeat split|]).
  destruct H.
Qed.

Lemma digit_text_char c :
  In c [48; 49; 50; 51; 52; 53; 54; 55; 56; 57]%N ->
  In c [48; 49; 50; 51; 52; 53; 54; 55; 56; 57; 46; 101; 43; 45]%N.
Proof. cbn [In]. tauto. Qed.

Lemma nat_digits_chars d :
  Forall (fun c => In c [48; 49; 50; 51; 52; 53; 54; 55; 56; 57; 46; 101; 43; 45]%N)
    (nat_digits d).
Proof.
  unfold nat_digits. eapply Forall_impl; [|apply uint_digits_ascii].
  exact digit_text_char.
Qed.

Lemma Forall_strip_zeros_rev (P : N -> Prop) s :
  Forall P s -> Forall P (strip_zeros_rev s).
Proof.
  induction 1 as [|c r Hc Hr IH]; cbn [strip_zeros_rev]; [constructor|].
  destruct (c =? 48)%N; [exact IH|now constructor].
Qed.

Lemma zeros_chars n :
  Forall (fun c => In c [48; 49; 50; 51; 52; 53; 54; 55; 56; 57; 46; 101; 43; 45]%N)
    (zeros n).
Proof.
  unfold zeros. induction (Z.to_nat n) as [|k IH]; cbn [repeat]; constructor; auto.
  cbn [In]. tauto.
Qed.

(** The characters of a formatted decimal: digits, the point, [e] and the
    signs. *)
Lemma format_decimal_chars d t :
  Forall (fun c => In c [48; 49; 50; 51; 52; 53; 54; 55; 56; 57; 46; 101; 43; 45]%N)
    (format_decimal d t).
Proof.
  unfold format_decimal.
  set (all := nat_digits d).
  set (ds := rev (strip_zeros_rev (rev all))).
  assert (Fds : Forall (fun c => In c [48; 49; 50; 51; 52; 53; 54; 55; 56; 57;
                                      46; 101; 43; 45]%N) ds).
  { unfold ds. apply Forall_rev, Forall_strip_zeros_rev, Forall_rev, nat_digits_chars. }
  assert (Ff : forall n, Forall (fun c => In c [48; 49; 50; 51; 52; 53; 54; 55; 56; 57;
                                      46; 101; 43; 45]%N) (firstn n ds)).
  { intros n. now apply Forall_firstn_skipn. }
  assert (Fs : forall n, Forall (fun c => In c [48; 49; 50; 51; 52; 53; 54; 55; 56; 57;
                                      46; 101; 43; 45]%N) (skipn n ds)).
  { intros n. now apply Forall_firstn_skipn. }
  clearbody ds. clearbody all.
  destruct ((Z.of_nat (List.length all) - t <=? -4) || (16 <? Z.of_nat (List.length all) - t)).
  - repeat (apply Forall_app; split); auto.
    + destruct (1 <? Z.of_nat (List.length ds)); constructor; auto. cbn [In]. tauto.
    + constructor; [cbn [In]; tauto|]. constructor; [|constructor].
      destruct (Z.of_nat (List.length all) - t - 1 <? 0); cbn [In]; tauto.
    + destruct (Z.abs (Z.of_nat (List.length all) - t - 1) <? 10).
      * constructor; [cbn [In]; tauto|apply nat_digits_chars].
      * apply nat_digits_chars.
  - destruct (Z.of_nat (List.length all) - t <=? 0).
    + repeat (apply Forall_app; split); auto; [|apply zeros_chars].
      vm_compute. repeat constructor; tauto.
    + destruct (Z.of_nat (List.length all) - t <? Z.of_nat (List.length ds)).
      * apply Forall_app; split; auto. constructor; auto. cbn [In]. tauto.
      * repeat (apply Forall_app; split); auto; [apply zeros_chars|].
        vm_compute. repeat constructor; tauto.
Qed.

Lemma clean_plain s :
  Forall (fun c => negb (c =? chr ",")%N = true /\ negb (c =? chr " ")%N = true) s ->
  clean s = s.
Proof.
  intros F. unfold clean, remove_char.
  rewrite (filter_all (fun x => negb (x =? chr ",")%N) s)
    by (eapply Forall_impl; [|exact F]; intros c H; apply H).
  apply filter_all. eapply Forall_impl; [|exact F]. intros c H; apply H.
Qed.

(** A text of such characters that [float()] reads as [x] is coerced to
    [x]. *)
Lemma coerce_cell_reads x text :
  Forall (fun c => In c [48; 49; 50; 51; 52; 53; 54; 55; 56; 57; 46; 101; 43; 45]%N) text ->
  reads_as x text = true ->
  coerce_cell text = Ok x.
Proof.
  intros F R. unfold coerce_cell.
  rewrite clean_plain
    by (eapply Forall_impl; [|exact F]; intros c Hc; now apply text_char_cases).
  unfold reads_as in R.
  destruct text as [|c r]; [vm_compute in R; discriminate|].
  destruct (float_of_str (c :: r)) as [y|]; [|discriminate].
  apply FloatAxioms.Leibniz.eqb_spec in R. now subst.
Qed.

Lemma shortest_repr_reads x sign num den n ps : forall text,
  shortest_repr ps x sign num den n = Some text ->
  reads_as x text = true /\ exists d t, text = sign ++ format_decimal d t.
Proof.
  induction ps as [|p ps IH]; intros text; cbn [shortest_repr]; [discriminate|].
  destruct (scaled_candidates num den (p - n)) as [d1 d2].
  destruct (reads_as x (sign ++ format_decimal d1 (p - n))) eqn:R1.
  - intros [= <-]. split; [exact R1|eauto].
  - destruct (reads_as x (sign ++ format_decimal d2 (p - n))) eqn:R2.
    + intros [= <-]. split; [exact R2|eauto].
    + apply IH.
Qed.

Lemma digitpart_rest_stop s : forall acc c r,
  Forall (fun c => In c [48; 49; 50; 51; 52; 53; 54; 55; 56; 57]%N) s ->
  digit_val c = None -> (c =? 95)%N = false ->
  digitpart_rest (s ++ c :: r) acc = (acc ++ map (fun c => Z.of_N (c - 48)) s, c :: r).
Proof.
  induction s as [|a s IH]; intros acc c r F Dc Uc.
  - cbn [app digitpart_rest map]. now rewrite Dc, Uc, app_nil_r.
  - inversion F as [|? ? Ha Hs]; subst.
    destruct (ascii_digit_cases a Ha) as (Dv & _).
    cbn [app digitpart_rest map]. rewrite Dv, (IH _ _ _ Hs Dc Uc), <- app_assoc.
    reflexivity.
Qed.

Lemma digitpart_stop s c r :
  Forall (fun c => In c [48; 49; 50; 51; 52; 53; 54; 55; 56; 57]%N) s ->
  digit_val c = None -> (c =? 95)%N = false ->
  digitpart (s ++ c :: r) = (map (fun c => Z.of_N (c - 48)) s, c :: r).
Proof.
  intros F Dc Uc. destruct s as [|a s].
  - cbn [app digitpart map]. now rewrite Dc.
  - inversion F as [|? ? Ha Hs]; subst.
    destruct (ascii_digit_cases a Ha) as (Dv & _).
    cbn [app digitpart map]. rewrite Dv. now rewrite digitpart_rest_stop.
Qed.

Lemma nat_digits_digits d :
  Forall (fun c => In c [48; 49; 50; 51; 52; 53; 54; 55; 56; 57]%N) (nat_digits d) /\
  nat_digits d <> [] /\
  (0 <= d -> digits_value (map (fun c => Z.of_N (c - 48)) (nat_digits d)) = d).
Proof.
  unfold nat_digits. split; [apply uint_digits_ascii|].
  split; [apply uint_digits_nonnil, to_uint_nonnil|].
  intros D. rewrite nat_digits_value. now apply Z2N.id.
Qed.

(** [float()] of digits and a negative power of ten. *)
Lemma float_of_unsigned_exp neg d t :
  0 <= d -> 0 <= t ->
  float_of_unsigned neg (nat_digits d ++ chr "e" :: chr "-" :: nat_digits t)
  = Some (round_decimal neg d (- t)).
Proof.
  intros D T.
  destruct (nat_digits_digits d) as (Fd & Nd & Vd).
  destruct (nat_digits_digits t) as (Ft & Nt & Vt).
  specialize (Vd D). specialize (Vt T).
  pose proof (digitpart_digits _ Ft) as DPt.
  pose proof (digitpart_stop (nat_digits d) (chr "e") (chr "-" :: nat_digits t) Fd
                eq_refl eq_refl) as DPd.
  set (sd := nat_digits d) in *. set (st := nat_digits t) in *.
  clearbody sd st.
  destruct sd as [|c r]; [congruence|].
  destruct st as [|c' r']; [congruence|].
  pose proof (Forall_inv Fd) as Hc.
  destruct (ascii_digit_cases c Hc) as (_ & Lo & _ & _ & _ & Ni & Nn).
  unfold float_of_unsigned.
  change (map lower ((c :: r) ++ chr "e" :: chr "-" :: c' :: r'))
    with (lower c :: map lower (r ++ chr "e" :: chr "-" :: c' :: r')).
  rewrite Lo.
  set (rest := map lower (r ++ chr "e" :: chr "-" :: c' :: r')).
  assert (E1 : pystr_eqb (c :: rest) (u "inf") = false).
  { apply pystr_eqb_neq. intros E. apply Ni. now inversion E. }
  assert (E2 : pystr_eqb (c :: rest) (u "infinity") = false).
  { apply pystr_eqb_neq. intros E. apply Ni. now inversion E. }
  assert (E3 : pystr_eqb (c :: rest) (u "nan") = false).
  { apply pystr_eqb_neq. intros E. apply Nn. now inversion E. }
  rewrite E1, E2, E3. cbn [orb]. rewrite DPd.
  change (chr "e" =? 46)%N with false. cbv iota. rewrite app_nil_r.
  cbn [map] in *.
  change (read_exponent (chr "e" :: chr "-" :: c' :: r'))
    with (match digitpart (c' :: r') with
          | ((_ :: _) as ds, []) => Some (cond_Zopp true (digits_value ds))
          | _ => None
          end).
  rewrite DPt, Vt, Vd. cbn [cond_Zopp List.length Z.of_nat].
  now rewrite Z.sub_0_r.
Qed.

Lemma exact_decimal_plain (s : bool) m e :
  Forall (fun c => In c [48; 49; 50; 51; 52; 53; 54; 55; 56; 57; 46; 101; 43; 45]%N)
    ((if s then [chr "-"] else []) ++ exact_decimal m e) /\
  (forall c r, exact_decimal m e = c :: r -> c <> 45%N /\ c <> 43%N).
Proof.
  unfold exact_decimal.
  set (d := if 0 <=? e then _ else _). set (t := Z.max 0 (- e)).
  split.
  - apply Forall_app. split.
    + destruct s; [constructor; [cbn [In]; tauto|constructor]|constructor].
    + apply Forall_app. split; [apply nat_digits_chars|].
      constructor; [cbn [In]; tauto|]. constructor; [cbn [In]; tauto|].
      apply nat_digits_chars.
  - destruct (nat_digits_digits d) as (Fd & Nd & _).
    destruct (nat_digits d) as [|a sd]; [congruence|].
    intros c r [= <- _]. inversion Fd as [|? ? Ha _]; subst.
    cbn [In] in Ha.
    repeat (destruct Ha as [<-|Ha]; [split; discriminate|]). destruct Ha.
Qed.

(** The decimal expansion in full is rounded to the number it expands. *)
Lemma round_decimal_exact s m e :
  bounded prec emax m e = true ->
  round_decimal s (if 0 <=? e then Z.pos m * 2 ^ e else Z.pos m * 5 ^ Z.max 0 (- e))
    (- Z.max 0 (- e))
  = SF2Prim (S754_finite s m e).
Proof.
  intros B.
  assert (V : valid_binary (S754_finite s m e) = true) by exact B.
  destruct (valid_finite_bounds s m e V) as (Mb & Eb).
  unfold round_decimal.
  destruct (Z.leb_spec 0 e) as [E|E].
  - rewrite Z.max_l by lia. cbn [Z.opp].
    assert (P : 0 < 2 ^ e) by (apply Z.pow_pos_nonneg; lia).
    destruct (Z.eqb_spec (Z.pos m * 2 ^ e) 0) as [Z0|_]; [nia|].
    cbn [Z.leb Z.compare Z.pow]. rewrite Z.mul_1_r.
    f_equal. apply binary_normalize_exact; [exact B|].
    left. split; [lia|]. rewrite Z.sub_0_r.
    destruct s; cbn [cond_Zopp]; lia.
  - rewrite Z.max_r by lia. rewrite Z.opp_involutive.
    set (t := - e). assert (T : 0 < t) by (unfold t; lia).
    assert (P5 : 0 < 5 ^ t) by (apply Z.pow_pos_nonneg; lia).
    assert (P2 : 0 < 2 ^ t) by (apply Z.pow_pos_nonneg; lia).
    assert (P10 : 10 ^ t = 2 ^ t * 5 ^ t) by (now rewrite <- Z.pow_mul_l).
    destruct (Z.eqb_spec (Z.pos m * 5 ^ t) 0) as [Z0|_]; [nia|].
    destruct (Z.leb_spec 0 e) as [E'|_]; [lia|].
    fold t.
    set (k := Z.max 0 (Z.log2 (10 ^ t) - Z.log2 (Z.pos m * 5 ^ t) + 64)).
    assert (K : t <= k).
    { unfold k. rewrite P10.
      pose proof (Z.log2_mul_below (2 ^ t) (5 ^ t) P2 P5) as L1.
      rewrite Z.log2_pow2 in L1 by lia.
      pose proof (Z.log2_mul_above (Z.pos m) (5 ^ t)) as L2.
      assert (Lm : Z.log2 (Z.pos m) < 53) by (apply Z.log2_lt_pow2; lia).
      lia. }
    assert (Q : Z.pos m * 5 ^ t * 2 ^ k = Z.pos m * 2 ^ (k - t) * 10 ^ t).
    { rewrite P10. replace k with ((k - t) + t) at 1 by lia.
      rewrite Z.pow_add_r by lia. ring. }
    rewrite Q. rewrite Z.div_mul, Z.mod_mul by lia.
    cbn [Z.eqb]. rewrite Z.add_0_r.
    f_equal. apply binary_normalize_exact; [exact B|].
    left. split; [lia|].
    replace (e - (- k - 1)) with ((k - t) + 1) by (unfold t; lia).
    rewrite Z.pow_add_r by lia.
    destruct s; cbn [cond_Zopp]; lia.
Qed.

Lemma leibniz_eqb_refl x : PrimFloat.Leibniz.eqb x x = true.
Proof. now apply FloatAxioms.Leibniz.eqb_spec. Qed.

(** The expansion in full is read as the number. *)
Lemma exact_decimal_reads x s m e :
  Prim2SF x = S754_finite s m e ->
  reads_as x ((if s then [chr "-"] else []) ++ exact_decimal m e) = true.
Proof.
  intros E.
  assert (B : bounded prec emax m e = true).
  { pose proof (Prim2SF_valid x) as V. now rewrite E in V. }
  destruct (exact_decimal_plain false m e) as (F & Hd). cbn [app] in F.
  unfold reads_as. rewrite float_of_str_plain.
  - unfold exact_decimal. rewrite float_of_unsigned_exp.
    + rewrite round_decimal_exact by exact B.
      rewrite <- E, SF2Prim_Prim2SF. apply leibniz_eqb_refl.
    + assert (0 < 5 ^ Z.max 0 (- e)) by (apply Z.pow_pos_nonneg; lia).
      destruct (Z.leb_spec 0 e);
        [assert (0 < 2 ^ e) by (apply Z.pow_pos_nonneg; lia)|]; nia.
    + lia.
  - eapply Forall_impl; [|exact F]. intros c Hc. now apply text_char_cases.
  - exact Hd.
Qed.

(** The text of a finite number is coerced to the number. *)
Lemma repr_finite_reads x s m e :
  Prim2SF x = S754_finite s m e ->
  coerce_cell (repr_finite x s m e) = Ok x.
Proof.
  intros E. unfold repr_finite.
  destruct (shortest_repr _ x _ _ _ _) as [text|] eqn:Sh.
  - apply shortest_repr_reads in Sh. destruct Sh as (R & d & t & ->).
    apply coerce_cell_reads; [|exact R].
    apply Forall_app. split; [|apply format_decimal_chars].
    destruct s; [constructor; [cbn [In]; tauto|constructor]|constructor].
  - apply coerce_cell_reads; [apply exact_decimal_plain|].
    now apply exact_decimal_reads.
Qed.

(** Every float is read back from its [repr]. *)
Lemma reads_back_all y : reads_back y = true.
Proof.
  unfold reads_back.
  assert (C : coerce_cell (str_of_float y) = Ok y).
  { unfold str_of_float. destruct (Prim2SF y) as [s|s| |s m e] eqn:E.
    - assert (Y : y = if s then neg_zero else zero)
        by (apply Prim2SF_inj; rewrite E; now destruct s).
      subst y. now destruct s.
    - assert (Y : y = if s then neg_infinity else infinity)
        by (apply Prim2SF_inj; rewrite E; now destruct s).
      subst y. now destruct s.
    - assert (Y : y = nan) by (apply Prim2SF_inj; now rewrite E).
      subst y. reflexivity.
    - now apply repr_finite_reads. }
  rewrite C. apply leibniz_eqb_refl.
Qed.

(** Some texts of [repr]. *)
Example repr_texts :
  map (fun s => str_of_float (decimal s))
    ["0.1"; "1e22"; "1e16"; "123456789012345678"; "5e-324"; "0.0001"; "0.00001";
     "-2.5"; "39.60000000000001"; "1234"; "1.7976931348623157e308"; "0.3"; "2e-7";
     "9007199254740993"; "-0.000123"]%string
  = map u ["0.1"; "1e+22"; "1e+16"; "1.2345678901234568e+17"; "5e-324"; "0.0001";
           "1e-05"; "-2.5"; "39.60000000000001"; "1234.0"; "1.7976931348623157e+308";
           "0.3"; "2e-07"; "9007199254740992.0"; "-0.000123"]%string.
Proof. vm_compute. reflexivity. Qed.

(** ** Coercion of the numeric columns *)

Lemma astype_str_texts s : astype_str s = Object (map OStr (cell_texts s)).
Proof.
  destruct s; simpl; now rewrite map_map.
Qed.

Lemma coerce_texts ts :
  mapM float_of_obj
    (map (fun o => match o with OStr [] => OFloat nan | _ => o end)
       (map (fun o => match o with
                      | OStr t => OStr (remove_char (chr " ") t)
                      | OFloat _ => OFloat nan
                      end)
          (map (fun o => match o with
                         | OStr t => OStr (remove_char (chr ",") t)
                         | OFloat _ => OFloat nan
                         end)
             (map OStr ts)))) = mapM coerce_cell ts.
Proof.
  induction ts as [|t ts IH]; [reflexivity|].
  cbn [map mapM]. rewrite IH. unfold coerce_cell, clean.
  destruct (remove_char (chr " ") (remove_char (chr ",") t)); reflexivity.
Qed.

Lemma coerce_series_cells s :
  coerce_series s = (ys <- mapM coerce_cell (cell_texts s) ;; Ok (Float64 ys)).
Proof.
  unfold coerce_series. rewrite astype_str_texts.
  cbn [str_method bind replace_empty astype_float].
  now rewrite coerce_texts.
Qed.

Lemma coerce_column_cells out col :
  coerce_column out col =
  match select out col with
  | Missing => Ok out
  | Many => Raise AttributeError_str
  | One s => ys <- mapM coerce_cell (cell_texts s) ;; Ok (set_column out col (Float64 ys))
  end.
Proof.
  unfold coerce_column. destruct (select out col); auto.
  rewrite coerce_series_cells. destruct (mapM coerce_cell (cell_texts s)); reflexivity.
Qed.

Lemma coerce_column_ok out col out' :
  coerce_column out col = Ok out' ->
  (select out col = Missing /\ out' = out) \/
  (exists s ys, select out col = One s /\ mapM coerce_cell (cell_texts s) = Ok ys /\
                out' = set_column out col (Float64 ys)).
Proof.
  rewrite coerce_column_cells. destruct (select out col) as [|s|]; try discriminate.
  - intros H. inversion H. auto.
  - destruct (mapM coerce_cell (cell_texts s)) as [ys|e] eqn:E; simpl; try discriminate.
    intros H. inversion H. right. eauto.
Qed.

(** A step of the loop leaves labels and the other columns alone. *)
Lemma coerce_column_keeps out col out' :
  coerce_column out col = Ok out' ->
  columns out' = columns out /\
  (forall c, c <> col -> select out' c = select out c) /\
  (select out' col = Missing \/ exists ys, select out' col = One (Float64 ys)) /\
  (forall i h s0, nth_error out i = Some (h, s0) -> h <> col ->
                  nth_error out' i = Some (h, s0)).
Proof.
  intros H. apply coerce_column_ok in H.
  destruct H as [[M ->]|(s & ys & S & _ & ->)].
  - repeat split; auto.
  - split; [apply columns_set; congruence|].
    split; [intros c N; apply select_set_other; congruence|].
    split; [right; exists ys; eapply select_set_same; eauto|].
    intros i h s0 Hn N. now apply nth_set_other.
Qed.

Lemma strip_month_ok out out' :
  strip_month out = Ok out' ->
  (select out col_month = Missing /\ out' = out) \/
  (exists s, select out col_month = One s /\
             out' = set_column out col_month (Object (map OStr (map strip (cell_texts s))))).
Proof.
  unfold strip_month. destruct (select out col_month) as [|s|]; try discriminate.
  - intros H. inversion H. auto.
  - rewrite astype_str_texts. simpl. intros H. inversion H. right. exists s.
    split; auto. now rewrite !map_map.
Qed.

Lemma strip_month_keeps out out' :
  strip_month out = Ok out' ->
  columns out' = columns out /\
  (forall c, c <> col_month -> select out' c = select out c) /\
  (select out' col_month = Missing \/
   exists ts, select out' col_month = One (Object (map OStr ts)) /\
              Forall (fun t => strip t = t) ts) /\
  (forall i h s0, nth_error out i = Some (h, s0) -> h <> col_month ->
                  nth_error out' i = Some (h, s0)).
Proof.
  intros H. apply strip_month_ok in H. destruct H as [[M ->]|(s & S & ->)].
  - repeat split; auto.
  - split; [apply columns_set; congruence|].
    split; [intros c N; apply select_set_other; congruence|].
    split.
    + right. exists (map strip (cell_texts s)). split.
      * eapply select_set_same; eauto.
      * apply Forall_forall. intros t Ht. apply in_map_iff in Ht.
        destruct Ht as [t0 [<- _]]. apply strip_strip.
    + intros i h s0 Hn N. now apply nth_set_other.
Qed.

Lemma normalize_steps df out :
  normalize_columns df = Ok out ->
  exists o1 o2 o3,
    coerce_column (rename_columns df) col_sales = Ok o1 /\
    coerce_column o1 col_prev = Ok o2 /\
    coerce_column o2 col_growth = Ok o3 /\
    strip_month o3 = Ok out.
Proof.
  unfold normalize_columns. simpl.
  destruct (coerce_column (rename_columns df) col_sales) as [o1|] eqn:E1;
    simpl; try discriminate.
  destruct (coerce_column o1 col_prev) as [o2|] eqn:E2; simpl; try discriminate.
  destruct (coerce_column o2 col_growth) as [o3|] eqn:E3; simpl; try discriminate.
  intros H. exists o1, o2, o3. auto.
Qed.

Lemma col_sales_prev : col_sales <> col_prev.
Proof. apply pystr_eqb_neq. reflexivity. Qed.
Lemma col_sales_growth : col_sales <> col_growth.
Proof. apply pystr_eqb_neq. reflexivity. Qed.
Lemma col_sales_month : col_sales <> col_month.
Proof. apply pystr_eqb_neq. reflexivity. Qed.
Lemma col_prev_growth : col_prev <> col_growth.
Proof. apply pystr_eqb_neq. reflexivity. Qed.
Lemma col_prev_month : col_prev <> col_month.
Proof. apply pystr_eqb_neq. reflexivity. Qed.
Lemma col_growth_month : col_growth <> col_month.
Proof. apply pystr_eqb_neq. reflexivity. Qed.

Create HintDb cols.
#[local] Hint Resolve col_sales_prev col_sales_growth col_sales_month
  col_prev_growth col_prev_month col_growth_month : cols.
#[local] Hint Extern 1 (_ <> _) => apply not_eq_sym : cols.

Lemma columns_rename df : columns (rename_columns df) = map new_label (columns df).
Proof.
  unfold columns, rename_columns. rewrite !map_map. reflexivity.
Qed.

Lemma normalize_normal df out : normalize_columns df = Ok out -> normal out.
Proof.
  intros H. apply normalize_steps in H.
  destruct H as (o1 & o2 & o3 & H1 & H2 & H3 & H4).
  apply coerce_column_keeps in H1. destruct H1 as (C1 & K1 & F1 & _).
  apply coerce_column_keeps in H2. destruct H2 as (C2 & K2 & F2 & _).
  apply coerce_column_keeps in H3. destruct H3 as (C3 & K3 & F3 & _).
  apply strip_month_keeps in H4. destruct H4 as (C4 & K4 & F4 & _).
  split; [|split].
  - rewrite C4, C3, C2, C1, columns_rename. apply Forall_forall.
    intros c Hc. apply in_map_iff in Hc. destruct Hc as [c0 [<- _]].
    apply new_label_idem.
  - intros c Hc. simpl in Hc. destruct Hc as [<-|[<-|[<-|[]]]].
    + rewrite K4, K3, K2; auto with cols.
    + rewrite K4, K3; auto with cols.
    + rewrite K4; auto with cols.
  - exact F4.
Qed.

Lemma rename_fixed out :
  Forall (fun c => new_label c = c) (columns out) -> rename_columns out = out.
Proof.
  unfold columns, rename_columns. induction out as [|[h s] out IH]; simpl; auto.
  intros H. inversion H; subst. simpl in *. f_equal; [congruence | auto].
Qed.

Lemma reads_back_ok y : reads_back y = true -> coerce_cell (str_of_float y) = Ok y.
Proof.
  unfold reads_back. destruct (coerce_cell (str_of_float y)) as [z|e]; [|discriminate].
  intros H. apply FloatAxioms.Leibniz.eqb_spec in H. now subst.
Qed.

Lemma mapM_reads_back ys : mapM coerce_cell (map str_of_float ys) = Ok ys.
Proof.
  induction ys as [|y ys IH]; simpl; auto.
  rewrite (reads_back_ok y (reads_back_all y)), IH. reflexivity.
Qed.

Lemma coerce_column_fixed out c :
  select out c = Missing \/ (exists ys, select out c = One (Float64 ys)) ->
  coerce_column out c = Ok out.
Proof.
  rewrite coerce_column_cells.
  intros [M|[ys S]]; [now rewrite M|]. rewrite S.
  cbn [cell_texts]. rewrite (mapM_reads_back ys). simpl.
  now rewrite (set_column_same out c (Float64 ys) S).
Qed.

Lemma map_strip_fixed ts :
  Forall (fun t => strip t = t) ts ->
  map (fun t => OStr (strip t)) ts = map OStr ts.
Proof.
  induction 1 as [|t ts Ht _ IH]; simpl; auto. now rewrite Ht, IH.
Qed.

Lemma strip_month_fixed out :
  select out col_month = Missing \/
  (exists ts, select out col_month = One (Object (map OStr ts)) /\
              Forall (fun t => strip t = t) ts) ->
  strip_month out = Ok out.
Proof.
  unfold strip_month. intros [M|(ts & S & F)]; [now rewrite M|]. rewrite S.
  rewrite astype_str_texts. cbn [cell_texts str_method bind].
  rewrite !map_map. cbn [str_of_obj].
  rewrite (map_strip_fixed ts F). cbn [bind].
  now rewrite (set_column_same out col_month _ S).
Qed.

(** ** Failure of the coercion *)

Lemma coerce_cell_raise t e :
  coerce_cell t = Raise e ->
  e = ValueError_float (clean t) /\ clean t <> [] /\ float_of_str (clean t) = None.
Proof.
  unfold coerce_cell. destruct (clean t) as [|c r] eqn:E; [discriminate|].
  destruct (float_of_str (c :: r)) eqn:F; [discriminate|].
  intros H. inversion H. repeat split; congruence.
Qed.

Lemma mapM_raise_inv {A B} (f : A -> result B) l e :
  mapM f l = Raise e -> exists x, In x l /\ f x = Raise e.
Proof.
  induction l as [|x l IH]; simpl; [discriminate|].
  destruct (f x) as [y|e0] eqn:E; simpl.
  - destruct (mapM f l) as [ys|e1]; simpl; [discriminate|].
    intros H. inversion H; subst. destruct (IH eq_refl) as [x0 [I F]]. eauto.
  - intros H. inversion H; subst. eauto.
Qed.

Lemma mapM_ok_all {A B} (f : A -> result B) l ys :
  mapM f l = Ok ys -> forall x, In x l -> exists y, f x = Ok y.
Proof.
  revert ys. induction l as [|x l IH]; simpl; intros ys H x0 I; [contradiction|].
  destruct (f x) as [y|e0] eqn:E; simpl in H; [|discriminate].
  destruct (mapM f l) as [ys'|e1]; simpl in H; [|discriminate].
  destruct I as [<-|I]; eauto.
Qed.

Lemma foldM_coerce_raise cols : forall out,
  NoDup cols ->
  (forall c, In c cols -> select out c <> Many) ->
  (exists e, bad_cell cols out e) ->
  exists e, bad_cell cols out e /\ foldM coerce_column cols out = Raise e.
Proof.
  induction cols as [|c0 rest IH]; intros out ND NM [e (c & s & text & I & S & T & R)].
  - contradiction.
  - inversion ND as [|? ? Hn ND']; subst.
    cbn [foldM]. rewrite coerce_column_cells.
    destruct (select out c0) as [|s0|] eqn:S0.
    + (* the column is absent: the defect is further on *)
      destruct I as [->|I]; [congruence|].
      destruct (IH out ND' (fun c' H => NM c' (or_intror H))) as [e' [B F]].
      { exists e, c, s, text. auto. }
      exists e'. split; [|exact F].
      destruct B as (c1 & s1 & t1 & I1 & B1). exists c1, s1, t1. split; [now right|exact B1].
    + destruct (mapM coerce_cell (cell_texts s0)) as [ys|e0] eqn:M; cbn [bind].
      * assert (Nc : c <> c0).
        { intros ->. rewrite S0 in S. inversion S; subst.
          destruct (mapM_ok_all _ _ _ M text T) as [y Hy]. congruence. }
        destruct I as [->|I]; [congruence|].
        assert (Sel : forall c', In c' rest ->
                  select (set_column out c0 (Float64 ys)) c' = select out c').
        { intros c' H. apply select_set_other. intros ->. contradiction. }
        destruct (IH (set_column out c0 (Float64 ys)) ND') as [e' [B F]].
        { intros c' H. rewrite Sel by auto. apply NM. now right. }
        { exists e, c, s, text. rewrite Sel by auto. auto. }
        exists e'. split; [|exact F].
        destruct B as (c1 & s1 & t1 & I1 & S1 & B1). exists c1, s1, t1.
        rewrite Sel in S1 by auto. split; [now right|auto].
      * exists e0. split; [|reflexivity].
        destruct (mapM_raise_inv _ _ _ M) as [t0 [I0 R0]].
        exists c0, s0, t0. split; [now left|auto].
    + exfalso. apply (NM c0); [now left | exact S0].
Qed.

Lemma numeric_NoDup : NoDup NUMERIC_COLUMNS.
Proof.
  unfold NUMERIC_COLUMNS. repeat constructor; simpl; intuition auto with cols.
Qed.

(** ** Claims on normalisation and validation *)


(** C7: normalising a table that [normalize_columns] returned gives the same
    table: its labels are canonical already, every float of its numeric
    columns is read back from its [repr], and its months are stripped. *)
Theorem normalize_idempotent df out :
  normalize_columns df = Ok out ->
  normalize_columns out = Ok out.
Proof.
  intros H. apply normalize_normal in H. destruct H as (L & Nu & Mo).
  unfold normalize_columns. rewrite (rename_fixed out L).
  cbn [NUMERIC_COLUMNS foldM].
  rewrite (coerce_column_fixed out col_sales) by (auto; apply Nu; simpl; auto).
  cbn [bind].
  rewrite (coerce_column_fixed out col_prev) by (auto; apply Nu; simpl; auto).
  cbn [bind].
  rewrite (coerce_column_fixed out col_growth) by (auto; apply Nu; simpl; auto).
  cbn [bind].
  now apply strip_month_fixed.
Qed.

Lemma normalize_idempotent_witness :
  normalize_columns sample_table = Ok sample_normal /\
  normalize_columns sample_normal = Ok sample_normal.
Proof.
  split.
  - vm_compute. reflexivity.
  - apply (normalize_idempotent sample_table sample_normal); vm_compute; reflexivity.
Defined.

(** C9: renaming changes labels only, every column keeps its cells; and a
    column whose trimmed header is not a key of the synonym table leaves
    [normalize_columns] with that trimmed header and its cells untouched. *)
Theorem rename_nondestructive df :
  map snd (rename_columns df) = map snd df /\
  columns (rename_columns df) = map new_label (columns df) /\
  forall out i c s,
    normalize_columns df = Ok out ->
    nth_error df i = Some (c, s) ->
    ~ In (strip c) KEYS ->
    new_label c = strip c /\ nth_error out i = Some (strip c, s) /\
    (strip c = c -> nth_error out i = nth_error df i).
Proof.
  split; [|split].
  - unfold rename_columns. rewrite map_map. reflexivity.
  - apply columns_rename.
  - intros out i c s H Hn U.
    destruct (new_label_unknown c U) as [E NM]. split; [exact E|].
    assert (G : nth_error out i = Some (strip c, s));
      [|split; [exact G | intros Ec; rewrite G, Hn, Ec; reflexivity]].
    apply normalize_steps in H. destruct H as (o1 & o2 & o3 & H1 & H2 & H3 & H4).
    apply coerce_column_keeps in H1. destruct H1 as (_ & _ & _ & P1).
    apply coerce_column_keeps in H2. destruct H2 as (_ & _ & _ & P2).
    apply coerce_column_keeps in H3. destruct H3 as (_ & _ & _ & P3).
    apply strip_month_keeps in H4. destruct H4 as (_ & _ & _ & P4).
    assert (R : nth_error (rename_columns df) i = Some (strip c, s)).
    { unfold rename_columns. rewrite nth_error_map, Hn.
      cbn [option_map fst snd]. now rewrite E. }
    apply P4; [apply P3; [apply P2; [apply P1|]|]|]; auto;
      intros Eq; apply NM; rewrite Eq; unfold MUST; simpl; tauto.
Qed.

Lemma rename_nondestructive_witness :
  nth_error sample_normal 4 =
    Some (u "note", Object [OStr (u "a"); OFloat nan; OStr (u "c")]).
Proof.
  refine (proj1 (proj2 (proj2 (proj2 (rename_nondestructive sample_table))
            sample_normal 4%nat (u " note ")
            (Object [OStr (u "a"); OFloat nan; OStr (u "c")]) _ _ _))).
  - vm_compute. reflexivity.
  - vm_compute. reflexivity.
  - vm_compute. intuition discriminate.
Defined.

Lemma join_listed names : join COMMA_SPACE names = listed names.
Proof.
  destruct names as [|n rest]; [reflexivity|]. cbn [listed].
  revert n. induction rest as [|m rest IH]; intros n.
  - cbn [join flat_map]. now rewrite app_nil_r.
  - change (join COMMA_SPACE (n :: m :: rest))
      with (n ++ COMMA_SPACE ++ join COMMA_SPACE (m :: rest)).
    rewrite (IH m). cbn [flat_map]. reflexivity.
Qed.

Lemma subseq_filter {A} (f : A -> bool) l : subseq (filter f l) l.
Proof.
  induction l as [|x l IH]; cbn [filter]; [constructor|].
  destruct (f x); now constructor.
Qed.

Lemma subseq_In {A} (s l : list A) x : subseq s l -> In x s -> In x l.
Proof.
  induction 1 as [|y s l _ IH|y s l _ IH]; cbn [In]; intros I; auto.
  destruct I as [->|I]; auto.
Qed.

(** A part of a list without repetitions is determined by its elements. *)
Lemma subseq_ext {A} (l : list A) : forall s1 s2,
  NoDup l -> subseq s1 l -> subseq s2 l ->
  (forall x, In x s1 <-> In x s2) -> s1 = s2.
Proof.
  induction l as [|y l IH]; intros s1 s2 N S1 S2 E.
  - inversion S1; inversion S2; subst. reflexivity.
  - inversion N as [|? ? Ny Nl]; subst.
    inversion S1 as [|? s1' ? S1'|? ? ? S1']; inversion S2 as [|? s2' ? S2'|? ? ? S2']; subst.
    + f_equal. apply IH; auto. intros x. split; intros I.
      * assert (Q : In x (y :: s2')) by (apply E; now right).
        destruct Q as [<-|Q]; auto. exfalso. apply Ny. apply (subseq_In s1' l y S1' I).
      * assert (Q : In x (y :: s1')) by (apply E; now right).
        destruct Q as [<-|Q]; auto. exfalso. apply Ny. apply (subseq_In s2' l y S2' I).
    + exfalso. apply Ny. apply (subseq_In s2 l y S2'). apply E. now left.
    + exfalso. apply Ny. apply (subseq_In s1 l y S1'). apply E. now left.
    + apply IH; auto.
Qed.

(** C2: on the normalised table the validation takes the required columns
    that are not among the table's columns, in the order month, sales,
    prior-year sales, growth; the run stops exactly when there is one, the
    message it stops with is the prefix followed by these names, separated
    by a comma and a space, and then nothing is rendered. *)
Theorem missing_columns_stop df df1 :
  normalize_columns df = Ok df1 ->
  exists names,
    subseq names [col_month; col_sales; col_prev; col_growth] /\
    (forall c, In c names <->
               In c [col_month; col_sales; col_prev; col_growth] /\ ~ In c (columns df1)) /\
    (names <> [] <-> dashboard df = Stopped (MISSING_PREFIX ++ listed names)) /\
    (names <> [] <-> exists msg, dashboard df = Stopped msg) /\
    (forall msg, dashboard df = Stopped msg ->
                 names <> [] /\ msg = MISSING_PREFIX ++ listed names) /\
    (names <> [] -> forall d, dashboard df <> Rendered d).
Proof.
  intros H. exists (missing_columns df1).
  assert (D : dashboard df =
              match missing_columns df1 with
              | [] => match render df1 with Ok d => Rendered d | Raise e => Uncaught e end
              | m => Stopped (MISSING_PREFIX ++ listed m)
              end).
  { unfold dashboard, require_columns, missing_message. rewrite H.
    destruct (missing_columns df1) as [|m ms]; [reflexivity|].
    now rewrite join_listed. }
  split; [|split; [|split; [|split; [|split]]]].
  - apply (subseq_filter _ MUST).
  - intros c. unfold missing_columns. rewrite filter_In, negb_true_iff.
    rewrite <- not_true_iff_false, str_in_In. unfold MUST. tauto.
  - rewrite D. destruct (missing_columns df1) as [|m ms].
    + split; [congruence|]. destruct (render df1); discriminate.
    + split; [reflexivity | discriminate].
  - rewrite D. destruct (missing_columns df1) as [|m ms].
    + split; [congruence|]. intros [msg E]. destruct (render df1); discriminate.
    + split; [eauto | discriminate].
  - intros msg. rewrite D. destruct (missing_columns df1) as [|m ms].
    + destruct (render df1); discriminate.
    + intros E. inversion E. split; [discriminate|reflexivity].
  - rewrite D. destruct (missing_columns df1) as [|m ms]; [congruence|].
    intros _ d. discriminate.
Qed.

Lemma missing_columns_stop_witness :
  dashboard no_growth_table = Stopped (u "필수 컬럼이 없습니다: 증감률") /\
  dashboard two_missing_table = Stopped (u "필수 컬럼이 없습니다: 전년동월, 증감률").
Proof.
  assert (ND : NoDup [col_month; col_sales; col_prev; col_growth]).
  { repeat constructor; cbn [In]; intuition discriminate. }
  assert (W : forall t names cols,
            (exists df1, normalize_columns t = Ok df1 /\ columns df1 = cols) ->
            subseq names [col_month; col_sales; col_prev; col_growth] ->
            names <> [] ->
            (forall c, In c names <->
               In c [col_month; col_sales; col_prev; col_growth] /\ ~ In c cols) ->
            dashboard t = Stopped (MISSING_PREFIX ++ listed names)).
  { intros t names cols (df1 & N & C) S NE M.
    destruct (missing_columns_stop t df1 N) as (names' & S' & M' & St & _).
    assert (E : names' = names).
    { apply (subseq_ext _ _ _ ND S' S). intros c. rewrite M', M, C. tauto. }
    subst names'. now apply St. }
  split.
  - apply (W no_growth_table [col_growth] [col_month; col_sales; col_prev]).
    + eexists. split; vm_compute; reflexivity.
    + repeat constructor.
    + discriminate.
    + intros c. cbn [In]. split.
      * intros [<-|[]]. split; [tauto|]. intuition discriminate.
      * intros [[<-|[<-|[<-|[<-|[]]]]] N]; auto; exfalso; apply N; tauto.
  - apply (W two_missing_table [col_prev; col_growth] [col_month; col_sales; u "note"]).
    + eexists. split; vm_compute; reflexivity.
    + repeat constructor.
    + discriminate.
    + intros c. cbn [In]. split.
      * intros [<-|[<-|[]]]; (split; [tauto|]); intuition discriminate.
      * intros [[<-|[<-|[<-|[<-|[]]]]] N]; auto; exfalso; apply N; tauto.
Defined.

(** C3, as the script has it: when no numeric canonical label is repeated
    after the renaming and a cell of a numeric canonical column, stripped
    of commas and spaces, is neither empty nor a float, [normalize_columns]
    raises a [ValueError] that carries the stripped text of such a cell (and
    no column name), and the exception leaves the script uncaught: no
    message of the script, no chart. *)
Theorem unparseable_cell_raises df :
  (forall c, In c NUMERIC_COLUMNS -> select (rename_columns df) c <> Many) ->
  (exists c s text,
     In c NUMERIC_COLUMNS /\ select (rename_columns df) c = One s /\
     In text (cell_texts s) /\ clean text <> [] /\ float_of_str (clean text) = None) ->
  exists c s text,
    In c NUMERIC_COLUMNS /\ select (rename_columns df) c = One s /\
    In text (cell_texts s) /\ clean text <> [] /\ float_of_str (clean text) = None /\
    normalize_columns df = Raise (ValueError_float (clean text)) /\
    dashboard df = Uncaught (ValueError_float (clean text)).
Proof.
  intros NM (c & s & text & I & S & T & Ne & F).
  destruct (foldM_coerce_raise NUMERIC_COLUMNS (rename_columns df) numeric_NoDup NM)
    as [e [(c1 & s1 & t1 & I1 & S1 & T1 & R1) Fo]].
  { exists (ValueError_float (clean text)), c, s, text. repeat split; auto.
    unfold coerce_cell. destruct (clean text); [congruence|]. now rewrite F. }
  destruct (coerce_cell_raise t1 e R1) as (-> & Ne1 & F1).
  exists c1, s1, t1. repeat split; auto.
  - unfold normalize_columns. cbv zeta. rewrite Fo. reflexivity.
  - unfold dashboard, normalize_columns. cbv zeta. rewrite Fo. reflexivity.
Qed.

Lemma unparseable_cell_raises_witness :
  exists c s text,
    In c NUMERIC_COLUMNS /\ select (rename_columns bad_table) c = One s /\
    In text (cell_texts s) /\ clean text <> [] /\ float_of_str (clean text) = None /\
    normalize_columns bad_table = Raise (ValueError_float (clean text)) /\
    dashboard bad_table = Uncaught (ValueError_float (clean text)).
Proof.
  apply (unparseable_cell_raises bad_table).
  - intros c H. simpl in H.
    destruct H as [<-|[<-|[<-|[]]]]; vm_compute; discriminate.
  - exists col_sales, (Object [OStr (u "1,200"); OStr (u "a,b c")]), (u "a,b c").
    repeat split; try (vm_compute; reflexivity).
    + simpl. auto.
    + simpl. right. left. reflexivity.
    + vm_compute. discriminate.
Defined.

(** C3 as stated fails: the table [bad_table] has the sales cell ["a,b c"];
    the run ends with the uncaught [ValueError] for ["abc"], not with an
    error message of the script. *)
Lemma unparseable_cell_not_reported :
  dashboard bad_table = Uncaught (ValueError_float (u "abc")) /\
  (forall msg, dashboard bad_table <> Stopped msg).
Proof.
  assert (E : dashboard bad_table = Uncaught (ValueError_float (u "abc")))
    by (vm_compute; reflexivity).
  split; [exact E|]. intros msg. rewrite E. discriminate.
Qed.

(** ** Sorting by month *)

Lemma take_map {A B} (f : A -> B) idx xs : take idx (map f xs) = map f (take idx xs).
Proof.
  unfold take. induction idx as [|i idx IH]; simpl; auto.
  rewrite nth_error_map, IH. destruct (nth_error xs i); simpl; auto.
Qed.

Lemma sorted_OStr l :
  Sorted (fun a b => obj_leb a b = true) (map OStr l) ->
  Sorted (fun a b => str_leb a b = true) l.
Proof.
  induction l as [|a l IH]; simpl; intros H; constructor; inversion H; subst; auto.
  destruct l; simpl in *; constructor. inversion H3; subst. auto.
Qed.


Lemma text_leb_total a b :
  (exists t, a = OStr t) -> (exists t, b = OStr t) ->
  obj_leb a b = false -> obj_leb b a = true.
Proof.
  intros [s ->] [t ->]. simpl. apply str_leb_total.
Qed.

Lemma validated_columns df1 c :
  require_columns df1 = None -> In c MUST -> In c (columns df1).
Proof.
  unfold require_columns. destruct (missing_columns df1) as [|m ms] eqn:E; [|discriminate].
  intros _ H. destruct (str_in c (columns df1)) eqn:S; [now apply str_in_In|].
  assert (I : In c (missing_columns df1)).
  { unfold missing_columns. apply filter_In. split; auto. now rewrite S. }
  rewrite E in I. contradiction.
Qed.

(** After normalisation and validation the month column is one column of
    text. *)
Lemma validated_month df df1 :
  normalize_columns df = Ok df1 -> require_columns df1 = None ->
  exists ts, select df1 col_month = One (Object (map OStr ts)).
Proof.
  intros H R. apply normalize_normal in H. destruct H as (_ & _ & [M|(ts & S & _)]).
  - apply select_missing in M. exfalso. apply M.
    apply validated_columns; auto. unfold MUST. simpl. auto.
  - eauto.
Qed.

Lemma validated_numeric df df1 c :
  normalize_columns df = Ok df1 -> require_columns df1 = None ->
  In c NUMERIC_COLUMNS ->
  exists ys, select df1 c = One (Float64 ys).
Proof.
  intros H R I. apply normalize_normal in H. destruct H as (_ & Nu & _).
  destruct (Nu c I) as [M|S]; auto.
  apply select_missing in M. exfalso. apply M.
  apply validated_columns; auto. now apply numeric_must.
Qed.

Lemma sort_values_month df1 ts :
  select df1 col_month = One (Object (map OStr ts)) ->
  let idx := argsort obj_leb obj_isna (map OStr ts) in
  sort_values col_month df1 = Ok (permute_rows idx df1) /\
  select (permute_rows idx df1) col_month = One (Object (map OStr (take idx ts))) /\
  Permutation idx (seq 0 (List.length ts)) /\
  Sorted (fun a b => str_leb a b = true) (take idx ts) /\
  Permutation (take idx ts) ts.
Proof.
  intros S idx.
  assert (P : Permutation idx (seq 0 (List.length ts))).
  { unfold idx. rewrite <- (length_map OStr ts). apply argsort_perm. }
  split; [|split; [|split; [|split]]]; auto.
  - unfold sort_values, get_series. rewrite S. reflexivity.
  - unfold permute_rows. rewrite select_map, S. simpl. now rewrite take_map.
  - apply sorted_OStr. rewrite <- take_map.
    apply (take_argsort_sorted obj_leb obj_isna (fun o => exists t, o = OStr t)).
    + exact text_leb_total.
    + apply Forall_forall. intros o Ho. apply in_map_iff in Ho.
      destruct Ho as [t [<- _]]. reflexivity.
    + apply Forall_forall. intros o Ho. apply in_map_iff in Ho.
      destruct Ho as [t [<- _]]. eauto.
  - now apply take_perm.
Qed.

(** ** The rendered dashboard *)

Lemma dashboard_inv df d :
  dashboard df = Rendered d ->
  exists df1, normalize_columns df = Ok df1 /\ require_columns df1 = None /\
              render df1 = Ok d.
Proof.
  unfold dashboard. destruct (normalize_columns df) as [df1|] eqn:N; [|discriminate].
  destruct (require_columns df1) eqn:R; [discriminate|].
  destruct (render df1) as [d'|] eqn:E; [|discriminate].
  intros H. inversion H; subst. eauto.
Qed.

Lemma render_inv df1 d :
  render df1 = Ok d ->
  exists df2 s sales p prev,
    sort_values col_month df1 = Ok df2 /\ table d = df2 /\
    get_series df2 col_sales = Ok s /\ float_values s = Ok sales /\
    get_series df2 col_prev = Ok p /\ float_values p = Ok prev /\
    total_sales d = nansum sales /\
    last_year_sales d = nansum prev /\
    avg_sales d = nanmean sales /\
    idxmax sales = Ok (max_idx d) /\
    idxmin sales = Ok (min_idx d) /\
    growth_pct d =
      (if truthy (nansum prev)
       then ((nansum sales - nansum prev) / nansum prev * 100)%float else zero) /\
    fig_indicator d = make_indicator (nansum sales) (nansum prev) /\
    hbar_diff df2 = Ok (fig_diff d).
Proof.
  unfold render.
  destruct (sort_values col_month df1) as [df2|] eqn:E1; [|discriminate]. cbn [bind].
  destruct (get_series df2 col_sales) as [s|] eqn:E2; [|discriminate]. cbn [bind].
  destruct (float_values s) as [sales|] eqn:E3; [|discriminate]. cbn [bind].
  destruct (get_series df2 col_prev) as [p|] eqn:E4; [|discriminate]. cbn [bind].
  destruct (float_values p) as [prev|] eqn:E5; [|discriminate]. cbn [bind].
  destruct (idxmax sales) as [imax|] eqn:E6; [|discriminate]. cbn [bind].
  destruct (idxmin sales) as [imin|] eqn:E7; [|discriminate]. cbn [bind].
  destruct (line_sales df2) as [ls|] eqn:E8; [|discriminate]. cbn [bind].
  destruct (bar_growth df2) as [bg|] eqn:E9; [|discriminate]. cbn [bind].
  destruct (hbar_diff df2) as [hb|] eqn:E10; [|discriminate]. cbn [bind].
  intros H. inversion H; subst; clear H. cbn.
  exists df2, s, sales, p, prev. repeat split; auto.
Qed.

(** ** Claims on ordering and aggregates *)



(** C1: the growth percentage of a rendered dashboard is
    [(total - prior) / prior * 100] when the prior-year total is not zero,
    and exactly 0.0, which is neither NaN nor infinite, when that total is
    zero, as it is when every prior-year cell is missing; the indicator
    figure shows the same number. *)
Theorem growth_pct_formula df d :
  dashboard df = Rendered d ->
  ((last_year_sales d =? zero)%float = false ->
   growth_pct d =
   ((total_sales d - last_year_sales d) / last_year_sales d * 100)%float) /\
  ((last_year_sales d =? zero)%float = true ->
   growth_pct d = zero /\ is_nan (growth_pct d) = false /\
   is_infinity (growth_pct d) = false) /\
  ind_growth (fig_indicator d) = growth_pct d /\
  exists s sales p prev,
    get_series (table d) col_sales = Ok s /\ float_values s = Ok sales /\
    get_series (table d) col_prev = Ok p /\ float_values p = Ok prev /\
    total_sales d = nansum sales /\ last_year_sales d = nansum prev /\
    (Forall (fun x => is_nan x = true) prev -> growth_pct d = zero).
Proof.
  intros D. apply dashboard_inv in D. destruct D as (df1 & _ & _ & Re).
  apply render_inv in Re.
  destruct Re as (df2 & s & sales & p & prev & _ & T & Gs & Fs & Gp & Fp &
                  Ht & Hl & _ & _ & _ & Hg & Hi & _).
  rewrite Ht, Hl, Hg, Hi. unfold make_indicator, truthy. cbn [ind_growth].
  split; [intros ->; reflexivity|].
  split; [intros ->; repeat split; reflexivity|].
  split; [reflexivity|].
  exists s, sales, p, prev. rewrite T. repeat split; auto.
  intros A. rewrite (nansum_all_missing prev A). reflexivity.
Qed.

Lemma growth_pct_formula_witness :
  (exists d, rendered (dashboard sample_table) = Some d /\
     growth_pct d = ((3234 - 3700) / 3700 * 100)%float) /\
  (exists d, rendered (dashboard zero_prior_table) = Some d /\ growth_pct d = zero).
Proof.
  split.
  - destruct (dashboard sample_table) as [d| |] eqn:E; try (vm_compute in E; discriminate).
    exists d. split; [reflexivity|].
    destruct (growth_pct_formula sample_table d E) as (H & _).
    assert (T : total_sales d = 3234%float /\ last_year_sales d = 3700%float).
    { vm_compute in E. inversion E. split; reflexivity. }
    destruct T as [T L]. rewrite T, L in H. apply H. reflexivity.
  - destruct (dashboard zero_prior_table) as [d| |] eqn:E;
      try (vm_compute in E; discriminate).
    exists d. split; [reflexivity|].
    destruct (growth_pct_formula zero_prior_table d E) as (_ & H & _).
    assert (L : last_year_sales d = zero).
    { vm_compute in E. inversion E. reflexivity. }
    rewrite L in H. apply H. reflexivity.
Defined.

(** C8, as the code has it: when some sales cell holds a value, a maximum
    row and a minimum row are selected, and these are the rows a rendered
    dashboard shows.  The maximum row is the first row, in the sorted
    order, that holds the largest sales value provided no sales cell is
    missing or some value is above -inf; the minimum row is the first that
    holds the smallest value provided no cell is missing or some value is
    below +inf. *)
Theorem extreme_rows_first :
  (forall sales,
     (exists x, In x sales /\ is_nan x = false) ->
     exists i j, idxmax sales = Ok i /\ idxmin sales = Ok j /\
                 (max_told_apart sales -> first_max sales i) /\
                 (min_told_apart sales -> first_min sales j)) /\
  (forall df d,
     dashboard df = Rendered d ->
     exists s sales,
       get_series (table d) col_sales = Ok s /\ float_values s = Ok sales /\
       idxmax sales = Ok (max_idx d) /\ idxmin sales = Ok (min_idx d) /\
       (max_told_apart sales -> first_max sales (max_idx d)) /\
       (min_told_apart sales -> first_min sales (min_idx d))).
Proof.
  split.
  - intros sales Hx. destruct (idx_ok sales Hx) as [[i Ei] [j Ej]].
    exists i, j. repeat split; auto using idxmax_first, idxmin_first.
  - intros df d D. apply dashboard_inv in D. destruct D as (df1 & _ & _ & Re).
    apply render_inv in Re.
    destruct Re as (df2 & s & sales & p & prev & _ & T & Gs & Fs & _ & _ &
                    _ & _ & _ & Hmax & Hmin & _).
    exists s, sales. rewrite T. repeat split; auto using idxmax_first, idxmin_first.
Qed.

Lemma extreme_rows_first_witness :
  exists d, rendered (dashboard tie_table) = Some d /\
    max_idx d = 1%nat /\ min_idx d = 0%nat /\
    exists s sales, get_series (table d) col_sales = Ok s /\
      float_values s = Ok sales /\
      idxmax sales = Ok (max_idx d) /\ idxmin sales = Ok (min_idx d) /\
      first_max sales (max_idx d) /\ first_min sales (min_idx d).
Proof.
  destruct (dashboard tie_table) as [d| |] eqn:E; try (vm_compute in E; discriminate).
  exists d. split; [reflexivity|].
  assert (M : max_idx d = 1%nat /\ min_idx d = 0%nat).
  { vm_compute in E. inversion E. split; reflexivity. }
  destruct M as [M1 M2]. split; [exact M1|]. split; [exact M2|].
  destruct (proj2 extreme_rows_first tie_table d E)
    as (s & sales & Gs & Fs & Imax & Imin & Hmax & Hmin).
  assert (V : Forall (fun x => is_nan x = false) sales).
  { vm_compute in E. inversion E as [Ed]. rewrite <- Ed in Gs. vm_compute in Gs.
    inversion Gs as [Es]. rewrite <- Es in Fs. vm_compute in Fs.
    inversion Fs. repeat constructor. }
  exists s, sales. repeat split; auto.
  - apply Hmax. now left.
  - apply Hmin. now left.
Defined.

(** C8, the claim as it was worded: in the sorted table with the sales
    cells NaN, -inf, -inf the rows 1 and 2 share the largest value, and
    the row that is selected is row 0, whose cell is missing. *)
Theorem extreme_row_missing_cell :
  exists d s sales,
    dashboard missing_first_table = Rendered d /\
    get_series (table d) col_sales = Ok s /\ float_values s = Ok sales /\
    sales = [nan; neg_infinity; neg_infinity] /\
    first_max sales 1 /\
    max_idx d = 0%nat /\ ~ first_max sales (max_idx d).
Proof.
  destruct (dashboard missing_first_table) as [d| |] eqn:E;
    try (vm_compute in E; discriminate).
  exists d, (Float64 [nan; neg_infinity; neg_infinity]),
         [nan; neg_infinity; neg_infinity].
  vm_compute in E. inversion E as [Ed]. cbn [table max_idx].
  split; [reflexivity|]. split; [reflexivity|]. split; [reflexivity|].
  split; [reflexivity|]. split; [|split; [reflexivity|]].
  - exists neg_infinity. split; [reflexivity|]. split; [reflexivity|]. split.
    + intros k x Hk Nx.
      destruct k as [|[|[|k]]]; cbn in Hk; inversion Hk; subst;
        try reflexivity; try discriminate. destruct k; discriminate.
    + intros k x Hki Hk Nx.
      destruct k as [|[|k]]; cbn in Hk; inversion Hk; subst; try discriminate; lia.
  - intros (v & Hv & Nv & _). cbn in Hv. inversion Hv; subst. discriminate.
Qed.




(** ** The highlighted months *)

Lemma str_values_OStr ts : str_values (Object (map OStr ts)) = Ok ts.
Proof.
  simpl. induction ts as [|t ts IH]; simpl; auto. now rewrite IH.
Qed.

Lemma str_values_inv m ts : str_values m = Ok ts -> m = Object (map OStr ts).
Proof.
  destruct m as [xs| | |]; try discriminate. cbn [str_values].
  revert ts. induction xs as [|o xs IH]; cbn [mapM]; intros ts H.
  - inversion H. reflexivity.
  - destruct o as [t|x]; cbn [bind] in H; [|discriminate].
    destruct (mapM _ xs) as [ts'|] eqn:E; cbn [bind] in H; [|discriminate].
    inversion H; subst. cbn [map]. specialize (IH ts' eq_refl).
    inversion IH. reflexivity.
Qed.

Lemma get_series_select df c s : get_series df c = Ok s <-> select df c = One s.
Proof.
  unfold get_series. destruct (select df c); split; intros H; inversion H; auto.
Qed.

Lemma col_diff_month : col_month <> col_diff.
Proof. apply pystr_eqb_neq. reflexivity. Qed.

(** [df[c]] after [df.assign(c=s)]. *)
Lemma select_assign_same df c s :
  select (assign df c s) c =
  match select df c with
  | Many => Many
  | _ => One s
  end.
Proof.
  unfold assign. destruct (str_in c (columns df)) eqn:I.
  - unfold select.
    assert (E : filter (fun hs => pystr_eqb (fst hs) c)
                  (map (fun hs : pystr * series =>
                          if pystr_eqb (fst hs) c then (fst hs, s) else hs) df) =
                map (fun hs => (fst hs, s)) (filter (fun hs => pystr_eqb (fst hs) c) df)).
    { clear I. induction df as [|[h s0] df IH]; cbn [map filter fst]; auto.
      destruct (pystr_eqb h c) eqn:Eh; cbn [fst filter map]; rewrite Eh, IH; reflexivity. }
    rewrite E. apply str_in_In in I.
    destruct (filter (fun hs => pystr_eqb (fst hs) c) df) as [|[h s1] [|x r]] eqn:F.
    + exfalso. unfold columns in I. apply in_map_iff in I. destruct I as [[h s1] [Eh I]].
      assert (I' : In (h, s1) (filter (fun hs => pystr_eqb (fst hs) c) df)).
      { apply filter_In. split; auto. cbn in *. subst h. apply pystr_eqb_refl. }
      rewrite F in I'. contradiction.
    + reflexivity.
    + reflexivity.
  - assert (M : select df c = Missing).
    { apply select_missing. intros I'. apply str_in_In in I'. congruence. }
    rewrite M. unfold select in *. rewrite filter_app.
    destruct (filter (fun hs => pystr_eqb (fst hs) c) df) as [|[h s1] [|x r]];
      try discriminate.
    cbn [filter fst app]. now rewrite pystr_eqb_refl.
Qed.

Lemma select_assign_other df c s c' :
  c' <> c -> select (assign df c s) c' = select df c'.
Proof.
  intros N. unfold assign, select. destruct (str_in c (columns df)).
  - assert (E : filter (fun hs => pystr_eqb (fst hs) c')
                  (map (fun hs : pystr * series =>
                          if pystr_eqb (fst hs) c then (fst hs, s) else hs) df) =
                filter (fun hs => pystr_eqb (fst hs) c') df).
    { induction df as [|[h s0] df IH]; cbn [map filter fst]; auto.
      destruct (pystr_eqb h c) eqn:Eh; cbn [fst].
      + apply pystr_eqb_eq in Eh. subst h.
        assert (E : pystr_eqb c c' = false) by (apply pystr_eqb_neq; congruence).
        rewrite E. exact IH.
      + destruct (pystr_eqb h c'); [f_equal|]; exact IH. }
    now rewrite E.
  - rewrite filter_app. cbn [filter fst].
    assert (E : pystr_eqb c c' = false) by (apply pystr_eqb_neq; congruence).
    rewrite E, app_nil_r. reflexivity.
Qed.

(** The table [tmp] of [hbar_diff]: it exists exactly when at most one
    column has the label of the difference. *)
Lemma hbar_diff_tmp df diff :
  let idx := argsort PrimFloat.leb is_nan diff in
  sort_values col_diff (assign df col_diff (Float64 diff)) =
  match select df col_diff with
  | Many => Raise (ValueError_label col_diff)
  | _ => Ok (permute_rows idx (assign df col_diff (Float64 diff)))
  end.
Proof.
  unfold sort_values. rewrite select_assign_same.
  destruct (select df col_diff); reflexivity.
Qed.

(** The fields of the figure [hbar_diff] builds. *)
Lemma hbar_diff_fields df s sales p prev m months h :
  get_series df col_sales = Ok s -> float_values s = Ok sales ->
  get_series df col_prev = Ok p -> float_values p = Ok prev ->
  get_series df col_month = Ok m -> str_values m = Ok months ->
  hbar_diff df = Ok h ->
  let idx := argsort PrimFloat.leb is_nan (sub_series sales prev) in
  let tm := take idx months in
  hb_diff h = take idx (sub_series sales prev) /\
  hb_month h = tm /\
  hb_top3 h = tail3 tm /\ hb_bottom3 h = head3 tm /\
  hb_colors h =
    map (fun mo => if str_in mo (tail3 tm) || str_in mo (head3 tm)
                   then Highlight else Plain) tm.
Proof.
  intros Gs Fs Gp Fp Gm Fm H. unfold hbar_diff in H.
  rewrite Gs in H. cbn [bind] in H. rewrite Fs in H. cbn [bind] in H.
  rewrite Gp in H. cbn [bind] in H. rewrite Fp in H. cbn [bind] in H.
  rewrite hbar_diff_tmp in H.
  set (diff := sub_series sales prev) in *.
  set (idx := argsort PrimFloat.leb is_nan diff) in *.
  assert (Sm : select (permute_rows idx (assign df col_diff (Float64 diff))) col_month =
               One (Object (map OStr (take idx months)))).
  { unfold permute_rows. rewrite select_map, select_assign_other by apply col_diff_month.
    apply get_series_select in Gm. rewrite Gm.
    rewrite (str_values_inv m months Fm). cbn [take_series]. now rewrite take_map. }
  assert (Sd : select df col_diff <> Many ->
               select (permute_rows idx (assign df col_diff (Float64 diff))) col_diff =
               One (Float64 (take idx diff))).
  { intros NM. unfold permute_rows. rewrite select_map, select_assign_same.
    destruct (select df col_diff); try reflexivity. congruence. }
  destruct (select df col_diff) eqn:Sel; cbn [bind] in H; try discriminate.
  - apply get_series_select in Sm. rewrite Sm in H. cbn [bind] in H.
    rewrite str_values_OStr in H. cbn [bind] in H.
    assert (Gd := Sd ltac:(discriminate)). apply get_series_select in Gd.
    rewrite Gd in H. cbn [bind float_values] in H.
    inversion H; subst h. cbn. repeat split.
  - apply get_series_select in Sm. rewrite Sm in H. cbn [bind] in H.
    rewrite str_values_OStr in H. cbn [bind] in H.
    assert (Gd := Sd ltac:(discriminate)). apply get_series_select in Gd.
    rewrite Gd in H. cbn [bind float_values] in H.
    inversion H; subst h. cbn. repeat split.
Qed.

(** [hbar_diff] returns exactly when at most one column has the label of
    the difference, and otherwise raises the [ValueError] of the sort. *)
Lemma hbar_diff_result df s sales p prev m months :
  get_series df col_sales = Ok s -> float_values s = Ok sales ->
  get_series df col_prev = Ok p -> float_values p = Ok prev ->
  get_series df col_month = Ok m -> str_values m = Ok months ->
  (select df col_diff = Many /\ hbar_diff df = Raise (ValueError_label col_diff)) \/
  (select df col_diff <> Many /\ exists h, hbar_diff df = Ok h).
Proof.
  intros Gs Fs Gp Fp Gm Fm. unfold hbar_diff.
  rewrite Gs. cbn [bind]. rewrite Fs. cbn [bind].
  rewrite Gp. cbn [bind]. rewrite Fp. cbn [bind].
  rewrite hbar_diff_tmp.
  set (diff := sub_series sales prev) in *.
  set (idx := argsort PrimFloat.leb is_nan diff) in *.
  assert (Sm : select (permute_rows idx (assign df col_diff (Float64 diff))) col_month =
               One (Object (map OStr (take idx months)))).
  { unfold permute_rows. rewrite select_map, select_assign_other by apply col_diff_month.
    apply get_series_select in Gm. rewrite Gm.
    rewrite (str_values_inv m months Fm). cbn [take_series]. now rewrite take_map. }
  assert (Sd : select df col_diff <> Many ->
               select (permute_rows idx (assign df col_diff (Float64 diff))) col_diff =
               One (Float64 (take idx diff))).
  { intros NM. unfold permute_rows. rewrite select_map, select_assign_same.
    destruct (select df col_diff); try reflexivity. congruence. }
  destruct (select df col_diff) eqn:Sel; cbn [bind].
  - right. split; [discriminate|].
    apply get_series_select in Sm. rewrite Sm. cbn [bind].
    rewrite str_values_OStr. cbn [bind].
    assert (Gd := Sd ltac:(discriminate)). apply get_series_select in Gd.
    rewrite Gd. cbn [bind float_values]. eauto.
  - right. split; [discriminate|].
    apply get_series_select in Sm. rewrite Sm. cbn [bind].
    rewrite str_values_OStr. cbn [bind].
    assert (Gd := Sd ltac:(discriminate)). apply get_series_select in Gd.
    rewrite Gd. cbn [bind float_values]. eauto.
  - left. split; reflexivity.
Qed.

Lemma leb_total_valid a b :
  is_nan a = false -> is_nan b = false ->
  (a <=? b)%float = false -> (b <=? a)%float = true.
Proof.
  intros Na Nb. rewrite !leb_key by auto. rewrite Z.leb_gt, Z.leb_le. lia.
Qed.

Lemma distinct_keys xs :
  Forall (fun x => is_nan x = false) xs ->
  all_distinct xs = true ->
  NoDup (map fkey xs).
Proof.
  induction 1 as [|x xs Vx Vxs IH]; simpl; intros D; constructor.
  - apply andb_true_iff in D. destruct D as [D _].
    rewrite forallb_forall in D. intros I. apply in_map_iff in I.
    destruct I as [y [K Iy]]. specialize (D y Iy).
    rewrite Forall_forall in Vxs. rewrite eqb_key in D by auto.
    apply negb_true_iff, Z.eqb_neq in D. congruence.
  - apply IH. apply andb_true_iff in D. tauto.
Qed.

Lemma strictly_sorted l :
  Forall (fun x => is_nan x = false) l ->
  Sorted (fun a b => (a <=? b)%float = true) l ->
  NoDup (map fkey l) ->
  StronglySorted (fun a b => fkey a < fkey b) l.
Proof.
  intros V S N.
  assert (SS : StronglySorted (fun a b => fkey a <= fkey b) l).
  { apply Sorted_StronglySorted; [intros a b c; lia|].
    clear N. induction S as [|a l S IH Hd]; constructor.
    - apply IH. now inversion V.
    - inversion V as [|? ? Va Vl]; subst.
      destruct Hd as [|b l' Hab]; constructor.
      inversion Vl; subst. rewrite leb_key in Hab by auto. now apply Z.leb_le. }
  clear S V. induction SS as [|a l SS IH Hall]; constructor.
  - apply IH. now inversion N.
  - inversion N as [|? ? Hn _]; subst. apply Forall_forall. intros b Hb.
    rewrite Forall_forall in Hall. specialize (Hall b Hb).
    assert (fkey a <> fkey b) by (intros E; apply Hn; rewrite E; now apply in_map).
    lia.
Qed.

Lemma strict_sorted_counts l :
  StronglySorted (fun a b => fkey a < fkey b) l ->
  Forall (fun x => is_nan x = false) l ->
  forall k x, nth_error l k = Some x ->
    count_above l x = (List.length l - 1 - k)%nat /\ count_below l x = k.
Proof.
  unfold count_above, count_below.
  induction 1 as [|a l SS IH Hall]; intros V k x Hk; [destruct k; discriminate|].
  inversion V as [|? ? Va Vl]; subst.
  rewrite Forall_forall in Hall, Vl.
  destruct k as [|k]; simpl in Hk.
  - inversion Hk; subst x. cbn [filter].
    rewrite ltb_key, Z.ltb_irrefl by auto.
    rewrite filter_all, filter_none.
    + simpl. split; lia.
    + apply Forall_forall. intros y Hy. rewrite ltb_key by auto.
      apply Z.ltb_ge. specialize (Hall y Hy). lia.
    + apply Forall_forall. intros y Hy. rewrite ltb_key by auto.
      apply Z.ltb_lt. now apply Hall.
  - pose proof (nth_error_In _ _ Hk) as Ix.
    pose proof (Hall x Ix) as Lt. pose proof (Vl x Ix) as Vx.
    destruct (IH (proj2 (Forall_forall _ _) Vl) k x Hk) as [A B].
    cbn [filter]. rewrite !ltb_key by auto.
    rewrite (proj2 (Z.ltb_ge (fkey x) (fkey a))) by lia.
    rewrite (proj2 (Z.ltb_lt (fkey a) (fkey x))) by lia.
    simpl. rewrite A, B. split; [|reflexivity].
    assert (Lk : (k < List.length l)%nat) by (apply nth_error_Some; congruence).
    lia.
Qed.

Lemma count_above_perm l l' x : Permutation l l' -> count_above l x = count_above l' x.
Proof.
  intros P. unfold count_above. apply Permutation_length. now apply Permutation_filter.
Qed.

Lemma count_below_perm l l' x : Permutation l l' -> count_below l x = count_below l' x.
Proof.
  intros P. unfold count_below. apply Permutation_length. now apply Permutation_filter.
Qed.

Lemma NoDup_positions {A} (l : list A) k m j :
  NoDup l -> nth_error l k = Some m ->
  (In m (skipn j l) <-> (j <= k)%nat) /\ (In m (firstn j l) <-> (k < j)%nat).
Proof.
  intros N Hk. rewrite NoDup_nth_error in N.
  assert (Lk : (k < List.length l)%nat) by (apply nth_error_Some; congruence).
  split; split.
  - intros I. apply In_nth_error in I. destruct I as [k' E].
    rewrite nth_error_skipn in E. rewrite <- Hk in E.
    symmetry in E. apply N in E; auto. lia.
  - intros L. apply (nth_error_In _ (k - j)). rewrite nth_error_skipn.
    replace (j + (k - j))%nat with k by lia. exact Hk.
  - intros I. apply In_nth_error in I. destruct I as [k' E].
    rewrite nth_error_firstn in E. destruct (Nat.ltb_spec k' j) as [L|L]; [|discriminate].
    rewrite <- Hk in E. symmetry in E. apply N in E; auto. lia.
  - intros L. apply (nth_error_In _ k). rewrite nth_error_firstn.
    destruct (Nat.ltb_spec k j); [exact Hk | lia].
Qed.

Lemma filter_length_split {A} (f : A -> bool) l j :
  List.length (filter f l) =
  (List.length (filter f (firstn j l)) + List.length (filter f (skipn j l)))%nat.
Proof.
  rewrite <- length_app, <- filter_app, firstn_skipn. reflexivity.
Qed.

Lemma members_of_tail l j :
  NoDup l -> List.length (filter (fun m => str_in m (skipn j l)) l) = (List.length l - j)%nat.
Proof.
  intros N. rewrite (filter_length_split _ l j).
  rewrite filter_none, filter_all.
  - simpl. now rewrite length_skipn.
  - apply Forall_forall. intros m Hm. now apply str_in_In.
  - apply Forall_forall. intros m Hm. apply not_true_iff_false. rewrite str_in_In.
    apply In_nth_error in Hm. destruct Hm as [k E].
    rewrite nth_error_firstn in E. destruct (Nat.ltb_spec k j) as [L|L]; [|discriminate].
    destruct (NoDup_positions l k m j N E) as [S _]. rewrite S. lia.
Qed.

Lemma members_of_head l j :
  NoDup l ->
  List.length (filter (fun m => str_in m (firstn j l)) l) = Nat.min j (List.length l).
Proof.
  intros N. rewrite (filter_length_split _ l j).
  rewrite filter_all, filter_none.
  - rewrite length_firstn. simpl. lia.
  - apply Forall_forall. intros m Hm. apply not_true_iff_false. rewrite str_in_In.
    apply In_nth_error in Hm. destruct Hm as [k E].
    rewrite nth_error_skipn in E.
    destruct (NoDup_positions l (j + k) m j N E) as [_ F]. rewrite F. lia.
  - apply Forall_forall. intros m Hm. now apply str_in_In.
Qed.

Lemma filter_length_perm {A} (f : A -> bool) l l' :
  Permutation l l' -> List.length (filter f l) = List.length (filter f l').
Proof.
  intros P. apply Permutation_length. now apply Permutation_filter.
Qed.

Lemma all_valid_Forall xs :
  all_valid xs = true -> Forall (fun x => is_nan x = false) xs.
Proof.
  unfold all_valid. rewrite forallb_forall. intros H. apply Forall_forall.
  intros x Hx. apply negb_true_iff. auto.
Qed.

(** C4, as the script has it: in a table of six rows whose month labels
    are pairwise different and whose differences [sales - prior] are all
    numbers and pairwise different, the months in [top3] are those of the
    three rows with the largest differences, the months in [bottom3] those
    of the three rows with the smallest, three rows each, and no month is
    in both sets. *)
Theorem highlight_extremes df s sales p prev m months h :
  get_series df col_sales = Ok s -> float_values s = Ok sales ->
  get_series df col_prev = Ok p -> float_values p = Ok prev ->
  get_series df col_month = Ok m -> str_values m = Ok months ->
  hbar_diff df = Ok h ->
  List.length months = 6%nat -> List.length sales = 6%nat -> List.length prev = 6%nat ->
  NoDup months ->
  all_valid (sub_series sales prev) = true ->
  all_distinct (sub_series sales prev) = true ->
  (forall i mo x,
     nth_error months i = Some mo -> nth_error (sub_series sales prev) i = Some x ->
     (str_in mo (hb_top3 h) = true <-> (count_above (sub_series sales prev) x < 3)%nat) /\
     (str_in mo (hb_bottom3 h) = true <->
      (count_below (sub_series sales prev) x < 3)%nat)) /\
  List.length (filter (fun mo => str_in mo (hb_top3 h)) months) = 3%nat /\
  List.length (filter (fun mo => str_in mo (hb_bottom3 h)) months) = 3%nat /\
  (forall mo, ~ (In mo (hb_top3 h) /\ In mo (hb_bottom3 h))).
Proof.
  intros Gs Fs Gp Fp Gm Fm H Lm Ls Lp ND V D.
  apply all_valid_Forall in V.
  set (diff := sub_series sales prev) in *.
  assert (Ld : List.length diff = 6%nat).
  { unfold diff, sub_series. rewrite length_map, length_combine, Ls, Lp. reflexivity. }
  set (idx := argsort PrimFloat.leb is_nan diff).
  assert (Pidx : Permutation idx (seq 0 6)).
  { unfold idx. rewrite <- Ld. apply argsort_perm. }
  assert (Bidx : Forall (fun i => (i < 6)%nat) idx).
  { apply Forall_forall. intros i Hi. apply (Permutation_in _ Pidx), in_seq in Hi. lia. }
  assert (Lidx : List.length idx = 6%nat).
  { rewrite (Permutation_length Pidx). apply length_seq. }
  set (tm := take idx months). set (td := take idx diff).
  assert (Eh : hb_top3 h = skipn 3 tm /\ hb_bottom3 h = firstn 3 tm).
  { destruct (hbar_diff_fields _ _ _ _ _ _ _ _ Gs Fs Gp Fp Gm Fm H) as (_ & _ & Ht & Hb & _).
    rewrite Ht, Hb. fold diff. fold idx. fold tm. unfold tail3, head3.
    assert (Ltm : List.length tm = 6%nat).
    { unfold tm. rewrite take_length; auto. now rewrite Lm. }
    rewrite Ltm. split; reflexivity. }
  destruct Eh as [Et Eb]. rewrite Et, Eb. clear Et Eb H.
  assert (Ptm : Permutation tm months).
  { apply take_perm. now rewrite Lm. }
  assert (Ptd : Permutation td diff).
  { apply take_perm. now rewrite Ld. }
  assert (NDtm : NoDup tm) by (eapply Permutation_NoDup; [apply Permutation_sym|]; eauto).
  assert (Ltm : List.length tm = 6%nat) by (now rewrite (Permutation_length Ptm)).
  assert (Ltd : List.length td = 6%nat) by (now rewrite (Permutation_length Ptd)).
  assert (Vtd : Forall (fun x => is_nan x = false) td).
  { eapply Permutation_Forall; [apply Permutation_sym|]; eauto. }
  assert (Std : Sorted (fun a b => (a <=? b)%float = true) td).
  { apply (take_argsort_sorted PrimFloat.leb is_nan (fun x => is_nan x = false));
      auto using leb_total_valid. }
  assert (Ktd : NoDup (map fkey td)).
  { eapply Permutation_NoDup; [apply Permutation_map, Permutation_sym, Ptd|].
    now apply distinct_keys. }
  pose proof (strictly_sorted td Vtd Std Ktd) as SS.
  split; [|split; [|split]].
  - intros i mo x Hmo Hx.
    assert (Li : (i < 6)%nat) by (rewrite <- Lm; apply nth_error_Some; congruence).
    assert (Ii : In i idx).
    { apply (Permutation_in _ (Permutation_sym Pidx)), in_seq. lia. }
    apply In_nth_error in Ii. destruct Ii as [k Hk].
    assert (Hmk : nth_error tm k = Some mo).
    { unfold tm. rewrite (take_nth idx months) with (i := i); auto. now rewrite Lm. }
    assert (Hxk : nth_error td k = Some x).
    { unfold td. rewrite (take_nth idx diff) with (i := i); auto. now rewrite Ld. }
    assert (Lk : (k < 6)%nat) by (rewrite <- Lidx; apply nth_error_Some; congruence).
    destruct (strict_sorted_counts td SS Vtd k x Hxk) as [Ca Cb].
    rewrite <- (count_above_perm td diff x Ptd), <- (count_below_perm td diff x Ptd).
    rewrite Ca, Cb, Ltd, !str_in_In.
    destruct (NoDup_positions tm k mo 3 NDtm Hmk) as [T B]. rewrite T, B.
    split; split; lia.
  - rewrite <- (filter_length_perm _ tm months Ptm).
    rewrite (members_of_tail tm 3 NDtm), Ltm. reflexivity.
  - rewrite <- (filter_length_perm _ tm months Ptm).
    rewrite (members_of_head tm 3 NDtm), Ltm. reflexivity.
  - intros mo [It Ib].
    assert (Im : In mo tm).
    { rewrite <- (firstn_skipn 3 tm). apply in_or_app. now right. }
    apply In_nth_error in Im. destruct Im as [k Hk].
    destruct (NoDup_positions tm k mo 3 NDtm Hk) as [T B].
    apply T in It. apply B in Ib. lia.
Qed.

Lemma highlight_extremes_witness :
  exists h, hbar_diff six_table = Ok h /\
    List.length (filter (fun mo => str_in mo (hb_top3 h))
                   (map u ["2023-01"; "2023-02"; "2023-03"; "2023-04"; "2023-05";
                           "2023-06"]%string)) = 3%nat /\
    (forall mo, ~ (In mo (hb_top3 h) /\ In mo (hb_bottom3 h))).
Proof.
  destruct (hbar_diff six_table) as [h|] eqn:E; [|vm_compute in E; discriminate].
  exists h. split; [reflexivity|].
  pose proof (highlight_extremes six_table
    (Float64 [110; 95; 130; 100; 90; 160]%float) [110; 95; 130; 100; 90; 160]%float
    (Float64 [100; 100; 100; 100; 100; 100]%float) [100; 100; 100; 100; 100; 100]%float
    (Object (map OStr (map u ["2023-01"; "2023-02"; "2023-03"; "2023-04"; "2023-05";
                              "2023-06"]%string)))
    (map u ["2023-01"; "2023-02"; "2023-03"; "2023-04"; "2023-05"; "2023-06"]%string)
    h) as T.
  destruct T as (_ & T3 & _ & Dj); try (vm_compute; reflexivity); auto.
  vm_compute. repeat constructor; simpl; intuition discriminate.
Defined.

(** C4 as stated fails.  The six rows of [repeated_month_table] have the
    differences 1 to 6, and the first and the last row share their month:
    that month is in [top3] and in [bottom3], and four rows carry a month
    of [top3].  The six rows of [missing_sale_table] have different months
    and the differences NaN, 1, 2, 3, 4, 5: the row without a difference
    is in [top3], and the row with the difference 3, which only two rows
    exceed, is not. *)
Lemma highlight_sets_overlap :
  (exists d, rendered (dashboard repeated_month_table) = Some d /\
     hb_diff (fig_diff d) = [1; 2; 3; 4; 5; 6]%float /\
     all_distinct (hb_diff (fig_diff d)) = true /\
     In (u "2023-01") (hb_top3 (fig_diff d)) /\
     In (u "2023-01") (hb_bottom3 (fig_diff d)) /\
     List.length (filter (fun mo => str_in mo (hb_top3 (fig_diff d)))
                    (hb_month (fig_diff d))) = 4%nat) /\
  (exists d, rendered (dashboard missing_sale_table) = Some d /\
     hb_diff (fig_diff d) = [1; 2; 3; 4; 5; nan]%float /\
     all_distinct (hb_diff (fig_diff d)) = true /\
     NoDup (hb_month (fig_diff d)) /\
     hb_top3 (fig_diff d) = [u "2023-05"; u "2023-06"; u "2023-01"] /\
     nth_error (hb_month (fig_diff d)) 2 = Some (u "2023-04") /\
     count_above (hb_diff (fig_diff d)) 3%float = 2%nat /\
     str_in (u "2023-04") (hb_top3 (fig_diff d)) = false).
Proof.
  split.
  - destruct (dashboard repeated_month_table) as [d| |] eqn:E;
      try (vm_compute in E; discriminate).
    exists d. split; [reflexivity|].
    vm_compute in E. inversion E; subst d; clear E.
    repeat split; vm_compute; auto 10.
  - destruct (dashboard missing_sale_table) as [d| |] eqn:E;
      try (vm_compute in E; discriminate).
    exists d. split; [reflexivity|].
    vm_compute in E. inversion E; subst d; clear E.
    repeat split; try (vm_compute; reflexivity).
    vm_compute. repeat constructor; simpl; intuition discriminate.
Qed.


(** * Further properties of the script *)

(** ** Shape of the normalised table *)

Lemma mapM_length {A B} (f : A -> result B) l ys :
  mapM f l = Ok ys -> List.length ys = List.length l.
Proof.
  revert ys. induction l as [|x l IH]; simpl; intros ys H.
  - inversion H. reflexivity.
  - destruct (f x) as [y|]; simpl in H; [|discriminate].
    destruct (mapM f l) as [ys'|]; simpl in H; [|discriminate].
    inversion H. simpl. f_equal. now apply IH.
Qed.

Lemma cell_texts_length s : List.length (cell_texts s) = size s.
Proof. destruct s; simpl; apply length_map. Qed.

Lemma sizes_set_column df c s s0 :
  select df c = One s0 -> size s = size s0 -> sizes (set_column df c s) = sizes df.
Proof.
  unfold select, sizes. fold (matching df c).
  induction df as [|[h s1] df IH]; simpl; [discriminate|].
  destruct (pystr_eqb h c) eqn:E; simpl.
  - destruct (matching df c) as [|x r]; [|destruct x; discriminate].
    intros H Hs. inversion H; subst. now rewrite Hs.
  - intros H Hs. now rewrite IH.
Qed.

Lemma coerce_column_sizes out col out' :
  coerce_column out col = Ok out' -> sizes out' = sizes out.
Proof.
  intros H. apply coerce_column_ok in H.
  destruct H as [[_ ->]|(s & ys & S & M & ->)]; auto.
  apply (sizes_set_column out col _ s S). simpl.
  now rewrite (mapM_length _ _ _ M), cell_texts_length.
Qed.

Lemma strip_month_sizes out out' :
  strip_month out = Ok out' -> sizes out' = sizes out.
Proof.
  intros H. apply strip_month_ok in H. destruct H as [[_ ->]|(s & S & ->)]; auto.
  apply (sizes_set_column out col_month _ s S). simpl.
  now rewrite !length_map, cell_texts_length.
Qed.

(** X1: normalisation keeps the number and order of the columns, each
    under its new label, and the number of rows of every column. *)
Theorem normalize_keeps_shape df out :
  normalize_columns df = Ok out ->
  columns out = map new_label (columns df) /\
  sizes out = sizes df /\
  List.length out = List.length df.
Proof.
  intros H. apply normalize_steps in H.
  destruct H as (o1 & o2 & o3 & H1 & H2 & H3 & H4).
  pose proof (coerce_column_sizes _ _ _ H1) as Z1.
  pose proof (coerce_column_sizes _ _ _ H2) as Z2.
  pose proof (coerce_column_sizes _ _ _ H3) as Z3.
  pose proof (strip_month_sizes _ _ H4) as Z4.
  apply coerce_column_keeps in H1. destruct H1 as (C1 & _).
  apply coerce_column_keeps in H2. destruct H2 as (C2 & _).
  apply coerce_column_keeps in H3. destruct H3 as (C3 & _).
  apply strip_month_keeps in H4. destruct H4 as (C4 & _).
  assert (S : sizes out = sizes df).
  { rewrite Z4, Z3, Z2, Z1. unfold sizes, rename_columns. now rewrite map_map. }
  split; [|split; [exact S|]].
  - rewrite C4, C3, C2, C1. apply columns_rename.
  - rewrite <- (length_map (fun hs => size (snd hs)) out).
    rewrite <- (length_map (fun hs => size (snd hs)) df). exact (f_equal _ S).
Qed.

Lemma normalize_keeps_shape_witness :
  columns sample_normal = map new_label (columns sample_table) /\
  sizes sample_normal = sizes sample_table /\
  List.length sample_normal = List.length sample_table.
Proof.
  apply (normalize_keeps_shape sample_table sample_normal). vm_compute. reflexivity.
Defined.

(** ** Repeated canonical labels *)

Lemma coerce_column_raise_kind out col e :
  coerce_column out col = Raise e ->
  e = AttributeError_str \/ exists t, e = ValueError_float t.
Proof.
  rewrite coerce_column_cells. destruct (select out col) as [|s|]; try discriminate.
  - destruct (mapM coerce_cell (cell_texts s)) as [ys|e0] eqn:M; simpl; [discriminate|].
    intros H. inversion H; subst.
    destruct (mapM_raise_inv _ _ _ M) as [t [_ R]].
    apply coerce_cell_raise in R. right. exists (clean t). tauto.
  - intros H. inversion H. now left.
Qed.

Lemma strip_month_raise_kind out e :
  strip_month out = Raise e -> e = AttributeError_str.
Proof.
  unfold strip_month. destruct (select out col_month) as [|s|]; try discriminate.
  intros H. now inversion H.
Qed.

(** [normalize_columns] raises nothing but the two exceptions of the
    column loop. *)
Lemma normalize_raise_kind df e :
  normalize_columns df = Raise e ->
  e = AttributeError_str \/ exists t, e = ValueError_float t.
Proof.
  unfold normalize_columns. cbv zeta. cbn [NUMERIC_COLUMNS foldM].
  destruct (coerce_column (rename_columns df) col_sales) as [o1|e1] eqn:E1; cbn [bind].
  2:{ intros H. inversion H; subst. eapply coerce_column_raise_kind; eauto. }
  destruct (coerce_column o1 col_prev) as [o2|e2] eqn:E2; cbn [bind].
  2:{ intros H. inversion H; subst. eapply coerce_column_raise_kind; eauto. }
  destruct (coerce_column o2 col_growth) as [o3|e3] eqn:E3; cbn [bind].
  2:{ intros H. inversion H; subst. eapply coerce_column_raise_kind; eauto. }
  intros H. left. eapply strip_month_raise_kind; eauto.
Qed.

Lemma coerce_column_many out col out' c :
  coerce_column out col = Ok out' -> select out c = Many -> select out' c = Many.
Proof.
  intros H M. destruct (list_eq_dec N.eq_dec c col) as [->|N].
  - apply coerce_column_ok in H. destruct H as [[S _]|(s & ys & S & _)]; congruence.
  - apply coerce_column_keeps in H. destruct H as (_ & K & _). now rewrite K.
Qed.

Lemma normal_not_many out c : normal out -> In c MUST -> select out c <> Many.
Proof.
  intros (_ & Nu & Mo) I. unfold MUST in I. simpl in I.
  destruct I as [<-|I].
  - destruct Mo as [M|(ts & S & _)]; congruence.
  - assert (In c NUMERIC_COLUMNS) by (unfold NUMERIC_COLUMNS; simpl; tauto).
    destruct (Nu c H) as [M|[ys S]]; congruence.
Qed.

(** X2: when two headers are renamed to the same required column,
    [normalize_columns] does not return: it raises, the [AttributeError]
    of the repeated column or the [ValueError] of an earlier cell, and at
    once the [AttributeError] when the repeated column is the sales
    column.  A table it returns has no required label twice. *)
Theorem repeated_label_raises df c :
  In c MUST ->
  select (rename_columns df) c = Many ->
  (exists e, normalize_columns df = Raise e /\
             (e = AttributeError_str \/ exists t, e = ValueError_float t)) /\
  (c = col_sales -> normalize_columns df = Raise AttributeError_str).
Proof.
  intros I M. split.
  - destruct (normalize_columns df) as [out|e] eqn:E.
    + exfalso. pose proof (normalize_normal df out E) as Nm.
      apply normalize_steps in E. destruct E as (o1 & o2 & o3 & H1 & H2 & H3 & H4).
      pose proof (coerce_column_many _ _ _ c H1 M) as M1.
      pose proof (coerce_column_many _ _ _ c H2 M1) as M2.
      pose proof (coerce_column_many _ _ _ c H3 M2) as M3.
      apply (normal_not_many out c Nm I).
      destruct (list_eq_dec N.eq_dec c col_month) as [->|N].
      * apply strip_month_ok in H4. destruct H4 as [[S _]|(s & S & _)]; congruence.
      * apply strip_month_keeps in H4. destruct H4 as (_ & K & _). now rewrite K.
    + exists e. split; auto. exact (normalize_raise_kind df e E).
  - intros ->. unfold normalize_columns. cbv zeta. cbn [NUMERIC_COLUMNS foldM].
    unfold coerce_column at 1. rewrite M. reflexivity.
Qed.

Lemma repeated_label_raises_witness :
  normalize_columns two_sales_table = Raise AttributeError_str.
Proof.
  apply (repeated_label_raises two_sales_table col_sales).
  - unfold MUST. simpl. auto.
  - vm_compute. reflexivity.
  - reflexivity.
Defined.

(** ** The month column *)

(** X3: whatever the dtype of a month column without a missing cell,
    normalisation replaces it by text, one cell for each row: the string
    form of the cell, with no white space left at either end. *)
Theorem month_stringified df out s :
  normalize_columns df = Ok out ->
  select (rename_columns df) col_month = One s ->
  complete s ->
  exists ts,
    select out col_month = One (Object (map OStr ts)) /\
    ts = map strip (cell_texts s) /\
    List.length ts = size s /\
    Forall (fun t => no_lead t /\ no_lead (rev t)) ts.
Proof.
  intros H S _. apply normalize_steps in H.
  destruct H as (o1 & o2 & o3 & H1 & H2 & H3 & H4).
  apply coerce_column_keeps in H1. destruct H1 as (_ & K1 & _).
  apply coerce_column_keeps in H2. destruct H2 as (_ & K2 & _).
  apply coerce_column_keeps in H3. destruct H3 as (_ & K3 & _).
  assert (S3 : select o3 col_month = One s).
  { rewrite K3, K2, K1; auto with cols. }
  apply strip_month_ok in H4. destruct H4 as [[M _]|(s' & S' & ->)]; [congruence|].
  rewrite S3 in S'. inversion S'; subst s'.
  exists (map strip (cell_texts s)). split; [|split; [|split]].
  - eapply select_set_same; eauto.
  - reflexivity.
  - rewrite length_map. apply cell_texts_length.
  - apply Forall_map, Forall_forall. intros t _. split.
    + unfold strip, rstrip. apply no_lead_rev_lstrip_rev, lstrip_no_lead.
    + unfold strip, rstrip. rewrite rev_involutive. apply lstrip_no_lead.
Qed.

Lemma month_stringified_witness :
  exists out, normalize_columns int_month_table = Ok out /\
    select out col_month = One (Object [OStr (u "202302"); OStr (u "202301")]).
Proof.
  destruct (normalize_columns int_month_table) as [out|] eqn:E;
    [|vm_compute in E; discriminate].
  exists out. split; [reflexivity|].
  destruct (month_stringified int_month_table out (Int64 [202302; 202301]) E eq_refl I)
    as (ts & S & -> & _).
  exact S.
Defined.

(** ** Headers *)

Lemma lstrip_spaces ws s : Forall (fun c => is_space c = true) ws -> lstrip (ws ++ s) = lstrip s.
Proof.
  induction 1 as [|c ws Hc _ IH]; simpl; auto. now rewrite Hc.
Qed.

Lemma lstrip_app_head a b : lstrip a <> [] -> lstrip (a ++ b) = lstrip a ++ b.
Proof.
  induction a as [|c a IH]; simpl; [congruence|].
  destruct (is_space c); auto.
Qed.

Lemma lstrip_all_space a :
  lstrip a = [] -> Forall (fun c => is_space c = true) a.
Proof.
  induction a as [|c a IH]; simpl; intros H; constructor;
    destruct (is_space c); auto; discriminate.
Qed.

Lemma rstrip_spaces s ws :
  Forall (fun c => is_space c = true) ws -> rstrip (s ++ ws) = rstrip s.
Proof.
  intros H. unfold rstrip. rewrite rev_app_distr, lstrip_spaces; auto.
  apply Forall_forall. intros c Hc. apply in_rev in Hc.
  rewrite Forall_forall in H. auto.
Qed.

Lemma strip_spaces ws s ws' :
  Forall (fun c => is_space c = true) ws ->
  Forall (fun c => is_space c = true) ws' ->
  strip (ws ++ s ++ ws') = strip s.
Proof.
  intros H H'. unfold strip. rewrite lstrip_spaces by auto.
  destruct (lstrip s) as [|c r] eqn:E.
  - pose proof (lstrip_all_space s E) as A.
    rewrite <- (app_nil_r (s ++ ws')), lstrip_spaces; [reflexivity|].
    apply Forall_app. auto.
  - rewrite lstrip_app_head by congruence. rewrite E. now apply rstrip_spaces.
Qed.

(** X4: white space around a header does not matter: the header is renamed
    as the header without it is. *)
Theorem header_spaces_ignored ws c ws' :
  Forall (fun x => is_space x = true) ws ->
  Forall (fun x => is_space x = true) ws' ->
  new_label (ws ++ c ++ ws') = new_label c.
Proof.
  intros H H'. unfold new_label. now rewrite strip_spaces.
Qed.

Lemma header_spaces_ignored_witness :
  new_label (u "  " ++ u "Sales" ++ [9%N; 12288%N]) = col_sales.
Proof.
  rewrite header_spaces_ignored.
  - vm_compute. reflexivity.
  - repeat constructor.
  - repeat constructor.
Defined.

(** X5: renaming is idempotent, and every new label is one of the four
    required labels or the header without the white space around it. *)
Theorem rename_idempotent df :
  rename_columns (rename_columns df) = rename_columns df /\
  Forall (fun hc => In (snd hc) MUST \/ snd hc = strip (fst hc))
         (combine (columns df) (columns (rename_columns df))).
Proof.
  split.
  - unfold rename_columns. rewrite map_map. apply map_ext.
    intros [h s]. simpl. now rewrite new_label_idem.
  - rewrite columns_rename. induction (columns df) as [|c cs IH]; simpl; constructor; auto.
    simpl. destruct (new_label_cases c) as [[_ H]|[_ H]]; auto.
Qed.

(** ** Validation *)

(** X7: validation looks at the labels only: it passes exactly when the
    four required labels are among the columns, so two tables with the
    same required labels, in any order and with any other columns, are
    validated alike. *)
Theorem validation_by_labels df df' :
  (require_columns df = None <-> forall c, In c MUST -> In c (columns df)) /\
  ((forall c, In c MUST -> (In c (columns df) <-> In c (columns df'))) ->
   require_columns df = require_columns df').
Proof.
  split.
  - split; [intros H c; now apply validated_columns|].
    intros H. unfold require_columns.
    destruct (missing_columns df) as [|m ms] eqn:E; auto.
    assert (I : In m (missing_columns df)) by (rewrite E; now left).
    unfold missing_columns in I. apply filter_In in I. destruct I as [I F].
    apply negb_true_iff in F. apply H, str_in_In in I. congruence.
  - intros H. unfold require_columns.
    assert (E : missing_columns df = missing_columns df').
    { unfold missing_columns. apply filter_ext_in. intros c I. f_equal.
      destruct (str_in c (columns df)) eqn:A, (str_in c (columns df')) eqn:B; auto.
      - apply str_in_In, (H c I), str_in_In in A. congruence.
      - apply str_in_In, (H c I), str_in_In in B. congruence. }
    now rewrite E.
Qed.

Lemma validation_by_labels_witness :
  require_columns sample_normal = require_columns (rev six_table).
Proof.
  apply (validation_by_labels sample_normal (rev six_table)).
  intros c I. unfold MUST in I. simpl in I.
  destruct I as [<-|[<-|[<-|[<-|[]]]]]; vm_compute; intuition.
Defined.


(** ** Sorting keeps the rows *)

Lemma perm_seq_bound idx n :
  Permutation idx (seq 0 n) ->
  Forall (fun i => (i < n)%nat) idx /\ List.length idx = n.
Proof.
  intros P. split.
  - apply Forall_forall. intros i Hi. apply (Permutation_in _ P), in_seq in Hi. lia.
  - rewrite (Permutation_length P). apply length_seq.
Qed.

Lemma take_series_size idx s :
  Forall (fun i => (i < size s)%nat) idx -> size (take_series idx s) = List.length idx.
Proof.
  destruct s; simpl; apply take_length.
Qed.

Lemma cell_at_take idx s k i :
  Forall (fun j => (j < size s)%nat) idx ->
  nth_error idx k = Some i ->
  cell_at (take_series idx s) k = cell_at s i.
Proof.
  intros B H. destruct s; simpl in *; now rewrite (take_nth idx xs B k i H).
Qed.

Lemma argsort_series_perm key :
  Permutation (argsort_series key) (seq 0 (size key)).
Proof.
  destruct key; simpl; apply argsort_perm.
Qed.

Lemma sort_values_inv c df df' :
  sort_values c df = Ok df' ->
  exists key, select df c = One key /\ df' = permute_rows (argsort_series key) df.
Proof.
  unfold sort_values, get_series. destruct (select df c) as [|key|]; try discriminate.
  simpl. intros H. inversion H. eauto.
Qed.

Lemma rectangular_In n df h s : rectangular n df -> In (h, s) df -> size s = n.
Proof.
  unfold rectangular, sizes. rewrite Forall_map, Forall_forall. intros R I.
  exact (R (h, s) I).
Qed.

Lemma permute_rows_rectangular n idx df :
  rectangular n df -> Permutation idx (seq 0 n) -> rectangular n (permute_rows idx df).
Proof.
  intros R P. destruct (perm_seq_bound idx n P) as [B L].
  unfold rectangular, sizes, permute_rows in *. rewrite Forall_map in *.
  rewrite Forall_map. eapply Forall_impl; [|exact R].
  intros [h s] E. simpl in *. rewrite take_series_size; [exact L|]. now rewrite E.
Qed.

Lemma permute_rows_row n idx df k i :
  rectangular n df -> Forall (fun j => (j < n)%nat) idx ->
  nth_error idx k = Some i ->
  row_at (permute_rows idx df) k = row_at df i.
Proof.
  intros R B H. unfold row_at, permute_rows. rewrite map_map.
  apply map_ext_in. intros [h s] I. simpl.
  apply cell_at_take; auto. now rewrite (rectangular_In n df h s R I).
Qed.

(** X8: sorting by a column that is missing raises a [KeyError]; sorting
    a table of [n] rows by one of its columns keeps the labels and the
    number of rows, and moves whole rows: each row of the result is a row
    of the table, each taken once. *)
Theorem sort_keeps_rows c df :
  (~ In c (columns df) -> sort_values c df = Raise (KeyError c)) /\
  forall n df',
    rectangular n df ->
    sort_values c df = Ok df' ->
    columns df' = columns df /\ rectangular n df' /\
    exists idx, Permutation idx (seq 0 n) /\
      forall k i, nth_error idx k = Some i -> row_at df' k = row_at df i.
Proof.
  split.
  - intros H. apply select_missing in H. unfold sort_values, get_series.
    now rewrite H.
  - intros n df' R H. apply sort_values_inv in H. destruct H as (key & S & ->).
    pose proof (rectangular_In n df c key R (select_In df c key S)) as Zk.
    pose proof (argsort_series_perm key) as P. rewrite Zk in P.
    split; [|split].
    + unfold columns, permute_rows. rewrite map_map. reflexivity.
    + now apply permute_rows_rectangular.
    + exists (argsort_series key). split; auto.
      intros k i Hk. eapply permute_rows_row; eauto.
      now apply perm_seq_bound.
Qed.

Lemma sort_keeps_rows_witness :
  exists df', sort_values col_month sample_normal = Ok df' /\
    columns df' = columns sample_normal /\ rectangular 3 df' /\
    exists idx, Permutation idx (seq 0 3) /\
      forall k i, nth_error idx k = Some i -> row_at df' k = row_at sample_normal i.
Proof.
  destruct (sort_values col_month sample_normal) as [df'|] eqn:E;
    [|vm_compute in E; discriminate].
  exists df'. split; [reflexivity|].
  apply (proj2 (sort_keeps_rows col_month sample_normal) 3%nat df'); auto.
  vm_compute. repeat constructor.
Defined.

(** ** When the dashboard is rendered *)

Lemma idxmax_raise xs e : idxmax xs = Raise e -> e = ValueError_empty.
Proof.
  unfold idxmax. destruct (forallb is_nan xs); [intros H; now inversion H|].
  destruct (arg_best _ _ 0%nat None) as [[i y]|]; [discriminate|].
  intros H. now inversion H.
Qed.

Lemma idxmin_raise xs e : idxmin xs = Raise e -> e = ValueError_empty.
Proof.
  unfold idxmin. destruct (forallb is_nan xs); [intros H; now inversion H|].
  destruct (arg_best _ _ 0%nat None) as [[i y]|]; [discriminate|].
  intros H. now inversion H.
Qed.

Lemma idx_ok_iff xs :
  ((exists i, idxmax xs = Ok i) <-> exists x, In x xs /\ is_nan x = false) /\
  ((exists i, idxmin xs = Ok i) <-> exists x, In x xs /\ is_nan x = false).
Proof.
  split; split.
  - intros [i H]. apply (idx_ok_present xs i). now left.
  - intros H. apply (idx_ok xs H).
  - intros [i H]. apply (idx_ok_present xs i). now right.
  - intros H. apply (idx_ok xs H).
Qed.

Lemma take_In {A} idx (xs : list A) x : In x (take idx xs) -> In x xs.
Proof.
  unfold take. rewrite in_flat_map. intros [i [_ H]].
  destruct (nth_error xs i) as [y|] eqn:E; [|contradiction].
  destruct H as [<-|[]]. eapply nth_error_In; eauto.
Qed.

(** The four required columns of a normalised, validated table. *)
Lemma validated_table df df1 :
  normalize_columns df = Ok df1 -> require_columns df1 = None ->
  exists ts ys ps gs,
    select df1 col_month = One (Object (map OStr ts)) /\
    select df1 col_sales = One (Float64 ys) /\
    select df1 col_prev = One (Float64 ps) /\
    select df1 col_growth = One (Float64 gs).
Proof.
  intros N R.
  destruct (validated_month df df1 N R) as [ts St].
  destruct (validated_numeric df df1 col_sales N R) as [ys Sy]; [simpl; auto|].
  destruct (validated_numeric df df1 col_prev N R) as [ps Sp]; [simpl; auto|].
  destruct (validated_numeric df df1 col_growth N R) as [gs Sg]; [simpl; auto|].
  exists ts, ys, ps, gs. auto.
Qed.

(** On such a table the script goes through, but for the two
    selections of the extreme rows. *)
Lemma render_validated df1 ts ys ps gs :
  select df1 col_month = One (Object (map OStr ts)) ->
  select df1 col_sales = One (Float64 ys) ->
  select df1 col_prev = One (Float64 ps) ->
  select df1 col_growth = One (Float64 gs) ->
  let idx := argsort obj_leb obj_isna (map OStr ts) in
  (select df1 col_diff <> Many /\
   exists d, render df1 = Ok d /\ table d = permute_rows idx df1 /\
     idxmax (take idx ys) = Ok (max_idx d) /\ idxmin (take idx ys) = Ok (min_idx d) /\
     fig_sales d = {| ln_x := take idx ts; ln_sales := take idx ys;
                      ln_prev := take idx ps |} /\
     bar_x (fig_growth d) = take idx ts /\ bar_y (fig_growth d) = take idx gs /\
     List.length (bar_colors (fig_growth d)) = List.length (take idx gs) /\
     hbar_diff (permute_rows idx df1) = Ok (fig_diff d)) \/
  (render df1 = Raise ValueError_empty /\
   ((exists e, idxmax (take idx ys) = Raise e) \/
    (exists e, idxmin (take idx ys) = Raise e))) \/
  (select df1 col_diff = Many /\
   (exists i, idxmax (take idx ys) = Ok i) /\
   render df1 = Raise (ValueError_label col_diff)).
Proof.
  intros St Sy Sp Sg idx.
  destruct (sort_values_month df1 ts St) as (So & Se & _). fold idx in So, Se.
  assert (Gy : get_series (permute_rows idx df1) col_sales = Ok (Float64 (take idx ys))).
  { unfold get_series, permute_rows. now rewrite select_map, Sy. }
  assert (Gp : get_series (permute_rows idx df1) col_prev = Ok (Float64 (take idx ps))).
  { unfold get_series, permute_rows. now rewrite select_map, Sp. }
  assert (Gg : get_series (permute_rows idx df1) col_growth = Ok (Float64 (take idx gs))).
  { unfold get_series, permute_rows. now rewrite select_map, Sg. }
  assert (Gm : get_series (permute_rows idx df1) col_month
               = Ok (Object (map OStr (take idx ts)))).
  { unfold get_series. now rewrite Se. }
  assert (L : line_sales (permute_rows idx df1) =
              Ok {| ln_x := take idx ts; ln_sales := take idx ys;
                    ln_prev := take idx ps |}).
  { unfold line_sales. rewrite Gm. cbn [bind]. rewrite str_values_OStr. cbn [bind].
    rewrite Gy, Gp. reflexivity. }
  assert (B : exists bg, bar_growth (permute_rows idx df1) = Ok bg /\
              bar_x bg = take idx ts /\ bar_y bg = take idx gs /\
              List.length (bar_colors bg) = List.length (take idx gs)).
  { unfold bar_growth. rewrite Gg. cbn [bind float_values]. rewrite Gm. cbn [bind].
    rewrite str_values_OStr. cbn [bind]. eexists. split; [reflexivity|].
    cbn. repeat split. apply length_map. }
  destruct B as (bg & B & Bx & By & Bc).
  assert (Sd : select (permute_rows idx df1) col_diff = Many <->
               select df1 col_diff = Many).
  { unfold permute_rows. rewrite select_map.
    destruct (select df1 col_diff); split; congruence. }
  pose proof (hbar_diff_result (permute_rows idx df1) _ _ _ _ _ _
                Gy eq_refl Gp eq_refl Gm (str_values_OStr _)) as H.
  unfold render. rewrite So. cbn [bind]. rewrite Gy. cbn [bind float_values].
  rewrite Gp. cbn [bind float_values].
  destruct (idxmax (take idx ys)) as [imax|e] eqn:Emax; cbn [bind].
  - destruct (idxmin (take idx ys)) as [imin|e] eqn:Emin; cbn [bind].
    + rewrite L, B. cbn [bind]. destruct H as [[M H]|[M [hb H]]]; rewrite H; cbn [bind].
      * right. right. split; [now apply Sd|]. split; eauto.
      * left. split; [intros M'; now apply M, Sd|].
        eexists. split; [reflexivity|]. cbn. repeat split; auto.
    + right. left. rewrite (idxmin_raise _ _ Emin). split; eauto.
  - right. left. rewrite (idxmax_raise _ _ Emax). split; eauto.
Qed.

Lemma normalize_sizes df out : normalize_columns df = Ok out -> sizes out = sizes df.
Proof.
  intros H. apply normalize_steps in H.
  destruct H as (o1 & o2 & o3 & H1 & H2 & H3 & H4).
  rewrite (strip_month_sizes _ _ H4), (coerce_column_sizes _ _ _ H3),
    (coerce_column_sizes _ _ _ H2), (coerce_column_sizes _ _ _ H1).
  unfold sizes, rename_columns. now rewrite map_map.
Qed.

Lemma normalize_rectangular n df out :
  normalize_columns df = Ok out -> rectangular n df -> rectangular n out.
Proof.
  intros H R. unfold rectangular. now rewrite (normalize_sizes df out H).
Qed.

Lemma rectangular_select n df c s : rectangular n df -> select df c = One s -> size s = n.
Proof.
  intros R S. eapply rectangular_In; eauto. eapply select_In; eauto.
Qed.

(** The month order of a validated table of [n] rows. *)
Lemma month_order n df1 ts :
  rectangular n df1 ->
  select df1 col_month = One (Object (map OStr ts)) ->
  List.length ts = n /\
  Permutation (argsort obj_leb obj_isna (map OStr ts)) (seq 0 n).
Proof.
  intros R S. pose proof (rectangular_select n df1 _ _ R S) as Z. simpl in Z.
  rewrite length_map in Z. split; auto.
  rewrite <- Z, <- (length_map OStr ts). apply argsort_perm.
Qed.

(** X9: a table of [n] rows is rendered exactly when normalisation
    returns, validation passes, some sales cell holds a value and at most
    one column has the label that [hbar_diff] gives the difference. *)
Theorem dashboard_renders_iff n df :
  rectangular n df ->
  ((exists d, dashboard df = Rendered d) <->
   exists df1 ys,
     normalize_columns df = Ok df1 /\ require_columns df1 = None /\
     select df1 col_sales = One (Float64 ys) /\
     (exists x, In x ys /\ is_nan x = false) /\
     select df1 col_diff <> Many).
Proof.
  intros R. split.
  - intros [d D]. apply dashboard_inv in D. destruct D as (df1 & N & V & Re).
    destruct (validated_table df df1 N V) as (ts & ys & ps & gs & St & Sy & Sp & Sg).
    exists df1, ys.
    destruct (render_validated df1 ts ys ps gs St Sy Sp Sg)
      as [(M & d' & _ & _ & Imax & _)|[[Ra _]|(_ & _ & Ra)]]; try congruence.
    repeat split; auto.
    destruct (proj1 (proj1 (idx_ok_iff _)) (ex_intro _ _ Imax)) as [x [I Nx]].
    exists x. split; auto. eapply take_In; eauto.
  - intros (df1 & ys & N & V & Sy & (x & I & Nx) & M).
    destruct (validated_table df df1 N V) as (ts & ys' & ps & gs & St & Sy' & Sp & Sg).
    rewrite Sy in Sy'. inversion Sy'; subst ys'.
    pose proof (normalize_rectangular n df df1 N R) as R1.
    destruct (month_order n df1 ts R1 St) as [Lt P].
    pose proof (rectangular_select n df1 _ _ R1 Sy) as Ly. simpl in Ly.
    assert (Px : exists y, In y (take (argsort obj_leb obj_isna (map OStr ts)) ys) /\
                           is_nan y = false).
    { exists x. split; auto.
      eapply Permutation_in; [apply Permutation_sym, take_perm; now rewrite Ly|exact I]. }
    destruct (render_validated df1 ts ys ps gs St Sy Sp Sg)
      as [(_ & d & Re & _)|[[_ [[e E]|[e E]]]|(M' & _)]].
    + exists d. unfold dashboard. now rewrite N, V, Re.
    + destruct (proj2 (proj1 (idx_ok_iff _)) Px) as [i Hi]. congruence.
    + destruct (proj2 (proj2 (idx_ok_iff _)) Px) as [i Hi]. congruence.
    + contradiction.
Qed.

Lemma dashboard_renders_iff_witness :
  exists d, dashboard sample_table = Rendered d.
Proof.
  apply (proj2 (dashboard_renders_iff 3 sample_table ltac:(vm_compute; repeat constructor))).
  exists sample_normal, [1234; 2000; nan]%float.
  repeat split; try (vm_compute; reflexivity).
  - exists 1234%float. split; [simpl; auto | reflexivity].
  - vm_compute. discriminate.
Defined.



(** X11: when the table passes normalisation and validation but no sales
    cell holds a value, as in a table without rows, the run ends with the
    [ValueError] of the selection of the maximum row: no metric and no
    chart is shown. *)
Theorem no_sales_value_raises df df1 ys :
  normalize_columns df = Ok df1 -> require_columns df1 = None ->
  select df1 col_sales = One (Float64 ys) ->
  Forall (fun x => is_nan x = true) ys ->
  dashboard df = Uncaught ValueError_empty.
Proof.
  intros N V Sy A.
  destruct (validated_table df df1 N V) as (ts & ys' & ps & gs & St & Sy' & Sp & Sg).
  rewrite Sy in Sy'. inversion Sy'; subst ys'.
  unfold dashboard. rewrite N, V.
  destruct (render_validated df1 ts ys ps gs St Sy Sp Sg)
    as [(_ & d & _ & _ & Imax & _)|[[Ra _]|(_ & [i Imax] & _)]]; [|now rewrite Ra|].
  - destruct (proj1 (proj1 (idx_ok_iff _)) (ex_intro _ _ Imax)) as [x [I Nx]].
    apply take_In in I. rewrite Forall_forall in A. apply A in I. congruence.
  - destruct (proj1 (proj1 (idx_ok_iff _)) (ex_intro _ _ Imax)) as [x [I Nx]].
    apply take_In in I. rewrite Forall_forall in A. apply A in I. congruence.
Qed.

Lemma no_sales_value_raises_witness :
  dashboard empty_table = Uncaught ValueError_empty.
Proof.
  destruct (normalize_columns empty_table) as [df1|] eqn:N;
    [|vm_compute in N; discriminate].
  apply (no_sales_value_raises empty_table df1 []); auto.
  - vm_compute in N. inversion N. reflexivity.
  - vm_compute in N. inversion N. reflexivity.
Defined.


(** ** The extreme rows and the growth of a rendered dashboard *)

(** X12: in a rendered dashboard whose sales column has no missing cell,
    or has a value above -inf and a value below +inf (as when its values
    are finite), the two selected rows exist, the minimum is at most the
    maximum, and the two selections are the same row exactly when all
    sales cells that hold a value are equal. *)
Theorem extremes_related df d :
  dashboard df = Rendered d ->
  exists s sales,
    get_series (table d) col_sales = Ok s /\ float_values s = Ok sales /\
    (max_told_apart sales -> min_told_apart sales ->
     exists vmax vmin,
       nth_error sales (max_idx d) = Some vmax /\
       nth_error sales (min_idx d) = Some vmin /\
       (vmin <=? vmax)%float = true /\
       (max_idx d = min_idx d <->
        forall x, In x sales -> is_nan x = false -> (x =? vmax)%float = true)).
Proof.
  intros D. apply dashboard_inv in D. destruct D as (df1 & _ & _ & Re).
  apply render_inv in Re.
  destruct Re as (df2 & s & sales & p & prev & _ & T & Gs & Fs & _ & _ &
                  _ & _ & _ & Hmax & Hmin & _).
  exists s, sales. rewrite T. split; [exact Gs|]. split; [exact Fs|].
  intros Tmax Tmin.
  apply idxmax_first in Hmax; [|exact Tmax]. apply idxmin_first in Hmin; [|exact Tmin].
  destruct Hmax as (vmax & Emax & Nmax & Amax & Bmax).
  destruct Hmin as (vmin & Emin & Nmin & Amin & Bmin).
  exists vmax, vmin.
  split; [exact Emax|]. split; [exact Emin|].
  split; [eapply Amax; eauto|].
  split.
  - intros E x I Nx. rewrite E, Emin in Emax. inversion Emax; subst vmax.
    apply In_nth_error in I. destruct I as [k Hk].
    pose proof (Amax k x Hk Nx) as L1. pose proof (Amin k x Hk Nx) as L2.
    rewrite leb_key in L1, L2 by auto. rewrite eqb_key by auto.
    apply Z.leb_le in L1, L2. apply Z.eqb_eq. lia.
  - intros A.
    assert (Q : (vmin =? vmax)%float = true).
    { apply A; auto. eapply nth_error_In; eauto. }
    rewrite eqb_key in Q by auto. apply Z.eqb_eq in Q.
    destruct (Nat.lt_trichotomy (max_idx d) (min_idx d)) as [L|[E|L]]; auto; exfalso.
    + pose proof (Bmin _ vmax L Emax Nmax) as S.
      rewrite ltb_key in S by auto. apply Z.ltb_lt in S. lia.
    + pose proof (Bmax _ vmin L Emin Nmin) as S.
      rewrite ltb_key in S by auto. apply Z.ltb_lt in S. lia.
Qed.

Lemma extremes_related_witness :
  exists d, rendered (dashboard tie_table) = Some d /\
    exists vmax vmin, (vmin <=? vmax)%float = true /\ max_idx d <> min_idx d.
Proof.
  destruct (dashboard tie_table) as [d| |] eqn:E; try (vm_compute in E; discriminate).
  exists d. split; [reflexivity|].
  destruct (extremes_related tie_table d E) as (s & sales & Gs & Fs & H).
  assert (V : Forall (fun x => is_nan x = false) sales /\ max_idx d <> min_idx d).
  { vm_compute in E. inversion E as [Ed]. rewrite <- Ed in Gs. vm_compute in Gs.
    inversion Gs as [Es]. rewrite <- Es in Fs. vm_compute in Fs.
    inversion Fs. split; [repeat constructor|cbn; lia]. }
  destruct V as [V Ne].
  destruct (H (or_introl V) (or_introl V)) as (vmax & vmin & _ & _ & L & _).
  exists vmax, vmin. auto.
Defined.

Lemma is_infinity_spec x s : Prim2SF x = S754_infinity s -> is_infinity x = true.
Proof.
  intros H. unfold is_infinity. rewrite eqb_spec, abs_spec, H. reflexivity.
Qed.

(** A finite total set against itself gives no growth. *)
Lemma self_growth_zero x :
  is_finite x = true ->
  feq (if truthy x then ((x - x) / x * 100)%float else zero) zero.
Proof.
  unfold is_finite, truthy. intros F. apply negb_true_iff, orb_false_iff in F.
  destruct F as [Fn Fi].
  destruct (Prim2SF x) as [s|s| |s m e] eqn:E.
  - assert (Z : (x =? zero)%float = true) by (rewrite eqb_spec, E; reflexivity).
    rewrite Z. apply feq_refl.
  - rewrite (is_infinity_spec x s E) in Fi. discriminate.
  - apply is_nan_spec in E. congruence.
  - assert (Z : (x =? zero)%float = false).
    { rewrite eqb_spec, E. destruct s; reflexivity. }
    rewrite Z. cbn [negb]. apply feq_cases. right. split; [|exists false; reflexivity].
    rewrite mul_spec, div_spec, sub_spec, E.
    unfold SF64sub, SFsub. rewrite Z.sub_diag. cbn [binary_normalize].
    unfold SF64div, SFdiv.
    change (Prim2SF 100) with (S754_finite false 7036874417766400 (-46)).
    eexists. reflexivity.
Qed.

(** X13: when the two totals of a rendered dashboard are the same finite
    number, the growth percentage is zero. *)
Theorem equal_totals_no_growth df d :
  dashboard df = Rendered d ->
  total_sales d = last_year_sales d ->
  is_finite (total_sales d) = true ->
  feq (growth_pct d) zero /\ feq (ind_growth (fig_indicator d)) zero.
Proof.
  intros D E F. apply dashboard_inv in D. destruct D as (df1 & _ & _ & Re).
  apply render_inv in Re.
  destruct Re as (df2 & s & sales & p & prev & _ & _ & _ & _ & _ & _ &
                  Ht & Hl & _ & _ & _ & Hg & Hi & _).
  rewrite Hg, Hi. unfold make_indicator. cbn [ind_growth].
  rewrite Ht, Hl in E. rewrite Ht in F. rewrite E. rewrite E in F.
  split; now apply self_growth_zero.
Qed.

Lemma equal_totals_no_growth_witness :
  exists d, rendered (dashboard flat_table) = Some d /\ feq (growth_pct d) zero.
Proof.
  destruct (dashboard flat_table) as [d| |] eqn:E; try (vm_compute in E; discriminate).
  exists d. split; [reflexivity|].
  assert (T : total_sales d = last_year_sales d /\ is_finite (total_sales d) = true).
  { vm_compute in E. inversion E. split; reflexivity. }
  destruct T as [T F]. exact (proj1 (equal_totals_no_growth flat_table d E T F)).
Defined.


(** ** The charts *)

Lemma normalize_labels df out :
  normalize_columns df = Ok out -> columns out = map new_label (columns df).
Proof.
  intros H. apply normalize_steps in H.
  destruct H as (o1 & o2 & o3 & H1 & H2 & H3 & H4).
  apply coerce_column_keeps in H1. destruct H1 as (C1 & _).
  apply coerce_column_keeps in H2. destruct H2 as (C2 & _).
  apply coerce_column_keeps in H3. destruct H3 as (C3 & _).
  apply strip_month_keeps in H4. destruct H4 as (C4 & _).
  rewrite C4, C3, C2, C1. apply columns_rename.
Qed.

Lemma sub_series_length a b n :
  List.length a = n -> List.length b = n -> List.length (sub_series a b) = n.
Proof.
  intros <- Hb. unfold sub_series. rewrite length_map, length_combine, Hb. lia.
Qed.

Lemma take_perm_length {A} idx n (xs : list A) :
  Permutation idx (seq 0 n) -> List.length xs = n -> List.length (take idx xs) = n.
Proof.
  intros P L. rewrite <- L in P. rewrite (Permutation_length (take_perm idx xs P)).
  exact L.
Qed.

(** X14: in a rendered dashboard of a table of [n] rows the table shown is
    rectangular with the renamed labels, the line chart and the growth
    chart have the months in ascending order on their common x axis,
    every series of the three charts has [n] points, the sales and
    prior-year lines are the columns of the sorted table, and the two
    selected rows are rows of it. *)
Theorem charts_follow_sorted_table n df d :
  rectangular n df ->
  dashboard df = Rendered d ->
  rectangular n (table d) /\
  columns (table d) = map new_label (columns df) /\
  select (table d) col_sales = One (Float64 (ln_sales (fig_sales d))) /\
  select (table d) col_prev = One (Float64 (ln_prev (fig_sales d))) /\
  select (table d) col_growth = One (Float64 (bar_y (fig_growth d))) /\
  select (table d) col_month = One (Object (map OStr (ln_x (fig_sales d)))) /\
  Sorted (fun a b => str_leb a b = true) (ln_x (fig_sales d)) /\
  bar_x (fig_growth d) = ln_x (fig_sales d) /\
  List.length (ln_x (fig_sales d)) = n /\
  List.length (ln_sales (fig_sales d)) = n /\
  List.length (ln_prev (fig_sales d)) = n /\
  List.length (bar_y (fig_growth d)) = n /\
  List.length (bar_colors (fig_growth d)) = n /\
  List.length (hb_diff (fig_diff d)) = n /\
  List.length (hb_month (fig_diff d)) = n /\
  List.length (hb_colors (fig_diff d)) = n /\
  (max_idx d < n)%nat /\ (min_idx d < n)%nat.
Proof.
  intros R D. apply dashboard_inv in D. destruct D as (df1 & N & V & Re).
  destruct (validated_table df df1 N V) as (ts & ys & ps & gs & St & Sy & Sp & Sg).
  pose proof (normalize_rectangular n df df1 N R) as R1.
  destruct (month_order n df1 ts R1 St) as [Lt P].
  pose proof (rectangular_select n df1 _ _ R1 Sy) as Ly.
  pose proof (rectangular_select n df1 _ _ R1 Sp) as Lp.
  pose proof (rectangular_select n df1 _ _ R1 Sg) as Lg. simpl in Ly, Lp, Lg.
  destruct (sort_values_month df1 ts St) as (_ & Se & _ & Sd & _).
  destruct (render_validated df1 ts ys ps gs St Sy Sp Sg)
    as [(_ & d' & Re' & T & Imax & Imin & Fl & Bx & By & Bc & Hb)|[[Ra _]|(_ & _ & Ra)]];
    [|congruence|congruence].
  rewrite Re in Re'. inversion Re'; subst d'. clear Re'.
  set (idx := argsort obj_leb obj_isna (map OStr ts)) in *.
  assert (Ltx : List.length (take idx ts) = n) by (apply take_perm_length; auto).
  assert (Lty : List.length (take idx ys) = n) by (apply take_perm_length; auto).
  assert (Ltp : List.length (take idx ps) = n) by (apply take_perm_length; auto).
  assert (Ltg : List.length (take idx gs) = n) by (apply take_perm_length; auto).
  assert (Gy : get_series (permute_rows idx df1) col_sales = Ok (Float64 (take idx ys))).
  { unfold get_series, permute_rows. now rewrite select_map, Sy. }
  assert (Gp : get_series (permute_rows idx df1) col_prev = Ok (Float64 (take idx ps))).
  { unfold get_series, permute_rows. now rewrite select_map, Sp. }
  assert (Gm : get_series (permute_rows idx df1) col_month
               = Ok (Object (map OStr (take idx ts)))).
  { unfold get_series. now rewrite Se. }
  destruct (hbar_diff_fields _ _ _ _ _ _ _ _ Gy eq_refl Gp eq_refl Gm
              (str_values_OStr _) Hb) as (Hd & Hm & _ & _ & Hc).
  assert (Ld : List.length (sub_series (take idx ys) (take idx ps)) = n)
    by (now apply sub_series_length).
  pose proof (argsort_perm PrimFloat.leb is_nan
                (sub_series (take idx ys) (take idx ps))) as P2.
  rewrite Ld in P2.
  rewrite T, Fl, Bx, By, Bc, Hd, Hc, Hm. cbn [ln_x ln_sales ln_prev].
  rewrite length_map.
  repeat split; auto.
  - now apply permute_rows_rectangular.
  - unfold columns, permute_rows. rewrite map_map. fold (columns df1).
    now apply normalize_labels.
  - unfold permute_rows. now rewrite select_map, Sy.
  - unfold permute_rows. now rewrite select_map, Sp.
  - unfold permute_rows. now rewrite select_map, Sg.
  - now apply take_perm_length.
  - now apply take_perm_length.
  - now apply take_perm_length.
  - rewrite <- Lty. apply (idx_bound _ _ (or_introl Imax)).
  - rewrite <- Lty. apply (idx_bound _ _ (or_intror Imin)).
Qed.

Lemma charts_follow_sorted_table_witness :
  exists d, rendered (dashboard sample_table) = Some d /\
    List.length (hb_colors (fig_diff d)) = 3%nat /\ (max_idx d < 3)%nat.
Proof.
  destruct (dashboard sample_table) as [d| |] eqn:E; try (vm_compute in E; discriminate).
  exists d. split; [reflexivity|].
  pose proof (charts_follow_sorted_table 3 sample_table d
                ltac:(vm_compute; repeat constructor) E) as H.
  repeat split; apply H.
Defined.


(** ** The bars of the difference chart *)

Lemma nth_error_combine {A B} (a : list A) (b : list B) : forall i,
  nth_error (combine a b) i =
  match nth_error a i, nth_error b i with
  | Some x, Some y => Some (x, y)
  | _, _ => None
  end.
Proof.
  revert b. induction a as [|x a IH]; intros b i.
  - destruct i; reflexivity.
  - destruct b as [|y b]; simpl.
    + destruct i as [|i]; simpl; auto. destruct (nth_error a i); reflexivity.
    + destruct i as [|i]; simpl; auto.
Qed.

Lemma take_app {A} i1 i2 (xs : list A) : take (i1 ++ i2) xs = take i1 xs ++ take i2 xs.
Proof. unfold take. apply flat_map_app. Qed.

Lemma take_combine {A B} idx (a : list A) (b : list B) :
  List.length a = List.length b ->
  take idx (combine a b) = combine (take idx a) (take idx b).
Proof.
  intros L. induction idx as [|i idx IH]; auto.
  change (take (i :: idx) (combine a b))
    with (match nth_error (combine a b) i with Some x => [x] | None => [] end
          ++ take idx (combine a b)).
  change (take (i :: idx) a)
    with (match nth_error a i with Some x => [x] | None => [] end ++ take idx a).
  change (take (i :: idx) b)
    with (match nth_error b i with Some x => [x] | None => [] end ++ take idx b).
  rewrite IH, nth_error_combine.
  destruct (nth_error a i) as [x|] eqn:Ea, (nth_error b i) as [y|] eqn:Eb; simpl; auto.
  - apply nth_error_None in Eb.
    assert ((i < List.length a)%nat) by (apply nth_error_Some; congruence). lia.
  - apply nth_error_None in Ea.
    assert ((i < List.length b)%nat) by (apply nth_error_Some; congruence). lia.
Qed.

(** The values in the order of [argsort]: those that are not missing,
    ascending, then the missing ones. *)
Lemma take_argsort_split xs :
  exists vs ns,
    take (argsort PrimFloat.leb is_nan xs) xs = vs ++ ns /\
    Sorted (fun a b => (a <=? b)%float = true) vs /\
    Forall (fun x => is_nan x = false) vs /\
    Forall (fun x => is_nan x = true) ns.
Proof.
  set (ks := enumerate xs).
  set (va := filter (fun k : float * nat => negb (is_nan (fst k))) ks).
  set (na := filter (fun k : float * nat => is_nan (fst k)) ks).
  assert (Va : Forall (fun k : float * nat => is_nan (fst k) = false) va).
  { apply Forall_forall. intros k Hk. apply filter_In in Hk.
    now apply negb_true_iff. }
  exists (map fst (sort_keys PrimFloat.leb va)), (map fst na).
  split; [|split; [|split]].
  - unfold argsort. fold ks. fold va. fold na. rewrite take_app. f_equal.
    + apply take_pairs. intros q Hq. apply enumerate_nth.
      apply (Permutation_in _ (sort_keys_perm PrimFloat.leb va)) in Hq.
      apply filter_In in Hq. tauto.
    + apply take_pairs. intros q Hq. apply enumerate_nth.
      apply filter_In in Hq. tauto.
  - apply sorted_map_fst.
    apply (sort_keys_sorted PrimFloat.leb (fun x => is_nan x = false) leb_total_valid).
    exact Va.
  - apply Forall_map.
    eapply Permutation_Forall; [apply Permutation_sym, sort_keys_perm|exact Va].
  - apply Forall_map. apply Forall_forall. intros k Hk. apply filter_In in Hk. tauto.
Qed.

(** X15: the bars of the difference chart are the rows of the table, each
    month with its own difference, reordered: first the differences that
    are numbers, ascending, then the rows without a difference. *)
Theorem bars_ascending df s sales p prev m months h n :
  get_series df col_sales = Ok s -> float_values s = Ok sales ->
  get_series df col_prev = Ok p -> float_values p = Ok prev ->
  get_series df col_month = Ok m -> str_values m = Ok months ->
  hbar_diff df = Ok h ->
  List.length months = n -> List.length sales = n -> List.length prev = n ->
  Permutation (combine (hb_month h) (hb_diff h))
              (combine months (sub_series sales prev)) /\
  exists vs ns,
    hb_diff h = vs ++ ns /\
    Sorted (fun a b => (a <=? b)%float = true) vs /\
    Forall (fun x => is_nan x = false) vs /\
    Forall (fun x => is_nan x = true) ns.
Proof.
  intros Gs Fs Gp Fp Gm Fm H Lm Ls Lp.
  destruct (hbar_diff_fields _ _ _ _ _ _ _ _ Gs Fs Gp Fp Gm Fm H) as (Hd & Hm & _).
  rewrite Hd, Hm. split; [|apply take_argsort_split].
  pose proof (sub_series_length sales prev n Ls Lp) as Ld.
  pose proof (argsort_perm PrimFloat.leb is_nan (sub_series sales prev)) as P.
  rewrite Ld in P.
  rewrite <- take_combine by congruence.
  apply take_perm. rewrite length_combine, Lm, Ld, Nat.min_id. exact P.
Qed.

Lemma bars_ascending_witness :
  exists h, hbar_diff eight_table = Ok h /\
    exists vs ns,
      hb_diff h = vs ++ ns /\
      Sorted (fun a b => (a <=? b)%float = true) vs /\
      Forall (fun x => is_nan x = false) vs /\
      Forall (fun x => is_nan x = true) ns.
Proof.
  destruct (hbar_diff eight_table) as [h|] eqn:E; [|vm_compute in E; discriminate].
  exists h. split; [reflexivity|].
  refine (proj2 (bars_ascending eight_table _ _ _ _ _ _ h 8%nat
                   eq_refl eq_refl eq_refl eq_refl eq_refl eq_refl E _ _ _));
    reflexivity.
Defined.

Lemma map_all_same {A B} (f : A -> B) l b :
  (forall x, In x l -> f x = b) -> map f l = repeat b (List.length l).
Proof.
  induction l as [|x l IH]; simpl; intros H; auto.
  rewrite (H x) by auto. f_equal. apply IH. auto.
Qed.

(** X16: with at most six rows every bar of the difference chart is
    highlighted. *)
Theorem few_rows_all_highlighted df s sales p prev m months h n :
  get_series df col_sales = Ok s -> float_values s = Ok sales ->
  get_series df col_prev = Ok p -> float_values p = Ok prev ->
  get_series df col_month = Ok m -> str_values m = Ok months ->
  hbar_diff df = Ok h ->
  List.length months = n -> List.length sales = n -> List.length prev = n ->
  (n <= 6)%nat ->
  hb_colors h = repeat Highlight n.
Proof.
  intros Gs Fs Gp Fp Gm Fm H Lm Ls Lp L6.
  destruct (hbar_diff_fields _ _ _ _ _ _ _ _ Gs Fs Gp Fp Gm Fm H) as (_ & _ & _ & _ & Hc).
  pose proof (sub_series_length sales prev n Ls Lp) as Ld.
  pose proof (argsort_perm PrimFloat.leb is_nan (sub_series sales prev)) as P.
  rewrite Ld in P.
  set (tm := take (argsort PrimFloat.leb is_nan (sub_series sales prev)) months) in *.
  assert (Ltm : List.length tm = n) by (now apply take_perm_length).
  rewrite Hc, <- Ltm. apply map_all_same. intros mo I.
  apply In_nth_error in I. destruct I as [k Hk].
  assert (Lk : (k < n)%nat) by (rewrite <- Ltm; apply nth_error_Some; congruence).
  destruct (Nat.lt_ge_cases k 3) as [K|K].
  - assert (B : str_in mo (head3 tm) = true).
    { apply str_in_In. unfold head3. apply (nth_error_In _ k).
      rewrite nth_error_firstn. destruct (Nat.ltb_spec k 3); [exact Hk|lia]. }
    rewrite B, orb_true_r. reflexivity.
  - assert (T : str_in mo (tail3 tm) = true).
    { apply str_in_In. unfold tail3. rewrite Ltm.
      apply (nth_error_In _ (k - (n - 3))). rewrite nth_error_skipn.
      replace (n - 3 + (k - (n - 3)))%nat with k by lia. exact Hk. }
    rewrite T. reflexivity.
Qed.

Lemma few_rows_all_highlighted_witness :
  exists h, hbar_diff six_table = Ok h /\ hb_colors h = repeat Highlight 6.
Proof.
  destruct (hbar_diff six_table) as [h|] eqn:E; [|vm_compute in E; discriminate].
  exists h. split; [reflexivity|].
  refine (few_rows_all_highlighted six_table _ _ _ _ _ _ h 6%nat
            eq_refl eq_refl eq_refl eq_refl eq_refl eq_refl E _ _ _ _);
    try reflexivity; lia.
Defined.

Lemma filter_orb_length {A} (f g : A -> bool) l :
  (forall x, In x l -> f x = true -> g x = true -> False) ->
  List.length (filter (fun x => f x || g x) l) =
  (List.length (filter f l) + List.length (filter g l))%nat.
Proof.
  induction l as [|x l IH]; simpl; intros H; auto.
  assert (IH' := IH (fun y I => H y (or_intror I))).
  destruct (f x) eqn:Ef, (g x) eqn:Eg; simpl; try lia.
  exfalso. apply (H x); auto.
Qed.

Lemma highlighted_count {A} (f : A -> bool) l :
  List.length (filter is_highlight (map (fun x => if f x then Highlight else Plain) l)) =
  List.length (filter f l).
Proof.
  induction l as [|x l IH]; simpl; auto.
  destruct (f x); simpl; now rewrite IH.
Qed.

(** X17: with six rows or more and pairwise different months, the
    highlighted bars of the difference chart are the first three and the
    last three, six in all; the others are plain. *)
Theorem six_bars_highlighted df s sales p prev m months h n :
  get_series df col_sales = Ok s -> float_values s = Ok sales ->
  get_series df col_prev = Ok p -> float_values p = Ok prev ->
  get_series df col_month = Ok m -> str_values m = Ok months ->
  hbar_diff df = Ok h ->
  List.length months = n -> List.length sales = n -> List.length prev = n ->
  (6 <= n)%nat -> NoDup months ->
  (forall k c, nth_error (hb_colors h) k = Some c ->
     (c = Highlight <-> (k < 3 \/ n - 3 <= k)%nat) /\
     (c = Plain <-> (3 <= k < n - 3)%nat)) /\
  List.length (filter is_highlight (hb_colors h)) = 6%nat.
Proof.
  intros Gs Fs Gp Fp Gm Fm H Lm Ls Lp L6 ND.
  destruct (hbar_diff_fields _ _ _ _ _ _ _ _ Gs Fs Gp Fp Gm Fm H) as (_ & _ & _ & _ & Hc).
  pose proof (sub_series_length sales prev n Ls Lp) as Ld.
  pose proof (argsort_perm PrimFloat.leb is_nan (sub_series sales prev)) as P.
  rewrite Ld in P.
  set (tm := take (argsort PrimFloat.leb is_nan (sub_series sales prev)) months) in *.
  assert (Ltm : List.length tm = n) by (now apply take_perm_length).
  assert (NDtm : NoDup tm).
  { eapply Permutation_NoDup; [apply Permutation_sym, take_perm; now rewrite Lm|exact ND]. }
  unfold tail3, head3 in Hc. rewrite Ltm in Hc.
  assert (Pos : forall k mo, nth_error tm k = Some mo ->
            (str_in mo (skipn (n - 3) tm) = true <-> (n - 3 <= k)%nat) /\
            (str_in mo (firstn 3 tm) = true <-> (k < 3)%nat)).
  { intros k mo Hk. rewrite !str_in_In.
    split.
    - exact (proj1 (NoDup_positions tm k mo (n - 3) NDtm Hk)).
    - exact (proj2 (NoDup_positions tm k mo 3 NDtm Hk)). }
  rewrite Hc. split.
  - intros k c Hk. rewrite nth_error_map in Hk.
    destruct (nth_error tm k) as [mo|] eqn:Em; [|discriminate].
    cbn [option_map] in Hk.
    apply (f_equal (fun o => match o with Some x => x | None => c end)) in Hk.
    cbv beta iota in Hk. rewrite <- Hk. clear Hk.
    assert (Lk : (k < n)%nat) by (rewrite <- Ltm; apply nth_error_Some; congruence).
    destruct (Pos k mo Em) as [[T1 T2] [B1 B2]].
    destruct (str_in mo (skipn (n - 3) tm)) eqn:ET; cbn [orb].
    + pose proof (T1 eq_refl) as K. split; split.
      * intros _. now right.
      * intros _. reflexivity.
      * discriminate.
      * intros K'. exfalso. lia.
    + destruct (str_in mo (firstn 3 tm)) eqn:EB; cbn [orb].
      * pose proof (B1 eq_refl) as K. split; split.
        -- intros _. now left.
        -- intros _. reflexivity.
        -- discriminate.
        -- intros K'. exfalso. lia.
      * split; split.
        -- discriminate.
        -- intros [K|K]; [apply B2 in K|apply T2 in K]; discriminate.
        -- intros _. destruct (Nat.lt_ge_cases k 3) as [K|K]; [apply B2 in K; discriminate|].
           destruct (Nat.lt_ge_cases k (n - 3)) as [K'|K']; [lia|].
           apply T2 in K'. discriminate.
        -- intros _. reflexivity.
  - rewrite highlighted_count, filter_orb_length.
    + rewrite (members_of_tail tm (n - 3) NDtm), (members_of_head tm 3 NDtm), Ltm. lia.
    + intros mo I A B. apply In_nth_error in I. destruct I as [k Hk].
      destruct (Pos k mo Hk) as [[T1 _] [B1 _]].
      apply T1 in A. apply B1 in B. lia.
Qed.

Lemma six_bars_highlighted_witness :
  exists h, hbar_diff eight_table = Ok h /\
    hb_colors h = [Highlight; Highlight; Highlight; Plain; Plain;
                   Highlight; Highlight; Highlight] /\
    List.length (filter is_highlight (hb_colors h)) = 6%nat.
Proof.
  destruct (hbar_diff eight_table) as [h|] eqn:E; [|vm_compute in E; discriminate].
  exists h. split; [reflexivity|]. split.
  - vm_compute in E. inversion E. reflexivity.
  - refine (proj2 (six_bars_highlighted eight_table _ _ _ _ _ _ h 8%nat
                     eq_refl eq_refl eq_refl eq_refl eq_refl eq_refl E
                     _ _ _ _ _)); try reflexivity; [lia|].
    vm_compute. repeat constructor; simpl; intuition discriminate.
Defined.


(** ** Integer and boolean columns *)

(** The text of an integer is coerced to the float nearest to it. *)
Lemma coerce_cell_int z : coerce_cell (str_of_int z) = Ok (float_of_Z z).
Proof.
  assert (D : forall n, Forall (fun c => is_float_space c = false) (nat_digits n) /\
                        clean (nat_digits n) = nat_digits n /\
                        (forall c r, nat_digits n = c :: r -> c <> 45%N /\ c <> 43%N) /\
                        nat_digits n <> []).
  { intros n. unfold nat_digits.
    pose proof (uint_digits_ascii (N.to_uint (Z.to_N n))) as F.
    split; [|split; [|split]].
    - eapply Forall_impl; [|exact F]. intros c Hc. now apply ascii_digit_cases.
    - assert (F1 : Forall (fun c => negb (c =? chr ",")%N = true)
                     (uint_digits (N.to_uint (Z.to_N n)))).
      { eapply Forall_impl; [|exact F]. intros c Hc. now apply ascii_digit_cases. }
      assert (F2 : Forall (fun c => negb (c =? chr " ")%N = true)
                     (uint_digits (N.to_uint (Z.to_N n)))).
      { eapply Forall_impl; [|exact F]. intros c Hc. now apply ascii_digit_cases. }
      unfold clean, remove_char. now rewrite (filter_all _ _ F1), (filter_all _ _ F2).
    - intros c r E. rewrite E in F. inversion F as [|? ? Hc _]; subst.
      cbn [In] in Hc. split; intros ->; repeat (destruct Hc as [Hc|Hc]; [discriminate|]);
        exact Hc.
    - apply uint_digits_nonnil, to_uint_nonnil. }
  unfold str_of_int. destruct (Z.ltb_spec z 0) as [Neg|Pos].
  - destruct (D (- z)) as (F & C & S & NN).
    rewrite coerce_cell_clean.
    + pose proof (float_of_str_plain true _ F S) as FS. cbn [app] in FS. rewrite FS.
      unfold nat_digits. rewrite float_of_unsigned_digits.
      rewrite round_decimal_int by lia. cbn [cond_Zopp].
      rewrite Z2N.id by lia. now rewrite Z.opp_involutive.
    + change (clean (chr "-" :: nat_digits (- z))) with (chr "-" :: clean (nat_digits (- z))).
      now rewrite C.
    + discriminate.
  - destruct (D z) as (F & C & S & NN).
    rewrite (coerce_cell_clean _ C NN).
    pose proof (float_of_str_plain false _ F S) as FS. cbn [app] in FS. rewrite FS.
    unfold nat_digits. rewrite float_of_unsigned_digits.
    rewrite round_decimal_int by (try lia; discriminate). cbn [cond_Zopp].
    now rewrite Z2N.id by lia.
Qed.

Lemma mapM_map_ok {A B C} (f : B -> result C) (g : A -> B) (h : A -> C) l :
  (forall x, f (g x) = Ok (h x)) -> mapM f (map g l) = Ok (map h l).
Proof.
  intros H. induction l as [|x l IH]; cbn [map mapM]; auto.
  now rewrite H, IH.
Qed.

(** X18: a column of integers passes the cleaning of the numeric columns
    without error, whatever its values, and becomes the same numbers as
    floats; a column of booleans with at least one row raises the
    [ValueError] of [float('True')] or [float('False')]. *)
Theorem integer_column_coerced :
  (forall zs, coerce_series (Int64 zs) = Ok (Float64 (map float_of_Z zs))) /\
  (forall out col zs, select out col = One (Int64 zs) ->
     coerce_column out col = Ok (set_column out col (Float64 (map float_of_Z zs)))) /\
  (forall (b : bool) bs,
     coerce_series (Bool (b :: bs)) =
     Raise (ValueError_float (if b then u "True" else u "False"))).
Proof.
  split; [|split].
  - intros zs. rewrite coerce_series_cells. cbn [cell_texts].
    now rewrite (mapM_map_ok coerce_cell str_of_int float_of_Z zs coerce_cell_int).
  - intros out col zs S. unfold coerce_column. rewrite S.
    rewrite coerce_series_cells. cbn [cell_texts].
    now rewrite (mapM_map_ok coerce_cell str_of_int float_of_Z zs coerce_cell_int).
  - intros b bs. rewrite coerce_series_cells. cbn [cell_texts map mapM].
    destruct b; reflexivity.
Qed.


(** ** Separators in a numeric cell *)

Lemma clean_clean t : clean (clean t) = clean t.
Proof.
  unfold clean at 1. unfold remove_char at 1 2.
  assert (F1 : Forall (fun c => negb (c =? chr ",")%N = true) (clean t)).
  { apply Forall_forall. intros c Hc. unfold clean, remove_char in Hc.
    apply filter_In in Hc. destruct Hc as [Hc _]. apply filter_In in Hc. tauto. }
  assert (F2 : Forall (fun c => negb (c =? chr " ")%N = true) (clean t)).
  { apply Forall_forall. intros c Hc. unfold clean, remove_char in Hc.
    apply filter_In in Hc. tauto. }
  now rewrite (filter_all _ _ F1), (filter_all _ _ F2).
Qed.

Lemma coerce_cell_clean_eq a b : clean a = clean b -> coerce_cell a = coerce_cell b.
Proof. intros E. unfold coerce_cell. now rewrite E. Qed.

(** X6: a cell of a text column that is an integer written with commas
    and spaces, wherever they stand, is coerced by the cleaning of the
    numeric columns to that integer as a float; so [1,234,567] and
    [ 12 34 ] become 1234567.0 and 1234.0. *)
Theorem separators_ignored ts zs :
  Forall2 (fun t z => clean t = str_of_int z) ts zs ->
  coerce_series (Object (map OStr ts)) = Ok (Float64 (map float_of_Z zs)).
Proof.
  intros F. rewrite coerce_series_cells. cbn [cell_texts]. rewrite map_map.
  cbn [str_of_obj]. rewrite map_id.
  assert (M : mapM coerce_cell ts = Ok (map float_of_Z zs)).
  { induction F as [|t z ts zs E _ IH]; [reflexivity|].
    cbn [mapM map]. rewrite IH.
    rewrite (coerce_cell_clean_eq t (str_of_int z)), coerce_cell_int; [reflexivity|].
    now rewrite <- E, clean_clean. }
  now rewrite M.
Qed.

Lemma separators_ignored_witness :
  coerce_series (Object [OStr (u "1,234,567"); OStr (u " 12 34 "); OStr (u "-7,000")]) =
  Ok (Float64 [1234567; 1234; -7000]%float).
Proof.
  apply (separators_ignored [u "1,234,567"; u " 12 34 "; u "-7,000"] [1234567; 1234; -7000]).
  repeat constructor.
Defined.

(** ** The bars of the growth chart *)

Lemma leb_nan_r x y : is_nan y = true -> (x <=? y)%float = false /\ (y <? x)%float = false.
Proof.
  intros H. apply is_nan_spec in H. rewrite leb_spec, ltb_spec, H.
  unfold SFleb, SFltb. split; [destruct (Prim2SF x)|]; reflexivity.
Qed.

(** X19: the growth chart has one colour for each bar; a bar is red exactly
    when its growth rate is below zero or missing, and blue otherwise (so
    also for a rate of zero of either sign). *)
Theorem growth_bar_colors df b :
  bar_growth df = Ok b ->
  List.length (bar_colors b) = List.length (bar_y b) /\
  forall k v, nth_error (bar_y b) k = Some v ->
    exists c, nth_error (bar_colors b) k = Some c /\
      (c = Blue <-> is_nan v = false /\ (v <? zero)%float = false) /\
      (c = Red <-> is_nan v = true \/ (v <? zero)%float = true).
Proof.
  unfold bar_growth. intros H.
  destruct (get_series df col_growth) as [g|] eqn:G; [|discriminate].
  cbn [bind] in H. destruct (float_values g) as [y|] eqn:Y; [|discriminate].
  cbn [bind] in H. destruct (get_series df col_month) as [m|] eqn:M; [|discriminate].
  cbn [bind] in H. destruct (str_values m) as [x|] eqn:X; [|discriminate].
  cbn [bind] in H. inversion H; subst; clear H. cbn [bar_colors bar_y].
  split; [apply length_map|].
  intros k v Hk. rewrite nth_error_map, Hk. cbn [option_map].
  eexists. split; [reflexivity|].
  destruct (is_nan v) eqn:Nv.
  - destruct (leb_nan_r zero v Nv) as [L1 L2]. rewrite L1, L2.
    split; split; try discriminate; intuition discriminate.
  - assert (N0 : is_nan zero = false) by reflexivity.
    rewrite (leb_key zero v N0 Nv), (ltb_key v zero Nv N0).
    change (fkey zero) with 0.
    destruct (Z.leb_spec 0 (fkey v)), (Z.ltb_spec (fkey v) 0); try lia;
      split; split; try discriminate; intuition discriminate.
Qed.

Lemma growth_bar_colors_witness :
  exists b, bar_growth eight_table = Ok b /\
    List.length (bar_colors b) = List.length (bar_y b).
Proof.
  destruct (bar_growth eight_table) as [b|] eqn:E; [|vm_compute in E; discriminate].
  exists b. split; [reflexivity|].
  exact (proj1 (growth_bar_colors eight_table b E)).
Defined.
